(** * Locomotion, collision, target lock and combat of the Zelda-like engine

    A shallow embedding of [js/core.js] (Core.checkCollision), [js/main.js]
    (Player.update, Player.attack, Player.takeDamage) and the camera module
    (Camera.toggleTargetLock).

    Conventions of the embedding.
    - A JavaScript number is a real number ([R]): IEEE rounding, NaN and
      infinities are idealised away.  [Infinity] appears once in the source
      (the initial closest distance) and gets a constructor of its own.
    - three.js (r128, loaded from a CDN by the page) is not part of the
      repository; the vector and quaternion methods the engine calls are
      transcribed from that release in the modules [Vector3], [Quaternion]
      and [Object3D].
    - Enemy objects live in a store ([en_heap]) and are named by reference;
      [engine.enemies] and [engine.currentTarget] hold references, so that
      [===] is equality of references and a removed enemy is still an object.
    - [setTimeout] and [requestAnimationFrame] append a callback to a queue
      of the engine state; the browser's event loop picks which one runs.
    - The state is the engine after [Environment.setup], which creates the
      player: [engine.player] is never null.
    - Scene graph children, materials, particles, debug visuals, the
      console and the DOM (apart from the reticle's visibility) are not part
      of the state. *)

From stdpp Require Import base option list gmap.
From Stdlib Require Import Reals Lra String.

Local Open Scope R_scope.

(** ** JavaScript comparisons on numbers *)

Definition Rltb (a b : R) : bool := if Rlt_dec a b then true else false.
Definition Rgtb (a b : R) : bool := Rltb b a.
Definition Rleb (a b : R) : bool := if Rle_dec a b then true else false.

(** ** three.js r128: Vector3 *)

Module Vector3.

Record t : Type := mk { x : R; y : R; z : R }.

Definition set_x (v : t) (r : R) : t := mk r (y v) (z v).
Definition set_y (v : t) (r : R) : t := mk (x v) r (z v).
Definition set_z (v : t) (r : R) : t := mk (x v) (y v) r.

Definition add (a b : t) : t := mk (x a + x b) (y a + y b) (z a + z b).
Definition sub (a b : t) : t := mk (x a - x b) (y a - y b) (z a - z b).
Definition subVectors (a b : t) : t := sub a b.
Definition multiplyScalar (v : t) (s : R) : t := mk (x v * s) (y v * s) (z v * s).
Definition divideScalar (v : t) (s : R) : t := multiplyScalar v (1 / s).

Definition dot (a b : t) : R := x a * x b + y a * y b + z a * z b.
Definition lengthSq (v : t) : R := x v * x v + y v * y v + z v * z v.
Definition length (v : t) : R := sqrt (x v * x v + y v * y v + z v * z v).

(** [this.divideScalar( this.length() || 1 )]: a zero length is falsy. *)
Definition normalize (v : t) : t :=
  divideScalar v (if Req_dec_T (length v) 0 then 1 else length v).

Definition crossVectors (a b : t) : t :=
  mk (y a * z b - z a * y b) (z a * x b - x a * z b) (x a * y b - y a * x b).

Definition distanceToSquared (a b : t) : R :=
  let dx := x a - x b in
  let dy := y a - y b in
  let dz := z a - z b in
  dx * dx + dy * dy + dz * dz.
Definition distanceTo (a b : t) : R := sqrt (distanceToSquared a b).

(** [MathUtils.clamp( value, min, max )] *)
Definition clamp (value lo hi : R) : R := Rmax lo (Rmin hi value).

Definition angleTo (a b : t) : R :=
  let denominator := sqrt (lengthSq a * lengthSq b) in
  if Req_dec_T denominator 0 then PI / 2
  else acos (clamp (dot a b / denominator) (-1) 1).

End Vector3.

(** ** three.js r128: Quaternion *)

Module Quaternion.

Record t : Type := mk { x : R; y : R; z : R; w : R }.

Definition identity : t := mk 0 0 0 1.

(** [setFromEuler] for the default order 'XYZ'. *)
Definition setFromEuler (ex ey ez : R) : t :=
  let c1 := cos (ex / 2) in
  let c2 := cos (ey / 2) in
  let c3 := cos (ez / 2) in
  let s1 := sin (ex / 2) in
  let s2 := sin (ey / 2) in
  let s3 := sin (ez / 2) in
  mk (s1 * c2 * c3 + c1 * s2 * s3)
     (c1 * s2 * c3 - s1 * c2 * s3)
     (c1 * c2 * s3 + s1 * s2 * c3)
     (c1 * c2 * c3 - s1 * s2 * s3).

(** [setFromRotationMatrix], on the columns [ex], [ey], [ez] of the
    rotation part (m11 = ex.x, m12 = ey.x, m13 = ez.x, ...). *)
Definition setFromRotationMatrix (ex ey ez : Vector3.t) : t :=
  let m11 := Vector3.x ex in let m12 := Vector3.x ey in let m13 := Vector3.x ez in
  let m21 := Vector3.y ex in let m22 := Vector3.y ey in let m23 := Vector3.y ez in
  let m31 := Vector3.z ex in let m32 := Vector3.z ey in let m33 := Vector3.z ez in
  let trace := m11 + m22 + m33 in
  if Rgtb trace 0 then
    let s := 0.5 / sqrt (trace + 1.0) in
    mk ((m32 - m23) * s) ((m13 - m31) * s) ((m21 - m12) * s) (0.25 / s)
  else if Rgtb m11 m22 && Rgtb m11 m33 then
    let s := 2.0 * sqrt (1.0 + m11 - m22 - m33) in
    mk (0.25 * s) ((m12 + m21) / s) ((m13 + m31) / s) ((m32 - m23) / s)
  else if Rgtb m22 m33 then
    let s := 2.0 * sqrt (1.0 + m22 - m11 - m33) in
    mk ((m12 + m21) / s) (0.25 * s) ((m23 + m32) / s) ((m13 - m31) / s)
  else
    let s := 2.0 * sqrt (1.0 + m33 - m11 - m22) in
    mk ((m13 + m31) / s) ((m23 + m32) / s) (0.25 * s) ((m21 - m12) / s).

End Quaternion.

(** [Vector3.applyQuaternion] and [Vector3.applyEuler]. *)
Definition applyQuaternion (v : Vector3.t) (q : Quaternion.t) : Vector3.t :=
  let x := Vector3.x v in let y := Vector3.y v in let z := Vector3.z v in
  let qx := Quaternion.x q in let qy := Quaternion.y q in
  let qz := Quaternion.z q in let qw := Quaternion.w q in
  let ix := qw * x + qy * z - qz * y in
  let iy := qw * y + qz * x - qx * z in
  let iz := qw * z + qx * y - qy * x in
  let iw := - qx * x - qy * y - qz * z in
  Vector3.mk (ix * qw + iw * - qx + iy * - qz - iz * - qy)
             (iy * qw + iw * - qy + iz * - qx - ix * - qz)
             (iz * qw + iw * - qz + ix * - qy - iy * - qx).

Definition applyEuler (v : Vector3.t) (ex ey ez : R) : Vector3.t :=
  applyQuaternion v (Quaternion.setFromEuler ex ey ez).

(** ** three.js r128: Object3D.lookAt for an object that is neither a camera
    nor a light, whose parent is the untransformed scene root. *)

Module Object3D.

Definition up : Vector3.t := Vector3.mk 0 1 0.

(** [Matrix4.lookAt( eye, target, up )]: the three columns of the rotation. *)
Definition Matrix4_lookAt (eye target up : Vector3.t)
  : Vector3.t * Vector3.t * Vector3.t :=
  let _z := Vector3.subVectors eye target in
  let _z := if Req_dec_T (Vector3.lengthSq _z) 0 then Vector3.set_z _z 1 else _z in
  let _z := Vector3.normalize _z in
  let _x := Vector3.crossVectors up _z in
  let '(_z, _x) :=
    if Req_dec_T (Vector3.lengthSq _x) 0 then
      let _z := if Req_dec_T (Rabs (Vector3.z up)) 1
                then Vector3.set_x _z (Vector3.x _z + 0.0001)
                else Vector3.set_z _z (Vector3.z _z + 0.0001) in
      let _z := Vector3.normalize _z in
      (_z, Vector3.crossVectors up _z)
    else (_z, _x) in
  let _x := Vector3.normalize _x in
  let _y := Vector3.crossVectors _z _x in
  (_x, _y, _z).

(** [object.lookAt( target )] with the object at [position]. *)
Definition lookAt (position target : Vector3.t) : Quaternion.t :=
  let '(ex, ey, ez) := Matrix4_lookAt target position up in
  Quaternion.setFromRotationMatrix ex ey ez.

End Object3D.

(** ** Engine state *)

(** An entry of [engine.collidables]: [{ object, type, position, radius }]
    or [{ object, type, position, size }].  The scene object is kept as its
    position, the only field [checkCollision] reads from it. *)
Record Collidable : Type := mkCollidable {
  c_type : string;
  c_position : option Vector3.t;
  c_object : option Vector3.t;
  c_radius : R;
  c_size : Vector3.t
}.

(** [engine.keys] *)
Record Keys : Type := mkKeys {
  k_forward : bool;
  k_backward : bool;
  k_left : bool;
  k_right : bool;
  k_jump : bool
}.

(** The player group and the properties [Player.create] hangs on it. *)
Record PlayerObj : Type := mkPlayer {
  p_position : Vector3.t;
  p_quaternion : Quaternion.t;
  p_velocity : Vector3.t;
  p_onGround : bool;
  p_speed : R;
  p_jumpHeight : R;
  p_isAttacking : bool;
  p_radius : R;
  p_swordRotationX : R;         (* player.sword.rotation.x *)
  p_swordHolderRotationY : R    (* player.swordHolder.rotation.y *)
}.

(** An enemy group: [e_parent] tells whether it is attached to the scene. *)
Record EnemyObj : Type := mkEnemy {
  e_position : Vector3.t;
  e_health : R;
  e_parent : bool
}.

Abbreviation ref := nat (only parsing).

(** Callbacks handed to [setTimeout] and [requestAnimationFrame] by the
    modelled code, with the variables their closures capture. *)
Inductive TimerCallback : Type :=
| HitDetection                 (* Player.attack, 200 ms into the swing *)
| RemoveEnemy (enemy : ref).   (* 100 ms after an enemy is defeated *)

Inductive FrameCallback : Type :=
| AnimateSwordSwing (initialRotation startTime : R).

Record Engine : Type := mkEngine {
  en_player : PlayerObj;
  en_playerHealth : R;
  en_heap : gmap ref EnemyObj;
  en_enemies : list ref;
  en_collidables : list Collidable;
  en_targetLocked : bool;
  en_currentTarget : option ref;
  en_reticleDisplay : bool;      (* reticle.style.display is 'block' *)
  en_keys : Keys;
  en_cameraRotationY : R;        (* mouseControls.cameraRotation.y *)
  en_cameraPosition : Vector3.t; (* camera.position *)
  en_timers : list (R * TimerCallback);   (* setTimeout( callback, delay ) *)
  en_frames : list FrameCallback;        (* requestAnimationFrame( callback ) *)
  en_gameOver : bool             (* the 'Game Over' alert was raised *)
}.

(** Field updates. *)

Definition p_with_position (p : PlayerObj) (v : Vector3.t) : PlayerObj :=
  mkPlayer v (p_quaternion p) (p_velocity p) (p_onGround p) (p_speed p)
    (p_jumpHeight p) (p_isAttacking p) (p_radius p) (p_swordRotationX p)
    (p_swordHolderRotationY p).
Definition p_with_quaternion (p : PlayerObj) (q : Quaternion.t) : PlayerObj :=
  mkPlayer (p_position p) q (p_velocity p) (p_onGround p) (p_speed p)
    (p_jumpHeight p) (p_isAttacking p) (p_radius p) (p_swordRotationX p)
    (p_swordHolderRotationY p).
Definition p_with_velocity (p : PlayerObj) (v : Vector3.t) : PlayerObj :=
  mkPlayer (p_position p) (p_quaternion p) v (p_onGround p) (p_speed p)
    (p_jumpHeight p) (p_isAttacking p) (p_radius p) (p_swordRotationX p)
    (p_swordHolderRotationY p).
Definition p_with_onGround (p : PlayerObj) (b : bool) : PlayerObj :=
  mkPlayer (p_position p) (p_quaternion p) (p_velocity p) b (p_speed p)
    (p_jumpHeight p) (p_isAttacking p) (p_radius p) (p_swordRotationX p)
    (p_swordHolderRotationY p).
Definition p_with_isAttacking (p : PlayerObj) (b : bool) : PlayerObj :=
  mkPlayer (p_position p) (p_quaternion p) (p_velocity p) (p_onGround p) (p_speed p)
    (p_jumpHeight p) b (p_radius p) (p_swordRotationX p)
    (p_swordHolderRotationY p).
Definition p_with_sword (p : PlayerObj) (swordX holderY : R) : PlayerObj :=
  mkPlayer (p_position p) (p_quaternion p) (p_velocity p) (p_onGround p) (p_speed p)
    (p_jumpHeight p) (p_isAttacking p) (p_radius p) swordX holderY.

Definition en_with_player (s : Engine) (p : PlayerObj) : Engine :=
  mkEngine p (en_playerHealth s) (en_heap s) (en_enemies s) (en_collidables s)
    (en_targetLocked s) (en_currentTarget s) (en_reticleDisplay s) (en_keys s)
    (en_cameraRotationY s) (en_cameraPosition s) (en_timers s) (en_frames s)
    (en_gameOver s).
Definition en_with_playerHealth (s : Engine) (h : R) : Engine :=
  mkEngine (en_player s) h (en_heap s) (en_enemies s) (en_collidables s)
    (en_targetLocked s) (en_currentTarget s) (en_reticleDisplay s) (en_keys s)
    (en_cameraRotationY s) (en_cameraPosition s) (en_timers s) (en_frames s)
    (en_gameOver s).
Definition en_with_heap (s : Engine) (h : gmap ref EnemyObj) : Engine :=
  mkEngine (en_player s) (en_playerHealth s) h (en_enemies s) (en_collidables s)
    (en_targetLocked s) (en_currentTarget s) (en_reticleDisplay s) (en_keys s)
    (en_cameraRotationY s) (en_cameraPosition s) (en_timers s) (en_frames s)
    (en_gameOver s).
Definition en_with_enemies (s : Engine) (l : list ref) : Engine :=
  mkEngine (en_player s) (en_playerHealth s) (en_heap s) l (en_collidables s)
    (en_targetLocked s) (en_currentTarget s) (en_reticleDisplay s) (en_keys s)
    (en_cameraRotationY s) (en_cameraPosition s) (en_timers s) (en_frames s)
    (en_gameOver s).
(** [targetLocked], [currentTarget] and the reticle are always written together. *)
Definition en_with_lock (s : Engine) (locked : bool) (target : option ref)
    (reticle : bool) : Engine :=
  mkEngine (en_player s) (en_playerHealth s) (en_heap s) (en_enemies s)
    (en_collidables s) locked target reticle (en_keys s)
    (en_cameraRotationY s) (en_cameraPosition s) (en_timers s) (en_frames s)
    (en_gameOver s).
Definition en_with_input (s : Engine) (k : Keys) (yaw : R) : Engine :=
  mkEngine (en_player s) (en_playerHealth s) (en_heap s) (en_enemies s)
    (en_collidables s) (en_targetLocked s) (en_currentTarget s)
    (en_reticleDisplay s) k yaw (en_cameraPosition s) (en_timers s)
    (en_frames s) (en_gameOver s).
Definition en_with_timers (s : Engine) (l : list (R * TimerCallback)) : Engine :=
  mkEngine (en_player s) (en_playerHealth s) (en_heap s) (en_enemies s)
    (en_collidables s) (en_targetLocked s) (en_currentTarget s)
    (en_reticleDisplay s) (en_keys s) (en_cameraRotationY s)
    (en_cameraPosition s) l (en_frames s) (en_gameOver s).
Definition en_with_frames (s : Engine) (l : list FrameCallback) : Engine :=
  mkEngine (en_player s) (en_playerHealth s) (en_heap s) (en_enemies s)
    (en_collidables s) (en_targetLocked s) (en_currentTarget s)
    (en_reticleDisplay s) (en_keys s) (en_cameraRotationY s)
    (en_cameraPosition s) (en_timers s) l (en_gameOver s).
Definition en_with_gameOver (s : Engine) (b : bool) : Engine :=
  mkEngine (en_player s) (en_playerHealth s) (en_heap s) (en_enemies s)
    (en_collidables s) (en_targetLocked s) (en_currentTarget s)
    (en_reticleDisplay s) (en_keys s) (en_cameraRotationY s)
    (en_cameraPosition s) (en_timers s) (en_frames s) b.

Definition setTimeout (s : Engine) (cb : TimerCallback) (delay : R) : Engine :=
  en_with_timers s (en_timers s ++ [(delay, cb)]).
Definition requestAnimationFrame (s : Engine) (cb : FrameCallback) : Engine :=
  en_with_frames s (en_frames s ++ [cb]).

(** The enemy object a reference of [engine.currentTarget] points to. *)
Definition lockedTarget (s : Engine) : option EnemyObj :=
  if en_targetLocked s then
    match en_currentTarget s with
    | Some r => en_heap s !! r
    | None => None
    end
  else None.

(** ** js/core.js *)

Module Core.

Definition lerp (a b t : R) : R := a + (b - a) * t.
Definition easeOutQuad (t : R) : R := t * (2 - t).
Definition easeInOutQuad (t : R) : R :=
  if Rltb t 0.5 then 2 * t * t else 1 - (-2 * t + 2) ^ 2 / 2.

(** [collidable.position || collidable.object.position], when the entry
    is not skipped for having neither. *)
Definition collidablePosition (c : Collidable) : option Vector3.t :=
  match c_position c with
  | Some p => Some p
  | None => c_object c
  end.

(** The planar distance the radial case compares. *)
Definition planarDistance (a b : Vector3.t) : R :=
  let dx := Vector3.x a - Vector3.x b in
  let dz := Vector3.z a - Vector3.z b in
  sqrt (dx * dx + dz * dz).

(** The body of the loop of [checkCollision] for one collidable: [true]
    when it returns true, [false] when it goes on to the next entry. *)
Definition collides (playerRadius : R) (position : Vector3.t) (c : Collidable) : bool :=
  match collidablePosition c with
  | None => false
  | Some cp =>
      if (String.eqb (c_type c) "tree" || String.eqb (c_type c) "sign"
          || String.eqb (c_type c) "rock")%bool then
        let distance := planarDistance position cp in
        let adjustedRadius := c_radius c * 0.8 in
        Rltb distance (playerRadius + adjustedRadius)
      else if String.eqb (c_type c) "house" then
        let minX := Vector3.x cp - Vector3.x (c_size c) / 2 - playerRadius in
        let maxX := Vector3.x cp + Vector3.x (c_size c) / 2 + playerRadius in
        let minZ := Vector3.z cp - Vector3.z (c_size c) / 2 - playerRadius in
        let maxZ := Vector3.z cp + Vector3.z (c_size c) / 2 + playerRadius in
        (Rgtb (Vector3.x position) minX && Rltb (Vector3.x position) maxX
         && Rgtb (Vector3.z position) minZ && Rltb (Vector3.z position) maxZ)%bool
      else false
  end.

Fixpoint checkCollidables (playerRadius : R) (position : Vector3.t)
    (l : list Collidable) : bool :=
  match l with
  | [] => false
  | c :: rest =>
      if collides playerRadius position c then true
      else checkCollidables playerRadius position rest
  end.

Definition checkCollision (s : Engine) (position : Vector3.t) : bool :=
  if Rgtb (Vector3.y position) 3.0 then false
  else checkCollidables (p_radius (en_player s)) position (en_collidables s).

End Core.

(** ** The camera module: target lock *)

Module Camera.

(** The running minimum of the scan, which starts at [Infinity]. *)
Inductive Distance : Type := Infinity | Finite (d : R).

Definition ltDistance (d : R) (c : Distance) : bool :=
  match c with
  | Infinity => true
  | Finite c => Rltb d c
  end.

(** One iteration of [engine.enemies.forEach] in the scan. *)
Definition scanEnemy (s : Engine) (acc : option ref * Distance) (enemy : ref)
  : option ref * Distance :=
  match en_heap s !! enemy with
  | Some e =>
      let distance := Vector3.distanceTo (p_position (en_player s)) (e_position e) in
      if (ltDistance distance (snd acc) && Rltb distance 15)%bool
      then (Some enemy, Finite distance)
      else acc
  | None => acc
  end.

Definition closest (s : Engine) : option ref * Distance :=
  fold_left (scanEnemy s) (en_enemies s) (None, Infinity).

(** The point the player is turned to when facing [enemyPosition]. *)
Definition faceTarget (playerPosition enemyPosition : Vector3.t) : Vector3.t :=
  let targetDirection :=
    Vector3.set_y
      (Vector3.normalize (Vector3.subVectors enemyPosition playerPosition)) 0 in
  Vector3.add playerPosition targetDirection.

Definition toggleTargetLock (s : Engine) : Engine :=
  if Nat.eqb (List.length (en_enemies s)) 0 then s
  else if negb (en_targetLocked s) then
    match fst (closest s) with
    | Some closestEnemy =>
        match en_heap s !! closestEnemy with
        | Some e =>
            let s := en_with_lock s true (Some closestEnemy) true in
            let p := en_player s in
            en_with_player s
              (p_with_quaternion p
                 (Object3D.lookAt (p_position p)
                    (faceTarget (p_position p) (e_position e))))
        | None => s
        end
    | None => s
    end
  else en_with_lock s false None false.

End Camera.

(** ** js/main.js: the player *)

Module Player.

(** *** Player.update *)

(** The movement basis: towards the locked target, or the camera's yaw. *)
Definition basis (s : Engine) : Vector3.t * Vector3.t * Engine :=
  let p := en_player s in
  match lockedTarget s with
  | Some target =>
      let targetDirection :=
        Vector3.set_y
          (Vector3.normalize (Vector3.subVectors (e_position target) (p_position p))) 0 in
      let forward := targetDirection in
      let right := Vector3.normalize (Vector3.crossVectors (Vector3.mk 0 1 0) forward) in
      let lookAtTarget := Vector3.add (p_position p) targetDirection in
      (forward, right,
       en_with_player s
         (p_with_quaternion p (Object3D.lookAt (p_position p) lookAtTarget)))
  | None =>
      (applyEuler (Vector3.mk 0 0 (-1)) 0 (en_cameraRotationY s) 0,
       applyEuler (Vector3.mk 1 0 0) 0 (en_cameraRotationY s) 0,
       s)
  end.

(** [playerDirection] after the four key tests. *)
Definition accumulate (k : Keys) (forward right : Vector3.t) : Vector3.t :=
  let d := Vector3.mk 0 0 0 in
  let d := if k_forward k then Vector3.add d forward else d in
  let d := if k_backward k then Vector3.sub d forward else d in
  let d := if k_right k then Vector3.add d right else d in
  let d := if k_left k then Vector3.sub d right else d in
  d.

Definition slideX (position newPosition : Vector3.t) : Vector3.t :=
  Vector3.set_x position (Vector3.x newPosition).
Definition slideZ (position newPosition : Vector3.t) : Vector3.t :=
  Vector3.set_z position (Vector3.z newPosition).
Definition elevatedPosition (newPosition : Vector3.t) : Vector3.t :=
  Vector3.set_y newPosition (Vector3.y newPosition + 0.1).

(** The collision checks before the movement is applied: the position
    the player has afterwards. *)
Definition resolve (s : Engine) (newPosition : Vector3.t) : Vector3.t :=
  let position := p_position (en_player s) in
  if negb (Core.checkCollision s newPosition) then newPosition
  else if negb (Core.checkCollision s (slideX position newPosition))
    then slideX position newPosition
  else if negb (Core.checkCollision s (slideZ position newPosition))
    then slideZ position newPosition
  else if negb (Core.checkCollision s (elevatedPosition newPosition))
    then elevatedPosition newPosition
  else position.

(** The scaled movement vector of a tick whose accumulated direction is
    [direction]. *)
Definition scaled (s : Engine) (direction : Vector3.t) (deltaTime : R) : Vector3.t :=
  Vector3.multiplyScalar (Vector3.normalize direction)
    (p_speed (en_player s) * deltaTime).

(** "Normalize movement vector and apply velocity" and "Handle player
    orientation", for a non-zero [direction]. *)
Definition move (s : Engine) (direction : Vector3.t) (deltaTime : R) : Engine :=
  let playerDirection := scaled s direction deltaTime in
  let newPosition := Vector3.add (p_position (en_player s)) playerDirection in
  let s := en_with_player s (p_with_position (en_player s) (resolve s newPosition)) in
  if negb (en_targetLocked s) then
    let p := en_player s in
    let moveDir := Vector3.normalize playerDirection in
    let moveTarget := Vector3.add (p_position p) moveDir in
    en_with_player s (p_with_quaternion p (Object3D.lookAt (p_position p) moveTarget))
  else s.

(** Everything of [update] before "Handle jumping". *)
Definition walk (s : Engine) (deltaTime : R) : Engine :=
  let b := basis s in
  let forward := fst (fst b) in
  let right := snd (fst b) in
  let s := snd b in
  let playerDirection := accumulate (en_keys s) forward right in
  if Rgtb (Vector3.length playerDirection) 0
  then move s playerDirection deltaTime
  else s.

Definition jump (s : Engine) : Engine :=
  let p := en_player s in
  if (k_jump (en_keys s) && p_onGround p)%bool then
    en_with_player s
      (p_with_onGround
         (p_with_velocity p (Vector3.set_y (p_velocity p) (p_jumpHeight p)))
         false)
  else s.

Definition gravity (s : Engine) (deltaTime : R) : Engine :=
  let p := en_player s in
  if negb (p_onGround p) then
    let p := p_with_velocity p
               (Vector3.set_y (p_velocity p)
                  (Vector3.y (p_velocity p) - 9.8 * deltaTime)) in
    let p := p_with_position p
               (Vector3.set_y (p_position p)
                  (Vector3.y (p_position p) + Vector3.y (p_velocity p) * deltaTime)) in
    if Rleb (Vector3.y (p_position p)) 1.0 then
      let p := p_with_position p (Vector3.set_y (p_position p) 1.0) in
      let p := p_with_velocity p (Vector3.set_y (p_velocity p) 0) in
      en_with_player s (p_with_onGround p true)
    else en_with_player s p
  else s.

Definition update (s : Engine) (deltaTime : R) : Engine :=
  gravity (jump (walk s deltaTime)) deltaTime.

(** *** Player.resetPosition *)

Definition testPositions : list Vector3.t :=
  [Vector3.mk 0 0.5 0; Vector3.mk 5 0.5 5; Vector3.mk (-5) 0.5 (-5);
   Vector3.mk 10 0.5 0; Vector3.mk 0 0.5 10].

Definition resetPosition (s : Engine) : Engine :=
  let p := en_player s in
  match find (fun pos => negb (Core.checkCollision s pos)) testPositions with
  | Some pos =>
      en_with_player s
        (p_with_onGround
           (p_with_velocity (p_with_position p pos) (Vector3.mk 0 0 0)) true)
  | None =>
      en_with_player s
        (p_with_velocity (p_with_position p (Vector3.mk 0 5 0)) (Vector3.mk 0 0 0))
  end.

(** *** Player.takeDamage *)

(** On a game over the player is laid down by [player.rotation.x = -PI/2];
    the quaternion three.js derives from that assignment depends on Euler
    angles that are not part of the state and is the input [deathPose]. *)

Definition takeDamage (s : Engine) (amount : R) (deathPose : Quaternion.t) : Engine :=
  let s := en_with_playerHealth s (Rmax 0 (en_playerHealth s - amount)) in
  let p := en_player s in
  let from :=
    match en_currentTarget s with
    | Some r =>
        match en_heap s !! r with
        | Some e => e_position e
        | None => en_cameraPosition s
        end
    | None => en_cameraPosition s
    end in
  let knockbackDirection :=
    Vector3.set_y
      (Vector3.multiplyScalar
         (Vector3.normalize (Vector3.subVectors (p_position p) from)) 2) 1 in
  let s := en_with_player s
             (p_with_position p (Vector3.add (p_position p) knockbackDirection)) in
  if Rleb (en_playerHealth s) 0 then
    en_with_gameOver
      (en_with_player s (p_with_quaternion (en_player s) deathPose)) true
  else s.

(** *** Player.attack *)

(** The quantities the hit detection computes for one enemy, and its
    three-way hit condition. *)
Definition distanceToEnemy (s : Engine) (e : EnemyObj) : R :=
  Vector3.distanceTo (p_position (en_player s)) (e_position e).

Definition isTarget (s : Engine) (enemy : ref) : bool :=
  (en_targetLocked s && bool_decide (en_currentTarget s = Some enemy))%bool.

Definition attackRange (s : Engine) (enemy : ref) : R :=
  if isTarget s enemy then 3.0 else 2.0.

Definition inAttackAngle (s : Engine) (e : EnemyObj) : bool :=
  let p := en_player s in
  let toEnemy :=
    Vector3.set_y
      (Vector3.normalize (Vector3.subVectors (e_position e) (p_position p))) 0 in
  let forward := applyQuaternion (Vector3.mk 0 0 1) (p_quaternion p) in
  let angleToEnemy := Vector3.angleTo forward toEnemy in
  Rltb angleToEnemy (PI / 4).

Definition swordDistance (s : Engine) (e : EnemyObj) : R :=
  let p := en_player s in
  let swordTip :=
    Vector3.add (applyQuaternion (Vector3.mk 0 0 1.5) (p_quaternion p)) (p_position p) in
  Vector3.distanceTo (e_position e) swordTip.

Definition isHit (s : Engine) (enemy : ref) (e : EnemyObj) : bool :=
  ((isTarget s enemy && Rltb (distanceToEnemy s e) (attackRange s enemy))
   || (Rltb (distanceToEnemy s e) (attackRange s enemy) && inAttackAngle s e)
   || Rltb (swordDistance s e) 1.5)%bool.

(** The knockback added to the position of a hit enemy. *)
Definition knockback (s : Engine) (e : EnemyObj) : Vector3.t :=
  Vector3.multiplyScalar
    (Vector3.set_y
       (Vector3.normalize
          (Vector3.subVectors (e_position e) (p_position (en_player s)))) 0) 1.

(** The enemy object after a hit, before the defeat test. *)
Definition damaged (s : Engine) (e : EnemyObj) : EnemyObj :=
  let health := e_health e - 1 in
  let knockbackDirection := knockback s e in
  let position :=
    Vector3.mk (Vector3.x (e_position e) + Vector3.x knockbackDirection)
               (Vector3.y (e_position e))
               (Vector3.z (e_position e) + Vector3.z knockbackDirection) in
  let position := Vector3.set_y position (Rmax (Vector3.y position) 0.8) in
  mkEnemy position (Rmax 0 health) (e_parent e).

(** One iteration of [engine.enemies.forEach] in the hit detection. *)
Definition hitEnemy (s : Engine) (enemy : ref) : Engine :=
  match en_heap s !! enemy with
  | Some e =>
      if isHit s enemy e then
        let e := damaged s e in
        let s := en_with_heap s (<[enemy := e]> (en_heap s)) in
        if Rleb (e_health e) 0 then setTimeout s (RemoveEnemy enemy) 100 else s
      else s
  | None => s
  end.

(** The callback [attack] schedules 200 ms into the swing. *)
Definition hitDetection (s : Engine) : Engine :=
  fold_left hitEnemy (en_enemies s) s.

(** [engine.enemies.indexOf( enemy )] followed by [splice( index, 1 )]. *)
Fixpoint spliceFirst (enemy : ref) (l : list ref) : list ref :=
  match l with
  | [] => []
  | r :: rest => if Nat.eqb r enemy then rest else r :: spliceFirst enemy rest
  end.

(** The callback scheduled 100 ms after an enemy is defeated. *)
Definition removeEnemy (s : Engine) (enemy : ref) : Engine :=
  let s :=
    match en_heap s !! enemy with
    | Some e =>
        if e_parent e
        then en_with_heap s (<[enemy := mkEnemy (e_position e) (e_health e) false]> (en_heap s))
        else s
    | None => s
    end in
  let s := en_with_enemies s (spliceFirst enemy (en_enemies s)) in
  if bool_decide (en_currentTarget s = Some enemy)
  then en_with_lock s false None false
  else s.

(** The animation-frame callback of the swing; [attackAnimation.duration]
    is 400. *)
Definition animateSwordSwing (s : Engine) (initialRotation startTime timestamp : R)
  : Engine :=
  let p := en_player s in
  if negb (p_isAttacking p) then s
  else
    let elapsed := timestamp - startTime in
    let progress := Rmin (elapsed / 400) 1 in
    let p :=
      if Rltb progress 0.5 then
        let swingProgress := progress * 2 in
        p_with_sword p
          (Core.lerp initialRotation (initialRotation + PI / 4)
             (Core.easeOutQuad swingProgress))
          (Core.lerp 0 (- PI / 2) (Core.easeOutQuad swingProgress))
      else
        let returnProgress := (progress - 0.5) * 2 in
        p_with_sword p
          (Core.lerp (initialRotation + PI / 4) initialRotation
             (Core.easeInOutQuad returnProgress))
          (Core.lerp (- PI / 2) 0 (Core.easeInOutQuad returnProgress)) in
    if Rltb progress 1 then
      requestAnimationFrame (en_with_player s p)
        (AnimateSwordSwing initialRotation startTime)
    else
      en_with_player s (p_with_isAttacking (p_with_sword p initialRotation 0) false).

(** [Player.attack], called when [performance.now()] is [now]. *)
Definition attack (s : Engine) (now : R) : Engine :=
  if p_isAttacking (en_player s) then s
  else
    let s := en_with_player s (p_with_isAttacking (en_player s) true) in
    let s :=
      match lockedTarget s with
      | Some target =>
          let p := en_player s in
          en_with_player s
            (p_with_quaternion p
               (Object3D.lookAt (p_position p)
                  (Camera.faceTarget (p_position p) (e_position target))))
      | None => s
      end in
    let initialRotation := p_swordRotationX (en_player s) in
    let s := setTimeout s HitDetection 200 in
    requestAnimationFrame s (AnimateSwordSwing initialRotation now).

End Player.

(** ** The event loop *)

Definition runTimer (s : Engine) (cb : TimerCallback) : Engine :=
  match cb with
  | HitDetection => Player.hitDetection s
  | RemoveEnemy enemy => Player.removeEnemy s enemy
  end.

Definition runFrameCallback (timestamp : R) (s : Engine) (cb : FrameCallback) : Engine :=
  match cb with
  | AnimateSwordSwing initialRotation startTime =>
      Player.animateSwordSwing s initialRotation startTime timestamp
  end.

(** The [i]-th pending timer expires. *)
Definition fireTimer (s : Engine) (i : nat) : Engine :=
  match en_timers s !! i with
  | Some (_, cb) => runTimer (en_with_timers s (delete i (en_timers s))) cb
  | None => s
  end.

(** The next animation frame, at time [timestamp]: the callbacks requested
    so far run in order, those they request wait for the following frame. *)
Definition runFrame (s : Engine) (timestamp : R) : Engine :=
  fold_left (runFrameCallback timestamp) (en_frames s) (en_with_frames s []).

(** ** Vocabulary of the properties *)

(** The shape tests, as the specification words them. *)
Definition isRadial (c : Collidable) : Prop :=
  c_type c = "tree"%string \/ c_type c = "sign"%string \/ c_type c = "rock"%string.
Definition isBox (c : Collidable) : Prop := c_type c = "house"%string.

Definition insideEnvelope (r : R) (position cp : Vector3.t) (c : Collidable) : Prop :=
  Core.planarDistance position cp < r + c_radius c * 0.8.

Definition insideExpandedBox (r : R) (position cp : Vector3.t) (c : Collidable) : Prop :=
  Vector3.x cp - Vector3.x (c_size c) / 2 - r < Vector3.x position
    < Vector3.x cp + Vector3.x (c_size c) / 2 + r
  /\ Vector3.z cp - Vector3.z (c_size c) / 2 - r < Vector3.z position
    < Vector3.z cp + Vector3.z (c_size c) / 2 + r.

(** The distance [toggleTargetLock] and the hit detection measure. *)
Definition distanceFromPlayer (s : Engine) (e : EnemyObj) : R :=
  Vector3.distanceTo (p_position (en_player s)) (e_position e).

(** What the scan of [toggleTargetLock] has established after the enemies
    of [l]: nothing within range, or the nearest of them. *)
Definition scanned (s : Engine) (l : list ref) (acc : option ref * Camera.Distance) : Prop :=
  match acc with
  | (None, Camera.Infinity) =>
      forall r e, r ∈ l -> en_heap s !! r = Some e -> 15 <= distanceFromPlayer s e
  | (Some r, Camera.Finite d) =>
      r ∈ l /\ d < 15
      /\ (exists e, en_heap s !! r = Some e /\ d = distanceFromPlayer s e)
      /\ (forall r' e', r' ∈ l -> en_heap s !! r' = Some e' -> d <= distanceFromPlayer s e')
  | _ => False
  end.

(** The state [toggleTargetLock] leaves when it locks on [enemy], the
    object [e]. *)
Definition lockedOn (s : Engine) (enemy : ref) (e : EnemyObj) : Engine :=
  en_with_player (en_with_lock s true (Some enemy) true)
    (p_with_quaternion (en_player s)
       (Object3D.lookAt (p_position (en_player s))
          (Camera.faceTarget (p_position (en_player s)) (e_position e)))).

(** [target] lies at the height of [position], in the horizontal direction
    of [towards]. *)
Definition horizontallyTowards (position towards target : Vector3.t) : Prop :=
  Vector3.y target = Vector3.y position
  /\ exists c, 0 < c
       /\ Vector3.x target - Vector3.x position = c * (Vector3.x towards - Vector3.x position)
       /\ Vector3.z target - Vector3.z position = c * (Vector3.z towards - Vector3.z position).

(** The enemy object the hit detection leaves for [enemy], the object [e]. *)
Definition hitResult (s : Engine) (enemy : ref) (e : EnemyObj) : EnemyObj :=
  if Player.isHit s enemy e then Player.damaged s e else e.

(** The lock state is consistent: the flag is set exactly when a target is
    held, and the target is a live enemy. *)
Definition lockConsistent (s : Engine) : Prop :=
  (en_targetLocked s = true <-> en_currentTarget s <> None)
  /\ (forall r, en_currentTarget s = Some r -> r ∈ en_enemies s).

(** The events that change the engine state. *)
Inductive step : Engine -> Engine -> Prop :=
| step_update (s : Engine) (deltaTime : R) : step s (Player.update s deltaTime)
| step_toggle (s : Engine) : step s (Camera.toggleTargetLock s)
| step_attack (s : Engine) (now : R) : step s (Player.attack s now)
| step_damage (s : Engine) (amount : R) (deathPose : Quaternion.t) :
    step s (Player.takeDamage s amount deathPose)
| step_reset (s : Engine) : step s (Player.resetPosition s)
| step_timer (s : Engine) (i : nat) : step s (fireTimer s i)
| step_frame (s : Engine) (timestamp : R) : step s (runFrame s timestamp)
| step_input (s : Engine) (k : Keys) (yaw : R) : step s (en_with_input s k yaw)
| step_enemies (s : Engine) (heap : gmap ref EnemyObj) : step s (en_with_heap s heap).

(** The part of the state the lock lives in. *)
Definition lockState (s : Engine) : bool * option ref * list ref :=
  (en_targetLocked s, en_currentTarget s, en_enemies s).

(** The direction the player faces: [new Vector3( 0, 0, 1 )] turned by the
    player's quaternion. *)
Definition forwardOf (s : Engine) : Vector3.t :=
  applyQuaternion (Vector3.mk 0 0 1) (p_quaternion (en_player s)).

(** The enemy stands straight ahead of a player whose facing is horizontal. *)
Definition directlyAhead (s : Engine) (e : EnemyObj) : Prop :=
  Vector3.y (forwardOf s) = 0
  /\ exists c, 0 < c
       /\ Vector3.x (e_position e) - Vector3.x (p_position (en_player s))
          = c * Vector3.x (forwardOf s)
       /\ Vector3.z (e_position e) - Vector3.z (p_position (en_player s))
          = c * Vector3.z (forwardOf s).

(** The accumulated direction of a tick, before it is normalised. *)
Definition movementDirection (s : Engine) : Vector3.t :=
  Player.accumulate (en_keys s) (fst (fst (Player.basis s))) (snd (fst (Player.basis s))).

(** The four positions the movement tries, in the order it tries them. *)
Definition candidates (position newPosition : Vector3.t) : list Vector3.t :=
  [newPosition; Player.slideX position newPosition;
   Player.slideZ position newPosition; Player.elevatedPosition newPosition].

(** Ticks in a row, each with the keys and the camera yaw the input events
    left for it. *)
Fixpoint runTicks (inputs : list (Keys * R * R)) (s : Engine) : Engine :=
  match inputs with
  | [] => s
  | (k, yaw, deltaTime) :: rest =>
      runTicks rest (Player.update (en_with_input s k yaw) deltaTime)
  end.

(** No key of the inputs is the jump key. *)
Definition noJump (inputs : list (Keys * R * R)) : Prop :=
  Forall (fun i => k_jump (fst (fst i)) = false) inputs.

(** ** Scenes of the examples *)

Definition noKeys : Keys := mkKeys false false false false false.

(** The player as [Player.create] leaves it (speed 5, jump height 5,
    radius 0.3, on the ground, at rest), placed at [position]. *)
Definition newPlayer (position : Vector3.t) : PlayerObj :=
  mkPlayer position Quaternion.identity (Vector3.mk 0 0 0) true 5 5 false 0.3 0 0.

(** An engine with nothing locked and nothing scheduled, the camera yaw
    turned to 0. *)
Definition scene (p : PlayerObj) (k : Keys) (heap : gmap ref EnemyObj)
    (enemies : list ref) (collidables : list Collidable) : Engine :=
  mkEngine p 3 heap enemies collidables false None false k 0
    (Vector3.mk 0 1.6 5) [] [] false.

(** A tree and a house as [Environment] registers them. *)
Definition tree (x z : R) : Collidable :=
  mkCollidable "tree" (Some (Vector3.mk x 0 z)) (Some (Vector3.mk x 0 z)) 0.8
    (Vector3.mk 0 0 0).
Definition house (x z : R) : Collidable :=
  mkCollidable "house" (Some (Vector3.mk x 0 z)) (Some (Vector3.mk x 0 z)) 0
    (Vector3.mk 6 3 5).

(** One tree at the origin. *)
Definition grove : Engine :=
  scene (newPlayer (Vector3.mk 5 1 5)) noKeys ∅ [] [tree 0 0].

(** Two enemies ahead of a player standing at the origin of the ground
    plane: enemy 0 three units away, enemy 1 twenty. *)
Definition duel : Engine :=
  scene (newPlayer (Vector3.mk 0 1 0)) noKeys
    (<[1%nat := mkEnemy (Vector3.mk 0 0.8 20) 2 true]>
       (<[0%nat := mkEnemy (Vector3.mk 0 0.8 3) 2 true]> ∅))
    [0%nat; 1%nat] [].

(** The same, locked on enemy 0. *)
Definition lockedDuel : Engine := en_with_lock duel true (Some 0%nat) true.

(** A lock flag that is set while the array of enemies is empty. *)
Definition strandedLock : Engine :=
  en_with_lock
    (scene (newPlayer (Vector3.mk 0 1 0)) noKeys
       (<[0%nat := mkEnemy (Vector3.mk 0 0.8 3) 2 false]> ∅) [] [])
    true (Some 0%nat) true.

(** The scenario of the combat examples: the player at the origin, facing
    +Z, and enemy 0 one unit ahead with full health. *)
Definition sparring : Engine :=
  scene (newPlayer (Vector3.mk 0 0 0)) noKeys
    (<[0%nat := mkEnemy (Vector3.mk 0 0 1) 2 true]> ∅) [0%nat] [].

(** The same with the lock on enemy 0, which has one point of health left. *)
Definition finishing : Engine :=
  en_with_lock
    (scene (newPlayer (Vector3.mk 0 0 0)) noKeys
       (<[0%nat := mkEnemy (Vector3.mk 0 0 1) 1 true]> ∅) [0%nat] [])
    true (Some 0%nat) true.

(** The player hovering at height 3 (two blows taken on the ground lift it
    there), enemy 0 one unit ahead on the ground. *)
Definition hovering : Engine :=
  scene (newPlayer (Vector3.mk 0 3 0)) noKeys
    (<[0%nat := mkEnemy (Vector3.mk 0 0.8 1) 2 true]> ∅) [0%nat] [].

(** A house north of the player, who walks diagonally into its wall. *)
Definition alley : Engine :=
  scene (newPlayer (Vector3.mk 0 1 (-2.1))) (mkKeys true false false true false)
    ∅ [] [house 0 (-5)].

(** The player on the ground flag at height 3 inside the envelope of a tree,
    walking forward. *)
Definition stuck : Engine :=
  scene (newPlayer (Vector3.mk 0 3 0)) (mkKeys true false false false false)
    ∅ [] [tree 0 0].



(** ** Vocabulary of the further properties *)



(** The keys [k] with the jump key set to [b]. *)
Definition withJump (k : Keys) (b : bool) : Keys :=
  mkKeys (k_forward k) (k_backward k) (k_left k) (k_right k) b.

(** None of the four movement keys is held. *)
Definition standing (k : Keys) : Prop :=
  k_forward k = false /\ k_backward k = false /\ k_left k = false /\ k_right k = false.

(** The point the knock-back of [takeDamage] pushes the player away from:
    [engine.currentTarget ? engine.currentTarget.position :
     engine.camera.position]. *)
Definition knockbackSource (s : Engine) : Vector3.t :=
  match en_currentTarget s with
  | Some r =>
      match en_heap s !! r with
      | Some e => e_position e
      | None => en_cameraPosition s
      end
  | None => en_cameraPosition s
  end.

(** ** js/core.js: the day and night cycle *)

Module DayNight.

(** [THREE.Color]: the three channels, each between 0 and 1. *)
Record Color : Type := mkColor { r : R; g : R; b : R }.

(** [new THREE.Color( hex )] for a hexadecimal triplet given by its bytes. *)
Definition ofBytes (red green blue : R) : Color :=
  mkColor (red / 255) (green / 255) (blue / 255).

(** [0x001133] and [0x87CEEB]. *)
Definition nightColor : Color := ofBytes 0 17 51.
Definition dayColor : Color := ofBytes 135 206 235.

Definition lerpColors (color1 color2 : Color) (alpha : R) : Color :=
  mkColor (r color1 + (r color2 - r color1) * alpha)
          (g color1 + (g color2 - g color1) * alpha)
          (b color1 + (b color2 - b color1) * alpha).

(** The fields of the engine the cycle reads and writes. *)
Record Sky : Type := mkSky {
  dayTime : R;
  dayLength : R;
  sunPosition : Vector3.t;
  sunIntensity : R;
  moonPosition : Vector3.t;
  background : Color
}.

(** [setupDayNightCycle], with the light [setupLighting] created and the
    background of [setupThree]; the moon is a new mesh at the origin. *)
Definition setup : Sky :=
  mkSky 0 120 (Vector3.mk 10 30 10) 0.8 (Vector3.mk 0 0 0) dayColor.

Definition advance (k : Sky) (deltaTime : R) : R :=
  let dayTime := dayTime k + deltaTime / dayLength k in
  if Rleb 1 dayTime then dayTime - 1 else dayTime.

Definition updateDayNightCycle (k : Sky) (deltaTime : R) : Sky :=
  let dayTime := advance k deltaTime in
  let sunAngle := dayTime * PI * 2 in
  let sunDistance := 100 in
  let sun := Vector3.mk (cos sunAngle * sunDistance) (sin sunAngle * sunDistance) 0 in
  let moon := Vector3.multiplyScalar sun (-1) in
  let dayIntensity := sin (dayTime * PI * 2) in
  let intensity := Rmax 0 dayIntensity * 0.8 + 0.2 in
  let currentColor :=
    if Rgtb dayIntensity 0 then lerpColors nightColor dayColor dayIntensity
    else nightColor in
  mkSky dayTime (dayLength k) sun intensity moon currentColor.

(** Frames in a row. *)
Definition run (frames : list R) (k : Sky) : Sky :=
  fold_left updateDayNightCycle frames k.

End DayNight.

(** ** js/core.js: the handlers of [setupControls] *)

Module Controls.

(** [engine.mouseControls]; the yaw [cameraRotation.y] is the field
    [en_cameraRotationY] of the engine, where [Player.update] reads it. *)
Record MouseControls : Type := mkMouse {
  isActive : bool;
  sensitivity : R;
  lastX : R;
  lastY : R;
  cameraRotationX : R;
  orbitDistance : R;
  minPolarAngle : R;
  maxPolarAngle : R
}.

Record t : Type := mk { engine : Engine; mouseControls : MouseControls }.

(** The keys the handlers have a case for, [e.key.toLowerCase()] read as
    one of them; [KeyOther] is a key without a case.  The key [e], which
    runs the actions of the interactables, is not among the events of this
    model. *)
Inductive Key : Type :=
  KeyW | KeyS | KeyA | KeyD | KeySpace | KeyF | KeyR | KeyZero | KeyOther.

(** The events, with what the handlers read of them; [now] is the reading
    of [performance.now()] an attack takes. *)
Inductive Event : Type :=
| keydown (key : Key)
| keyup (key : Key)
| mousedown (button : nat) (clientX clientY now : R)
| mouseup (button : nat)
| mousemove (clientX clientY : R)
| wheel (deltaY : R).

(** The state [setupControls] and the constructor leave: the camera behind
    the player. *)
Definition setup (s : Engine) : t :=
  mk (en_with_input s noKeys PI) (mkMouse false 0.002 0 0 0 5 0.1 (PI / 1.8)).

Definition setKey (k : Keys) (key : Key) (b : bool) : Keys :=
  match key with
  | KeyW => mkKeys b (k_backward k) (k_left k) (k_right k) (k_jump k)
  | KeyS => mkKeys (k_forward k) b (k_left k) (k_right k) (k_jump k)
  | KeyA => mkKeys (k_forward k) (k_backward k) b (k_right k) (k_jump k)
  | KeyD => mkKeys (k_forward k) (k_backward k) (k_left k) b (k_jump k)
  | KeySpace => mkKeys (k_forward k) (k_backward k) (k_left k) (k_right k) b
  | _ => k
  end.

Definition with_engine (c : t) (s : Engine) : t := mk s (mouseControls c).
Definition with_keys (c : t) (k : Keys) : t :=
  with_engine c (en_with_input (engine c) k (en_cameraRotationY (engine c))).

Definition onKeyDown (c : t) (key : Key) : t :=
  match key with
  | KeyF => with_engine c (Camera.toggleTargetLock (engine c))
  | KeyR => with_engine c (Player.resetPosition (engine c))
  | KeyZero | KeyOther => c
  | _ => with_keys c (setKey (en_keys (engine c)) key true)
  end.

Definition onKeyUp (c : t) (key : Key) : t :=
  match key with
  | KeyW | KeyS | KeyA | KeyD | KeySpace =>
      with_keys c (setKey (en_keys (engine c)) key false)
  | _ => c
  end.

Definition onMouseDown (c : t) (button : nat) (clientX clientY now : R) : t :=
  let m := mouseControls c in
  match button with
  | 0%nat =>
      if negb (isActive m) then with_engine c (Player.attack (engine c) now) else c
  | 2%nat =>
      mk (engine c)
        (mkMouse true (sensitivity m) clientX clientY (cameraRotationX m)
           (orbitDistance m) (minPolarAngle m) (maxPolarAngle m))
  | _ => c
  end.

Definition onMouseUp (c : t) (button : nat) : t :=
  let m := mouseControls c in
  match button with
  | 2%nat =>
      mk (engine c)
        (mkMouse false (sensitivity m) (lastX m) (lastY m) (cameraRotationX m)
           (orbitDistance m) (minPolarAngle m) (maxPolarAngle m))
  | _ => c
  end.

Definition onMouseMove (c : t) (clientX clientY : R) : t :=
  let m := mouseControls c in
  let s := engine c in
  if (isActive m && negb (en_targetLocked s))%bool then
    let deltaX := clientX - lastX m in
    let deltaY := clientY - lastY m in
    let rotationY := en_cameraRotationY s - deltaX * sensitivity m in
    let rotationX := cameraRotationX m - deltaY * sensitivity m in
    let rotationX := Rmax (minPolarAngle m) (Rmin (maxPolarAngle m) rotationX) in
    mk (en_with_input s (en_keys s) rotationY)
      (mkMouse (isActive m) (sensitivity m) clientX clientY rotationX
         (orbitDistance m) (minPolarAngle m) (maxPolarAngle m))
  else c.

Definition onWheel (c : t) (deltaY : R) : t :=
  let m := mouseControls c in
  if negb (en_targetLocked (engine c)) then
    let distance := orbitDistance m + deltaY * 0.01 in
    let distance := Rmax 2 (Rmin 10 distance) in
    mk (engine c)
      (mkMouse (isActive m) (sensitivity m) (lastX m) (lastY m) (cameraRotationX m)
         distance (minPolarAngle m) (maxPolarAngle m))
  else c.

Definition handle (c : t) (ev : Event) : t :=
  match ev with
  | keydown key => onKeyDown c key
  | keyup key => onKeyUp c key
  | mousedown button clientX clientY now => onMouseDown c button clientX clientY now
  | mouseup button => onMouseUp c button
  | mousemove clientX clientY => onMouseMove c clientX clientY
  | wheel deltaY => onWheel c deltaY
  end.

(** Events in the order they arrive. *)
Definition run (events : list Event) (c : t) : t := fold_left handle events c.

End Controls.

(** The zoom and the pitch of the orbiting camera are within their limits. *)
Definition withinLimits (c : Controls.t) : Prop :=
  let m := Controls.mouseControls c in
  2 <= Controls.orbitDistance m <= 10
  /\ Controls.minPolarAngle m <= Controls.cameraRotationX m <= Controls.maxPolarAngle m.

(** What no input event touches: the health, the enemies, the obstacles
    and the game-over flag. *)
Definition world (s : Engine)
  : R * gmap ref EnemyObj * list ref * list Collidable * bool :=
  (en_playerHealth s, en_heap s, en_enemies s, en_collidables s, en_gameOver s).

(** ** js/enemy.js *)

Module Enemy.

(** The properties [Enemy.create] gives an enemy besides its position and
    health, kept by reference like the enemy itself. *)
Record AI : Type := mkAI {
  speed : R;
  attackRange : R;
  maxDetectionRange : R;
  aggro : bool;
  lastAttackTime : R;
  attackCooldown : R
}.

Definition create : AI := mkAI 2 1.5 10 false 0 2.

Definition with_aggro (a : AI) (b : bool) : AI :=
  mkAI (speed a) (attackRange a) (maxDetectionRange a) b (lastAttackTime a)
    (attackCooldown a).
Definition with_lastAttackTime (a : AI) (t : R) : AI :=
  mkAI (speed a) (attackRange a) (maxDetectionRange a) (aggro a) t (attackCooldown a).

Record World : Type := mkWorld { engine : Engine; minds : gmap ref AI }.

Definition distanceToPlayer (s : Engine) (e : EnemyObj) : R :=
  Vector3.distanceTo (e_position e) (p_position (en_player s)).

(** "Move towards player if not in attack range": the enemy afterwards. *)
Definition chase (s : Engine) (a : AI) (e : EnemyObj) (deltaTime : R) : EnemyObj :=
  let direction :=
    Vector3.set_y
      (Vector3.normalize
         (Vector3.subVectors (p_position (en_player s)) (e_position e))) 0 in
  let movement := Vector3.multiplyScalar direction (speed a * deltaTime) in
  let position :=
    Vector3.mk (Vector3.x (e_position e) + Vector3.x movement)
               (Vector3.y (e_position e))
               (Vector3.z (e_position e) + Vector3.z movement) in
  let position := Vector3.set_y position (Rmax (Vector3.y position) 0.8) in
  mkEnemy position (e_health e) (e_parent e).

(** One iteration of [engine.enemies.forEach] in [Enemy.update], for the
    position, the aggro flag, the blow and its cooldown; the rotation of
    the enemy and the animation of its legs and eyes, which nothing reads,
    are left out.  [currentTime] is [engine.clock.getElapsedTime()] as this
    iteration would read it. *)
Definition updateEnemy (deathPose : Quaternion.t) (deltaTime currentTime : R)
    (w : World) (enemy : ref) : World :=
  let s := engine w in
  match en_heap s !! enemy, minds w !! enemy with
  | Some e, Some a =>
      if Rltb (distanceToPlayer s e) (maxDetectionRange a) then
        let a := with_aggro a true in
        if Rgtb (distanceToPlayer s e) (attackRange a) then
          mkWorld (en_with_heap s (<[enemy := chase s a e deltaTime]> (en_heap s)))
                  (<[enemy := a]> (minds w))
        else if Rgtb (currentTime - lastAttackTime a) (attackCooldown a) then
          mkWorld (Player.takeDamage s 1 deathPose)
                  (<[enemy := with_lastAttackTime a currentTime]> (minds w))
        else mkWorld s (<[enemy := a]> (minds w))
      else mkWorld s (<[enemy := with_aggro a false]> (minds w))
  | _, _ => w
  end.

(** The loop from the [i]-th enemy on; [clock i] is the reading of the clock
    in the [i]-th iteration. *)
Fixpoint updateFrom (deathPose : Quaternion.t) (deltaTime : R) (clock : nat -> R)
    (i : nat) (l : list ref) (w : World) : World :=
  match l with
  | [] => w
  | enemy :: rest =>
      updateFrom deathPose deltaTime clock (S i) rest
        (updateEnemy deathPose deltaTime (clock i) w enemy)
  end.

Definition update (deathPose : Quaternion.t) (deltaTime : R) (clock : nat -> R)
    (w : World) : World :=
  updateFrom deathPose deltaTime clock 0 (en_enemies (engine w)) w.

End Enemy.

(** The enemy [enemy], the object [e] with the properties [a], has seen
    the player and is not yet within reach of it. *)
Definition chasing (w : Enemy.World) (enemy : ref) (e : EnemyObj) (a : Enemy.AI) : Prop :=
  en_heap (Enemy.engine w) !! enemy = Some e
  /\ Enemy.minds w !! enemy = Some a
  /\ Enemy.attackRange a < Enemy.distanceToPlayer (Enemy.engine w) e
     < Enemy.maxDetectionRange a.

(** The enemy is within reach of the player. *)
Definition inReach (w : Enemy.World) (enemy : ref) (e : EnemyObj) (a : Enemy.AI) : Prop :=
  en_heap (Enemy.engine w) !! enemy = Some e
  /\ Enemy.minds w !! enemy = Some a
  /\ Enemy.distanceToPlayer (Enemy.engine w) e < Enemy.maxDetectionRange a
  /\ Enemy.distanceToPlayer (Enemy.engine w) e <= Enemy.attackRange a.

(** The arena of the combat examples: the scene [sparring] with its enemy
    as [Enemy.create] made it. *)
Definition arena : Enemy.World :=
  Enemy.mkWorld sparring (<[0%nat := Enemy.create]> ∅).

(** The scene [duel] with both enemies as [Enemy.create] made them. *)
Definition duelArena : Enemy.World :=
  Enemy.mkWorld duel (<[1%nat := Enemy.create]> (<[0%nat := Enemy.create]> ∅)).

(** ** js/environment.js: the hearts and the interactables *)

(** [THREE.Box3], with the intersection test of three.js. *)
Module Box3.

Record t : Type := mk { min : Vector3.t; max : Vector3.t }.

Definition intersectsBox (this box : t) : bool :=
  if (Rltb (Vector3.x (max box)) (Vector3.x (min this))
      || Rgtb (Vector3.x (min box)) (Vector3.x (max this))
      || Rltb (Vector3.y (max box)) (Vector3.y (min this))
      || Rgtb (Vector3.y (min box)) (Vector3.y (max this))
      || Rltb (Vector3.z (max box)) (Vector3.z (min this))
      || Rgtb (Vector3.z (min box)) (Vector3.z (max this)))%bool
  then false else true.

End Box3.

Module Hud.

(** The three kinds of entries [Environment] pushes on
    [engine.interactables]; their [action] follows from the kind. *)
Inductive Kind : Type := Door | Collectible | Sign.

(** [object] is the mesh, held by reference. *)
Record Interactable : Type := mkInteractable {
  i_object : ref;
  i_box : Box3.t;
  i_type : Kind
}.

(** The engine with what the interaction reads and writes besides:
    [maxHealth] (3 from the constructor on), the flag [keys.interact], the
    array of interactables, the [.heart] elements of the page in document
    order ([true] for one without the class [empty]), and the messages
    shown by [alert]. *)
Record Game : Type := mkGame {
  engine : Engine;
  maxHealth : nat;
  interact : bool;
  interactables : list Interactable;
  hearts : list bool;
  alerts : list string
}.

Definition with_engine (g : Game) (s : Engine) : Game :=
  mkGame s (maxHealth g) (interact g) (interactables g) (hearts g) (alerts g).
Definition with_interact (g : Game) (b : bool) : Game :=
  mkGame (engine g) (maxHealth g) b (interactables g) (hearts g) (alerts g).
Definition with_interactables (g : Game) (l : list Interactable) : Game :=
  mkGame (engine g) (maxHealth g) (interact g) l (hearts g) (alerts g).
Definition with_hearts (g : Game) (l : list bool) : Game :=
  mkGame (engine g) (maxHealth g) (interact g) (interactables g) l (alerts g).
Definition alert (g : Game) (message : string) : Game :=
  mkGame (engine g) (maxHealth g) (interact g) (interactables g) (hearts g)
    (alerts g ++ [message]).

(** [UI.createHealth]: one heart for each index below [maxHealth]. *)
Definition createHealth (g : Game) : Game :=
  with_hearts g
    (map (fun i => Rltb (INR i) (en_playerHealth (engine g))) (seq 0 (maxHealth g))).

(** [UI.updateHealth] *)
Definition updateHealth (g : Game) : Game :=
  with_hearts g
    (imap (fun index _ => Rltb (INR index) (en_playerHealth (engine g))) (hearts g)).

(** [Player.takeDamage] with the hearts it redraws. *)
Definition takeDamage (g : Game) (amount : R) (deathPose : Quaternion.t) : Game :=
  let s := engine g in
  with_engine
    (updateHealth (with_engine g (en_with_playerHealth s (Rmax 0 (en_playerHealth s - amount)))))
    (Player.takeDamage s amount deathPose).

(** [engine.interactables.findIndex( i => i.object === heart )] *)
Fixpoint findIndex (heart : ref) (l : list Interactable) : option nat :=
  match l with
  | [] => None
  | i :: rest =>
      if Nat.eqb (i_object i) heart then Some 0%nat
      else S <$> findIndex heart rest
  end.

(** The [action] of an interactable. *)
Definition action (g : Game) (i : Interactable) : Game :=
  match i_type i with
  | Door => alert g "You entered the house!"
  | Sign => alert g "Welcome to Hyrule Field! Watch out for enemies!"
  | Collectible =>
      let s := engine g in
      if Rltb (en_playerHealth s) (INR (maxHealth g)) then
        let g := with_engine g (en_with_playerHealth s (en_playerHealth s + 1)) in
        let g := updateHealth g in
        match findIndex (i_object i) (interactables g) with
        | Some index => with_interactables g (delete index (interactables g))
        | None => g
        end
      else g
  end.

(** [engine.interactables.forEach] with a callback that may shorten the
    array: the [n] indices from [k] on are visited in order, each with the
    entry the array holds there when its turn comes, if it still holds
    one. *)
Fixpoint visit (playerBox : Box3.t) (n k : nat) (g : Game) : Game :=
  match n with
  | O => g
  | S n =>
      let g :=
        match interactables g !! k with
        | Some i => if Box3.intersectsBox playerBox (i_box i) then action g i else g
        | None => g
        end in
      visit playerBox n (S k) g
  end.

(** [UI.checkInteraction]; [playerBox] is the bounding box
    [new THREE.Box3().setFromObject( engine.player )]. *)
Definition checkInteraction (g : Game) (playerBox : Box3.t) : Game :=
  if negb (interact g) then g
  else visit playerBox (List.length (interactables g)) 0 g.

(** The key [e] goes down, and up again. *)
Definition onKeyDownE (g : Game) (playerBox : Box3.t) : Game :=
  checkInteraction (with_interact g true) playerBox.
Definition onKeyUpE (g : Game) : Game := with_interact g false.

End Hud.

(** The health is a whole number of hearts, [n] of them, and not more than
    [maxHealth]. *)
Definition wholeHearts (g : Hud.Game) (n : nat) : Prop :=
  en_playerHealth (Hud.engine g) = INR n /\ (n <= Hud.maxHealth g)%nat.

(** The page shows [n] full hearts, followed by the empty ones. *)
Definition showsHearts (g : Hud.Game) (n : nat) : Prop :=
  Hud.hearts g = replicate n true ++ replicate (Hud.maxHealth g - n) false.

(** The hearts on the page agree with the health. *)
Definition heartsInSync (g : Hud.Game) : Prop :=
  exists n, wholeHearts g n /\ showsHearts g n.

(** The player's bounding box does not reach the entry. *)
Definition outOfReach (playerBox : Box3.t) (i : Hud.Interactable) : Prop :=
  Box3.intersectsBox playerBox (Hud.i_box i) = false.

(** A game with full health next to a heart and the sign behind it. *)
Definition unitBox : Box3.t := Box3.mk (Vector3.mk 0 0 0) (Vector3.mk 1 1 1).
Definition farBox : Box3.t := Box3.mk (Vector3.mk 50 0 50) (Vector3.mk 51 1 51).
Definition meadow : Hud.Game :=
  Hud.createHealth
    (Hud.mkGame (en_with_playerHealth sparring 2) 3 false
       [Hud.mkInteractable 7 farBox Hud.Door;
        Hud.mkInteractable 8 unitBox Hud.Collectible;
        Hud.mkInteractable 9 unitBox Hud.Sign] [] []).
(** * Properties *)

(** ** Comparisons and square roots *)

Lemma Rltb_true (a b : R) : Rltb a b = true <-> a < b.
Proof. unfold Rltb. destruct (Rlt_dec a b); split; intros; try done. Qed.

Lemma Rltb_false (a b : R) : Rltb a b = false <-> b <= a.
Proof.
  unfold Rltb. destruct (Rlt_dec a b); split; intros; try done; lra.
Qed.

Lemma Rgtb_true (a b : R) : Rgtb a b = true <-> a > b.
Proof. unfold Rgtb. rewrite Rltb_true. lra. Qed.

Lemma Rgtb_false (a b : R) : Rgtb a b = false <-> a <= b.
Proof. unfold Rgtb. rewrite Rltb_false. lra. Qed.

Lemma Rleb_true (a b : R) : Rleb a b = true <-> a <= b.
Proof. unfold Rleb. destruct (Rle_dec a b); split; intros; try done. Qed.

Lemma Rleb_false (a b : R) : Rleb a b = false <-> b < a.
Proof.
  unfold Rleb. destruct (Rle_dec a b); split; intros; try done; lra.
Qed.

Lemma sqrt_lt_bound (a b : R) : 0 <= a -> 0 < b -> a < b * b -> sqrt a < b.
Proof.
  intros Ha Hb Hab.
  rewrite <- (sqrt_square b) by lra.
  apply sqrt_lt_1; nra.
Qed.

Lemma sqrt_le_bound (a b : R) : 0 <= b -> b * b <= a -> b <= sqrt a.
Proof.
  intros Hb Hab.
  rewrite <- (sqrt_square b) at 1 by lra.
  apply sqrt_le_1; nra.
Qed.

Lemma sqrt_eq_bound (a b : R) : 0 <= b -> a = b * b -> sqrt a = b.
Proof. intros Hb ->. apply sqrt_square, Hb. Qed.

(** ** Vectors *)

Lemma vector3_eq (a b : Vector3.t) :
  Vector3.x a = Vector3.x b -> Vector3.y a = Vector3.y b -> Vector3.z a = Vector3.z b ->
  a = b.
Proof. destruct a, b. simpl. by intros -> -> ->. Qed.

Lemma enemy_eq (a b : EnemyObj) :
  e_position a = e_position b -> e_health a = e_health b -> e_parent a = e_parent b ->
  a = b.
Proof. destruct a, b. simpl. by intros -> -> ->. Qed.

Lemma add_y (a b : Vector3.t) :
  Vector3.y (Vector3.add a b) = Vector3.y a + Vector3.y b.
Proof. reflexivity. Qed.

Lemma applyQuaternion_identity (v : Vector3.t) :
  applyQuaternion v Quaternion.identity = v.
Proof. apply vector3_eq; unfold applyQuaternion; simpl; ring. Qed.

Lemma length_nonneg (v : Vector3.t) : 0 <= Vector3.length v.
Proof. apply sqrt_pos. Qed.

Lemma lengthSq_nonneg (v : Vector3.t) : 0 <= Vector3.lengthSq v.
Proof.
  unfold Vector3.lengthSq.
  pose proof (Rle_0_sqr (Vector3.x v)). pose proof (Rle_0_sqr (Vector3.y v)).
  pose proof (Rle_0_sqr (Vector3.z v)). unfold Rsqr in *. lra.
Qed.

(** The scale [normalize] multiplies by is positive. *)
Lemma normalize_scale (v : Vector3.t) :
  exists c, 0 < c /\ Vector3.normalize v = Vector3.multiplyScalar v c.
Proof.
  unfold Vector3.normalize, Vector3.divideScalar.
  destruct (Req_dec_T (Vector3.length v) 0) as [Hz|Hnz].
  - exists (1 / 1). split; [lra | done].
  - exists (1 / Vector3.length v). split; [|done].
    pose proof (length_nonneg v). apply Rdiv_lt_0_compat; lra.
Qed.

Lemma normalize_of_length (v : Vector3.t) (len : R) :
  Vector3.length v = len -> len <> 0 ->
  Vector3.normalize v = Vector3.multiplyScalar v (1 / len).
Proof.
  intros Hl Hn. unfold Vector3.normalize, Vector3.divideScalar. rewrite Hl.
  by destruct (Req_dec_T len 0).
Qed.

Lemma distanceToSquared_nonneg (a b : Vector3.t) : 0 <= Vector3.distanceToSquared a b.
Proof.
  unfold Vector3.distanceToSquared. simpl.
  pose proof (Rle_0_sqr (Vector3.x a - Vector3.x b)).
  pose proof (Rle_0_sqr (Vector3.y a - Vector3.y b)).
  pose proof (Rle_0_sqr (Vector3.z a - Vector3.z b)).
  unfold Rsqr in *. lra.
Qed.

Lemma distanceTo_lt (a b : Vector3.t) (d : R) :
  0 < d -> Vector3.distanceToSquared a b < d * d -> Vector3.distanceTo a b < d.
Proof.
  intros Hd H. apply sqrt_lt_bound; [apply distanceToSquared_nonneg | done | done].
Qed.

Lemma distanceTo_ge (a b : Vector3.t) (d : R) :
  0 <= d -> d * d <= Vector3.distanceToSquared a b -> d <= Vector3.distanceTo a b.
Proof. intros Hd H. by apply sqrt_le_bound. Qed.

Lemma planarDistance_nonzero (a b : Vector3.t) :
  Core.planarDistance a b <> 0 ->
  Vector3.x a - Vector3.x b <> 0 \/ Vector3.z a - Vector3.z b <> 0.
Proof.
  intros H.
  destruct (Req_dec_T (Vector3.x a - Vector3.x b) 0) as [Hx|Hx]; [|by left].
  destruct (Req_dec_T (Vector3.z a - Vector3.z b) 0) as [Hz|Hz]; [|by right].
  exfalso. apply H. unfold Core.planarDistance. rewrite Hx, Hz.
  replace (0 * 0 + 0 * 0) with 0 by ring. apply sqrt_0.
Qed.


(** *** Object3D.lookAt turns the local +Z axis to the target *)

Lemma cross_up (v : Vector3.t) :
  Vector3.crossVectors Object3D.up v = Vector3.mk (Vector3.z v) 0 (- Vector3.x v).
Proof. apply vector3_eq; simpl; ring. Qed.

Lemma length_sqr (v : Vector3.t) : Vector3.length v * Vector3.length v = Vector3.lengthSq v.
Proof. unfold Vector3.length. apply sqrt_sqrt. apply lengthSq_nonneg. Qed.

Lemma length_zero (v : Vector3.t) : Vector3.length v = 0 <-> Vector3.lengthSq v = 0.
Proof.
  rewrite <- length_sqr. split; [intros ->; ring|].
  intros H. by destruct (Rmult_integral _ _ H).
Qed.

(** The unit vector of a horizontal, non-zero vector. *)
Lemma normalize_horizontal (d : Vector3.t) :
  Vector3.y d = 0 -> Vector3.x d <> 0 \/ Vector3.z d <> 0 ->
  exists u w,
    u * u + w * w = 1 /\ Vector3.normalize d = Vector3.mk u 0 w
    /\ Vector3.lengthSq d <> 0
    /\ exists c, 0 < c /\ Vector3.x d = c * u /\ Vector3.z d = c * w.
Proof.
  intros Hy Hnz.
  assert (0 < Vector3.lengthSq d) as Hpos.
  { unfold Vector3.lengthSq. rewrite Hy.
    pose proof (Rle_0_sqr (Vector3.x d)). pose proof (Rle_0_sqr (Vector3.z d)).
    unfold Rsqr in *.
    destruct Hnz as [H1 | H1];
      [pose proof (Rsqr_pos_lt _ H1) | pose proof (Rsqr_pos_lt _ H1)];
      unfold Rsqr in *; lra. }
  set (n := Vector3.length d).
  assert (n * n = Vector3.lengthSq d) as Hn by apply length_sqr.
  assert (0 < n) as Hnpos.
  { pose proof (length_nonneg d). fold n in H.
    destruct (Req_dec_T n 0) as [Hz|Hz]; [|lra]. rewrite Hz in Hn. lra. }
  exists (Vector3.x d * (1 / n)), (Vector3.z d * (1 / n)).
  split; [|split; [|split]].
  - unfold Vector3.lengthSq in Hn. rewrite Hy in Hn.
    replace (Vector3.x d * (1 / n) * (Vector3.x d * (1 / n))
             + Vector3.z d * (1 / n) * (Vector3.z d * (1 / n)))
      with ((Vector3.x d * Vector3.x d + 0 * 0 + Vector3.z d * Vector3.z d) / (n * n))
      by (field; lra).
    rewrite <- Hn. field. lra.
  - rewrite (normalize_of_length d n) by (done || lra).
    apply vector3_eq; simpl; [done | rewrite Hy; ring | done].
  - lra.
  - exists n. split; [done|]. split; field; lra.
Qed.

(** The rotation [Matrix4.lookAt] builds for a horizontal direction: the
    columns are (w, 0, -u), (0, 1, 0) and (u, 0, w). *)
Lemma Matrix4_lookAt_horizontal (eye target : Vector3.t) (u w : R) :
  Vector3.lengthSq (Vector3.subVectors eye target) <> 0 ->
  Vector3.normalize (Vector3.subVectors eye target) = Vector3.mk u 0 w ->
  u * u + w * w = 1 ->
  Object3D.Matrix4_lookAt eye target Object3D.up
  = (Vector3.mk w 0 (- u), Vector3.mk 0 1 0, Vector3.mk u 0 w).
Proof.
  intros Hnz Hn Hunit. unfold Object3D.Matrix4_lookAt.
  destruct (Req_dec_T (Vector3.lengthSq (Vector3.subVectors eye target)) 0); [done|].
  rewrite Hn, cross_up. simpl.
  assert (Vector3.lengthSq (Vector3.mk w 0 (- u)) = 1) as Hx.
  { unfold Vector3.lengthSq. simpl. rewrite <- Hunit. ring. }
  destruct (Req_dec_T (Vector3.lengthSq (Vector3.mk w 0 (- u))) 0) as [H0|_]; [lra|].
  assert (Vector3.normalize (Vector3.mk w 0 (- u)) = Vector3.mk w 0 (- u)) as ->.
  { rewrite (normalize_of_length _ 1); [| |lra].
    - apply vector3_eq; simpl; field.
    - unfold Vector3.length. fold (Vector3.lengthSq (Vector3.mk w 0 (- u))).
      rewrite Hx. apply sqrt_1. }
  do 2 f_equal. apply vector3_eq; simpl; [ring | rewrite <- Hunit; ring | ring].
Qed.

(** The quaternion [setFromRotationMatrix] extracts from that rotation
    turns (0, 0, 1) into (u, 0, w). *)
Lemma setFromRotationMatrix_forward (u w : R) :
  u * u + w * w = 1 ->
  applyQuaternion (Vector3.mk 0 0 1)
    (Quaternion.setFromRotationMatrix
       (Vector3.mk w 0 (- u)) (Vector3.mk 0 1 0) (Vector3.mk u 0 w))
  = Vector3.mk u 0 w.
Proof.
  intros Hunit.
  assert (-1 <= w <= 1) as Hw by nra.
  unfold Quaternion.setFromRotationMatrix. simpl.
  replace 0.5 with (1 / 2) by lra. replace 0.25 with (1 / 4) by lra.
  replace 2.0 with 2 by lra. replace 1.0 with 1 by lra.
  destruct (Rgtb (w + 1 + w) 0) eqn:Ht.
  - apply Rgtb_true in Ht.
    set (S := sqrt (w + 1 + w + 1)).
    assert (S * S = w + 1 + w + 1) as HS by (apply sqrt_sqrt; lra).
    assert (0 < S) as HSpos by (apply sqrt_lt_R0; lra).
    apply vector3_eq; unfold applyQuaternion; simpl.
    + field. lra.
    + field. lra.
    + match goal with |- ?lhs = _ =>
        replace lhs with (S * S / 4 - u * u / (S * S)) by (field; lra) end.
      rewrite HS. replace (u * u) with (1 - w * w) by lra. field. lra.
  - apply Rgtb_false in Ht.
    assert (Rgtb w 1 = false) as -> by (apply Rgtb_false; lra).
    assert (Rgtb 1 w = true) as -> by (apply Rgtb_true; lra).
    simpl.
    set (S := sqrt (1 + 1 - w - w)).
    assert (S * S = 1 + 1 - w - w) as HS by (apply sqrt_sqrt; lra).
    assert (0 < S) as HSpos by (apply sqrt_lt_R0; lra).
    apply vector3_eq; unfold applyQuaternion; simpl.
    + field. lra.
    + field. lra.
    + match goal with |- ?lhs = _ =>
        replace lhs with (4 * (u * u) / (4 * (S * S)) - S * S / 4) by (field; lra) end.
      rewrite HS. replace (u * u) with (1 - w * w) by lra. field. lra.
Qed.

Lemma sub_add_cancel (p d : Vector3.t) : Vector3.subVectors (Vector3.add p d) p = d.
Proof. apply vector3_eq; simpl; ring. Qed.

(** [lookAt] towards a point at the object's own height turns its local +Z
    axis into the unit vector towards that point. *)
Lemma lookAt_forward (position d : Vector3.t) :
  Vector3.y d = 0 -> Vector3.x d <> 0 \/ Vector3.z d <> 0 ->
  applyQuaternion (Vector3.mk 0 0 1)
    (Object3D.lookAt position (Vector3.add position d))
  = Vector3.normalize d.
Proof.
  intros Hy Hnz.
  destruct (normalize_horizontal d Hy Hnz) as (u & w & Hunit & Hn & Hl & _).
  unfold Object3D.lookAt.
  rewrite (Matrix4_lookAt_horizontal _ _ u w); rewrite ?sub_add_cancel; try done.
  rewrite Hn. by apply setFromRotationMatrix_forward.
Qed.

(** ** Core.checkCollision (C1) *)

Lemma checkCollidables_exists (r : R) (position : Vector3.t) (l : list Collidable) :
  Core.checkCollidables r position l = true <->
  exists c, c ∈ l /\ Core.collides r position c = true.
Proof.
  induction l as [|c l IH]; simpl.
  - split; [done|]. intros (c & Hc & _). by apply elem_of_nil in Hc.
  - destruct (Core.collides r position c) eqn:E.
    + split; [|done]. intros _. exists c. split; [left|done].
    + rewrite IH. split.
      * intros (c' & Hin & Hc'). exists c'. split; [by right|done].
      * intros (c' & Hin & Hc'). apply elem_of_cons in Hin as [->|Hin].
        -- congruence.
        -- by exists c'.
Qed.

Lemma collides_radial (r : R) (position cp : Vector3.t) (c : Collidable) :
  Core.collidablePosition c = Some cp -> isRadial c ->
  Core.collides r position c = true <-> insideEnvelope r position cp c.
Proof.
  intros Hcp Hty. unfold Core.collides, insideEnvelope. rewrite Hcp.
  assert ((String.eqb (c_type c) "tree" || String.eqb (c_type c) "sign"
           || String.eqb (c_type c) "rock")%bool = true) as ->.
  { destruct Hty as [-> | [-> | ->]]; reflexivity. }
  apply Rltb_true.
Qed.

Lemma collides_box (r : R) (position cp : Vector3.t) (c : Collidable) :
  Core.collidablePosition c = Some cp -> isBox c ->
  Core.collides r position c = true <-> insideExpandedBox r position cp c.
Proof.
  intros Hcp Hty. unfold Core.collides, insideExpandedBox. rewrite Hcp, Hty. simpl.
  rewrite !andb_true_iff, !Rgtb_true, !Rltb_true. lra.
Qed.

Lemma collides_shape (r : R) (position : Vector3.t) (c : Collidable) :
  Core.collides r position c = true ->
  exists cp, Core.collidablePosition c = Some cp /\ (isRadial c \/ isBox c).
Proof.
  unfold Core.collides, isRadial, isBox.
  destruct (Core.collidablePosition c) as [cp|]; [|done].
  intros H. exists cp. split; [done|].
  destruct (String.eqb_spec (c_type c) "tree"); [tauto|].
  destruct (String.eqb_spec (c_type c) "sign"); [tauto|].
  destruct (String.eqb_spec (c_type c) "rock"); [tauto|].
  destruct (String.eqb_spec (c_type c) "house"); [tauto|].
  simpl in H. done.
Qed.

Lemma checkCollision_above (s : Engine) (position : Vector3.t) :
  Vector3.y position > 3.0 -> Core.checkCollision s position = false.
Proof.
  intros Hy. unfold Core.checkCollision. apply Rgtb_true in Hy. by rewrite Hy.
Qed.

Lemma checkCollision_below (s : Engine) (position : Vector3.t) :
  Vector3.y position <= 3.0 ->
  Core.checkCollision s position = true <->
  exists c cp,
    c ∈ en_collidables s /\ Core.collidablePosition c = Some cp
    /\ ((isRadial c /\ insideEnvelope (p_radius (en_player s)) position cp c)
        \/ (isBox c /\ insideExpandedBox (p_radius (en_player s)) position cp c)).
Proof.
  intros Hy. unfold Core.checkCollision. apply Rgtb_false in Hy. rewrite Hy.
  rewrite checkCollidables_exists. split.
  - intros (c & Hin & Hc).
    destruct (collides_shape _ _ _ Hc) as (cp & Hcp & [Hr | Hb]).
    + exists c, cp. repeat split; try done. left. split; [done|].
      by apply (collides_radial _ _ _ _ Hcp Hr).
    + exists c, cp. repeat split; try done. right. split; [done|].
      by apply (collides_box _ _ _ _ Hcp Hb).
  - intros (c & cp & Hin & Hcp & [[Hr He] | [Hb He]]); exists c; split; try done.
    + by apply (collides_radial _ _ _ _ Hcp Hr).
    + by apply (collides_box _ _ _ _ Hcp Hb).
Qed.

(** C1. [checkCollision] answers false for every position above y = 3.0;
    for any other position it answers true exactly when some collidable is
    hit, measured from its own position if it has one and from its object's
    position otherwise: a radial one (tree, sign, rock) when the planar X/Z
    distance to that position is less than the player's radius plus 0.8
    times its radius, a box (house) when X and Z both lie strictly inside
    its extents widened by the player's radius on each axis. *)
Theorem checkCollision_containment (s : Engine) (position : Vector3.t) :
  (Vector3.y position > 3.0 -> Core.checkCollision s position = false)
  /\ (Vector3.y position <= 3.0 ->
      (Core.checkCollision s position = true <->
       exists c cp,
         c ∈ en_collidables s
         /\ (c_position c = Some cp \/ (c_position c = None /\ c_object c = Some cp))
         /\ ((isRadial c
              /\ sqrt ((Vector3.x position - Vector3.x cp)
                       * (Vector3.x position - Vector3.x cp)
                       + (Vector3.z position - Vector3.z cp)
                         * (Vector3.z position - Vector3.z cp))
                 < p_radius (en_player s) + c_radius c * 0.8)
             \/ (isBox c
                 /\ Vector3.x cp - Vector3.x (c_size c) / 2 - p_radius (en_player s)
                    < Vector3.x position
                    < Vector3.x cp + Vector3.x (c_size c) / 2 + p_radius (en_player s)
                 /\ Vector3.z cp - Vector3.z (c_size c) / 2 - p_radius (en_player s)
                    < Vector3.z position
                    < Vector3.z cp + Vector3.z (c_size c) / 2 + p_radius (en_player s))))).
Proof.
  split; [apply checkCollision_above|]. intros Hy.
  rewrite (checkCollision_below s position Hy).
  assert (forall c cp,
            Core.collidablePosition c = Some cp
            <-> c_position c = Some cp \/ (c_position c = None /\ c_object c = Some cp))
    as Hpos.
  { intros c cp. unfold Core.collidablePosition.
    destruct (c_position c) as [p|]; split.
    - by left.
    - intros [H | [H _]]; done.
    - by right.
    - intros [H | [_ H]]; done. }
  split.
  - intros (c & cp & Hin & Hcp & Hcase). exists c, cp.
    split; [done|]. split; [by apply Hpos|]. exact Hcase.
  - intros (c & cp & Hin & Hcp & Hcase). exists c, cp.
    split; [done|]. split; [by apply Hpos|]. exact Hcase.
Qed.

(** A tree at the origin blocks a position inside its envelope and leaves
    one outside, and one above 3.0, clear. *)
Lemma checkCollision_containment_witness :
  Core.checkCollision grove (Vector3.mk 0.5 1 0.5) = true
  /\ Core.checkCollision grove (Vector3.mk 1 1 0) = false
  /\ Core.checkCollision grove (Vector3.mk 0 3.5 0) = false.
Proof.
  split; [|split].
  - destruct (checkCollision_containment grove (Vector3.mk 0.5 1 0.5)) as [_ H].
    apply H; [simpl; lra|].
    exists (tree 0 0), (Vector3.mk 0 0 0).
    split; [by left|]. split; [by left|]. left. split; [by left|].
    simpl. apply sqrt_lt_bound; lra.
  - destruct (checkCollision_containment grove (Vector3.mk 1 1 0)) as [_ H].
    apply not_true_is_false. intros Hblocked.
    apply H in Hblocked; [|simpl; lra].
    destruct Hblocked as (c & cp & Hin & Hcp & Hcase).
    apply list_elem_of_singleton in Hin as ->.
    destruct Hcp as [Hcp | [Hcp _]]; [|discriminate Hcp].
    injection Hcp as <-.
    destruct Hcase as [[_ Hd] | [Hb _]]; [|discriminate Hb].
    simpl in Hd.
    assert (1 <= sqrt ((1 - 0) * (1 - 0) + (0 - 0) * (0 - 0)))
      by (apply sqrt_le_bound; lra).
    lra.
  - destruct (checkCollision_containment grove (Vector3.mk 0 3.5 0)) as [H _].
    apply H. simpl. lra.
Defined.

(** A world of one radial collidable: inside the envelope is blocked,
    outside is clear. *)
Corollary checkCollision_single_radial (s : Engine) (position cp : Vector3.t)
    (c : Collidable) :
  en_collidables s = [c] -> Core.collidablePosition c = Some cp -> isRadial c ->
  Vector3.y position <= 3.0 ->
  Core.checkCollision s position = true <->
  Core.planarDistance position cp < p_radius (en_player s) + c_radius c * 0.8.
Proof.
  intros Hl Hcp Hr Hy.
  rewrite (checkCollision_below s position Hy), Hl.
  split.
  - intros (c' & cp' & Hin & Hcp' & Hcase). apply list_elem_of_singleton in Hin as ->.
    rewrite Hcp in Hcp'. injection Hcp' as <-.
    destruct Hcase as [[_ He] | [Hb _]]; [done|].
    unfold isBox in Hb. unfold isRadial in Hr. rewrite Hb in Hr.
    destruct Hr as [? | [? | ?]]; discriminate.
  - intros He. exists c, cp. repeat split; [apply list_elem_of_singleton; done|done|].
    by left.
Qed.

Example grove_inside : Core.checkCollision grove (Vector3.mk 0.5 1 0.5) = true.
Proof.
  apply (checkCollision_single_radial grove _ (Vector3.mk 0 0 0) (tree 0 0));
    try done; simpl; [by left | lra |].
  unfold Core.planarDistance; simpl. apply sqrt_lt_bound; lra.
Qed.

Example grove_outside : Core.checkCollision grove (Vector3.mk 1 1 0) = false.
Proof.
  apply not_true_is_false.
  rewrite (checkCollision_single_radial grove _ (Vector3.mk 0 0 0) (tree 0 0));
    try done; simpl; [| by left | lra].
  unfold Core.planarDistance; simpl.
  assert (1 <= sqrt ((1 - 0) * (1 - 0) + (0 - 0) * (0 - 0))) by (apply sqrt_le_bound; lra).
  lra.
Qed.

Example grove_above : Core.checkCollision grove (Vector3.mk 0 3.5 0) = false.
Proof. apply checkCollision_above. simpl. lra. Qed.

(** ** Player.takeDamage (C10) *)

Lemma takeDamage_playerHealth (s : Engine) (amount : R) (deathPose : Quaternion.t) :
  en_playerHealth (Player.takeDamage s amount deathPose) = Rmax 0 (en_playerHealth s - amount).
Proof.
  unfold Player.takeDamage. simpl.
  destruct (Rleb (Rmax 0 (en_playerHealth s - amount)) 0); reflexivity.
Qed.

(** C10. After [takeDamage] the player's health is the larger of 0 and the
    previous health minus the amount, hence never negative, whatever the
    amount. *)
Theorem takeDamage_health (s : Engine) (amount : R) (deathPose : Quaternion.t) :
  en_playerHealth (Player.takeDamage s amount deathPose) = Rmax 0 (en_playerHealth s - amount)
  /\ 0 <= en_playerHealth (Player.takeDamage s amount deathPose).
Proof.
  split.
  - apply takeDamage_playerHealth.
  - rewrite takeDamage_playerHealth. apply Rmax_l.
Qed.

(** A blow lifts the player by 1 and leaves the ground flag as it is. *)
Lemma takeDamage_lifts (s : Engine) (amount : R) (deathPose : Quaternion.t) :
  p_onGround (en_player (Player.takeDamage s amount deathPose)) = p_onGround (en_player s)
  /\ Vector3.y (p_position (en_player (Player.takeDamage s amount deathPose)))
     = Vector3.y (p_position (en_player s)) + 1.
Proof.
  unfold Player.takeDamage. simpl. destruct (Rleb _ _); done.
Qed.

(** Two blows lift a player from the ground level to height 3, still
    flagged as on the ground. *)
Example two_blows_hover (q : Quaternion.t) :
  p_onGround (en_player (Player.takeDamage (Player.takeDamage grove 1 q) 1 q)) = true
  /\ Vector3.y (p_position (en_player (Player.takeDamage (Player.takeDamage grove 1 q) 1 q)))
     = 3.
Proof.
  destruct (takeDamage_lifts (Player.takeDamage grove 1 q) 1 q) as [-> ->].
  destruct (takeDamage_lifts grove 1 q) as [-> ->]. simpl. split; [done | lra].
Qed.

Example takeDamage_overkill :
  en_playerHealth (Player.takeDamage grove 5 Quaternion.identity) = 0.
Proof.
  rewrite takeDamage_playerHealth. simpl.
  apply Rmax_left. lra.
Qed.

Example takeDamage_one :
  en_playerHealth (Player.takeDamage grove 1 Quaternion.identity) = 2.
Proof.
  rewrite takeDamage_playerHealth. simpl.
  rewrite Rmax_right; lra.
Qed.

(** ** Camera.toggleTargetLock (C4, C7) *)

Lemma scanEnemy_scanned (s : Engine) (l : list ref) (acc : option ref * Camera.Distance)
    (r : ref) :
  scanned s l acc -> scanned s (l ++ [r]) (Camera.scanEnemy s acc r).
Proof.
  intros Hacc. unfold Camera.scanEnemy.
  destruct (en_heap s !! r) as [e|] eqn:Hr.
  - fold (distanceFromPlayer s e).
    destruct acc as [[r0|] [|d0]]; simpl in *; try done.
    + destruct Hacc as (Hin & Hd & He & Hmin).
      destruct (Rltb (distanceFromPlayer s e) d0) eqn:Hlt; simpl.
      * apply Rltb_true in Hlt.
        assert (Rltb (distanceFromPlayer s e) 15 = true) as -> by (apply Rltb_true; lra).
        repeat split.
        -- apply elem_of_app. right. by apply list_elem_of_singleton.
        -- lra.
        -- by exists e.
        -- intros r' e' Hin' Hr'. apply elem_of_app in Hin' as [Hin'|Hin'].
           ++ specialize (Hmin r' e' Hin' Hr'). lra.
           ++ apply list_elem_of_singleton in Hin' as ->.
              rewrite Hr in Hr'. injection Hr' as <-. lra.
      * apply Rltb_false in Hlt. repeat split; try done.
        -- apply elem_of_app. by left.
        -- intros r' e' Hin' Hr'. apply elem_of_app in Hin' as [Hin'|Hin'].
           ++ by apply (Hmin r' e').
           ++ apply list_elem_of_singleton in Hin' as ->.
              rewrite Hr in Hr'. by injection Hr' as <-.
    + destruct (Rltb (distanceFromPlayer s e) 15) eqn:Hlt; simpl.
      * apply Rltb_true in Hlt. repeat split.
        -- apply elem_of_app. right. by apply list_elem_of_singleton.
        -- done.
        -- by exists e.
        -- intros r' e' Hin' Hr'. apply elem_of_app in Hin' as [Hin'|Hin'].
           ++ specialize (Hacc r' e' Hin' Hr'). lra.
           ++ apply list_elem_of_singleton in Hin' as ->.
              rewrite Hr in Hr'. injection Hr' as <-. lra.
      * apply Rltb_false in Hlt.
        intros r' e' Hin' Hr'. apply elem_of_app in Hin' as [Hin'|Hin'].
        -- by apply (Hacc r' e').
        -- apply list_elem_of_singleton in Hin' as ->.
           rewrite Hr in Hr'. by injection Hr' as <-.
  - destruct acc as [[r0|] [|d0]]; simpl in *; try done.
    + destruct Hacc as (Hin & Hd & He & Hmin). repeat split; try done.
      * apply elem_of_app. by left.
      * intros r' e' Hin' Hr'. apply elem_of_app in Hin' as [Hin'|Hin'].
        -- by apply (Hmin r' e').
        -- apply list_elem_of_singleton in Hin' as ->. congruence.
    + intros r' e' Hin' Hr'. apply elem_of_app in Hin' as [Hin'|Hin'].
      * by apply (Hacc r' e').
      * apply list_elem_of_singleton in Hin' as ->. congruence.
Qed.

Lemma scan_scanned (s : Engine) (l done : list ref) (acc : option ref * Camera.Distance) :
  scanned s done acc -> scanned s (done ++ l) (fold_left (Camera.scanEnemy s) l acc).
Proof.
  revert done acc. induction l as [|r l IH]; intros done acc Hacc; simpl.
  - by rewrite app_nil_r.
  - replace (done ++ r :: l) with ((done ++ [r]) ++ l) by (by rewrite <- app_assoc).
    apply IH. by apply scanEnemy_scanned.
Qed.

Lemma closest_scanned (s : Engine) : scanned s (en_enemies s) (Camera.closest s).
Proof.
  unfold Camera.closest. apply (scan_scanned s (en_enemies s) []).
  simpl. intros r e Hin. by apply elem_of_nil in Hin.
Qed.

Lemma faceTarget_horizontal (position towards : Vector3.t) :
  horizontallyTowards position towards (Camera.faceTarget position towards).
Proof.
  unfold horizontallyTowards, Camera.faceTarget.
  destruct (normalize_scale (Vector3.subVectors towards position)) as (c & Hc & ->).
  simpl. split; [lra|]. exists c. repeat split; [done | lra | lra].
Qed.

(** Facing a target: the player's forward vector becomes horizontal and
    points at the target, unless the target is straight above or below. *)
Lemma faceTarget_directlyAhead (s : Engine) (e : EnemyObj) (q : Quaternion.t) :
  q = Object3D.lookAt (p_position (en_player s))
        (Camera.faceTarget (p_position (en_player s)) (e_position e)) ->
  Core.planarDistance (e_position e) (p_position (en_player s)) <> 0 ->
  directlyAhead (en_with_player s (p_with_quaternion (en_player s) q)) e.
Proof.
  intros -> Hplanar. unfold Camera.faceTarget.
  destruct (normalize_scale
              (Vector3.subVectors (e_position e) (p_position (en_player s))))
    as (k & Hk & ->).
  set (d := Vector3.set_y _ 0).
  assert (Vector3.x d <> 0 \/ Vector3.z d <> 0) as Hnz.
  { destruct (planarDistance_nonzero _ _ Hplanar) as [H | H]; [left | right];
      simpl; apply Rmult_integral_contrapositive_currified; lra. }
  unfold directlyAhead.
  assert (forwardOf
            (en_with_player s
               (p_with_quaternion (en_player s)
                  (Object3D.lookAt (p_position (en_player s))
                     (Vector3.add (p_position (en_player s)) d))))
          = Vector3.normalize d) as ->.
  { unfold forwardOf. by apply lookAt_forward. }
  destruct (normalize_horizontal d eq_refl Hnz) as (u & w & _ & -> & _ & c & Hc & Hx & Hz).
  simpl in Hx, Hz. simpl. split; [done|].
  exists (c / k). split; [by apply Rdiv_lt_0_compat|].
  split.
  - apply Rmult_eq_reg_r with k; [|lra]. rewrite Hx. field. lra.
  - apply Rmult_eq_reg_r with k; [|lra]. rewrite Hz. field. lra.
Qed.

(** Nothing within range: the toggle changes nothing. *)
Lemma toggleTargetLock_far (s : Engine) :
  en_targetLocked s = false ->
  (forall r e, r ∈ en_enemies s -> en_heap s !! r = Some e ->
               15 <= distanceFromPlayer s e) ->
  Camera.toggleTargetLock s = s.
Proof.
  intros Hunlocked Hfar. pose proof (closest_scanned s) as Hscan.
  unfold Camera.toggleTargetLock. rewrite Hunlocked. simpl.
  destruct (Camera.closest s) as [[r|] [|d]] eqn:Hclosest; simpl in *; try done.
  - destruct Hscan as (Hin & Hd & (e & Hr & ->) & Hmin).
    specialize (Hfar r e Hin Hr). lra.
  - by destruct (Nat.eqb _ _).
Qed.

(** Something within range: the toggle locks on a nearest enemy. *)
Lemma toggleTargetLock_near (s : Engine) :
  en_targetLocked s = false ->
  (exists r e, r ∈ en_enemies s /\ en_heap s !! r = Some e
               /\ distanceFromPlayer s e < 15) ->
  exists r e,
    r ∈ en_enemies s /\ en_heap s !! r = Some e
    /\ distanceFromPlayer s e < 15
    /\ (forall r' e', r' ∈ en_enemies s -> en_heap s !! r' = Some e' ->
                      distanceFromPlayer s e <= distanceFromPlayer s e')
    /\ Camera.toggleTargetLock s = lockedOn s r e.
Proof.
  intros Hunlocked Hnear. pose proof (closest_scanned s) as Hscan.
  unfold Camera.toggleTargetLock. rewrite Hunlocked. simpl.
  destruct (Camera.closest s) as [[r|] [|d]] eqn:Hclosest; simpl in *; try done.
  - destruct Hscan as (Hin & Hd & (e & Hr & ->) & Hmin).
    destruct (en_enemies s) as [|r0 l] eqn:Hl.
    { by apply elem_of_nil in Hin. }
    simpl. rewrite Hr. by exists r, e.
  - destruct Hnear as (r & e & Hin & Hr & Hd). specialize (Hscan r e Hin Hr). lra.
Qed.

(** C7. With no lock held, [toggleTargetLock] changes nothing when no live
    enemy is closer than 15 units: the flag stays false and the target is
    as it was.  Otherwise there is a live enemy within 15 units that no
    live enemy is closer than, and afterwards the lock flag is set, that
    enemy is the current target, the reticle is shown, and the player, at
    its old position, has been turned with [lookAt] to a point at its own
    height in the horizontal direction of the enemy, so that the enemy is
    straight ahead (unless it is exactly above or below the player); the
    enemies, the health and the rest of the engine are untouched. *)
Theorem toggleTargetLock_acquires (s : Engine) :
  en_targetLocked s = false ->
  ((forall r e, r ∈ en_enemies s -> en_heap s !! r = Some e ->
                15 <= Vector3.distanceTo (p_position (en_player s)) (e_position e)) ->
   Camera.toggleTargetLock s = s
   /\ en_targetLocked (Camera.toggleTargetLock s) = false
   /\ en_currentTarget (Camera.toggleTargetLock s) = en_currentTarget s)
  /\ ((exists r e, r ∈ en_enemies s /\ en_heap s !! r = Some e
                   /\ Vector3.distanceTo (p_position (en_player s)) (e_position e) < 15) ->
      exists r e,
        r ∈ en_enemies s /\ en_heap s !! r = Some e
        /\ Vector3.distanceTo (p_position (en_player s)) (e_position e) < 15
        /\ (forall r' e', r' ∈ en_enemies s -> en_heap s !! r' = Some e' ->
                          Vector3.distanceTo (p_position (en_player s)) (e_position e)
                          <= Vector3.distanceTo (p_position (en_player s)) (e_position e'))
        /\ en_targetLocked (Camera.toggleTargetLock s) = true
        /\ en_currentTarget (Camera.toggleTargetLock s) = Some r
        /\ en_reticleDisplay (Camera.toggleTargetLock s) = true
        /\ p_position (en_player (Camera.toggleTargetLock s)) = p_position (en_player s)
        /\ (exists target,
              p_quaternion (en_player (Camera.toggleTargetLock s))
              = Object3D.lookAt (p_position (en_player s)) target
              /\ horizontallyTowards (p_position (en_player s)) (e_position e) target)
        /\ (Core.planarDistance (e_position e) (p_position (en_player s)) <> 0 ->
            directlyAhead (Camera.toggleTargetLock s) e)
        /\ world (Camera.toggleTargetLock s) = world s
        /\ en_timers (Camera.toggleTargetLock s) = en_timers s
        /\ en_frames (Camera.toggleTargetLock s) = en_frames s).
Proof.
  intros Hunlocked. split.
  - intros Hfar. rewrite (toggleTargetLock_far s Hunlocked Hfar). by repeat split.
  - intros Hnear.
    destruct (toggleTargetLock_near s Hunlocked Hnear)
      as (r & e & Hin & Hr & Hd & Hmin & Hlock).
    exists r, e. do 4 (split; [done|]).
    rewrite Hlock. do 4 (split; [reflexivity|]).
    split; [|split; [|by repeat split]].
    + eexists. split; [reflexivity|]. apply faceTarget_horizontal.
    + intros Hplanar.
      by apply (faceTarget_directlyAhead (en_with_lock s true (Some r) true) e).
Qed.

Lemma duel_enemy0 : en_heap duel !! 0%nat = Some (mkEnemy (Vector3.mk 0 0.8 3) 2 true).
Proof. reflexivity. Qed.

Lemma duel_enemy1 : en_heap duel !! 1%nat = Some (mkEnemy (Vector3.mk 0 0.8 20) 2 true).
Proof. reflexivity. Qed.

Lemma toggleTargetLock_acquires_witness :
  en_targetLocked (Camera.toggleTargetLock duel) = true
  /\ en_currentTarget (Camera.toggleTargetLock duel) = Some 0%nat.
Proof.
  destruct (toggleTargetLock_acquires duel eq_refl) as [_ H].
  destruct H as (r & e & Hin & Hr & Hd & Hmin & Hflag & Htarget & _).
  - exists 0%nat, (mkEnemy (Vector3.mk 0 0.8 3) 2 true).
    split; [left|]. split; [reflexivity|].
    apply distanceTo_lt; [lra|]. unfold Vector3.distanceToSquared; simpl. lra.
  - split; [exact Hflag|]. rewrite Htarget. f_equal.
    apply elem_of_cons in Hin as [-> | Hin]; [done|].
    apply list_elem_of_singleton in Hin as ->.
    rewrite duel_enemy1 in Hr. injection Hr as <-.
    exfalso.
    pose proof (distanceTo_ge (p_position (en_player duel)) (Vector3.mk 0 0.8 20) 20) as H.
    unfold Vector3.distanceToSquared in H; simpl in H, Hd. lra.
Defined.

(** Out of range, the toggle changes nothing. *)
Example toggleTargetLock_out_of_range :
  Camera.toggleTargetLock
    (scene (newPlayer (Vector3.mk 0 1 0)) noKeys
       (<[0%nat := mkEnemy (Vector3.mk 0 0.8 20) 2 true]> ∅) [0%nat] [])
  = scene (newPlayer (Vector3.mk 0 1 0)) noKeys
      (<[0%nat := mkEnemy (Vector3.mk 0 0.8 20) 2 true]> ∅) [0%nat] [].
Proof.
  apply toggleTargetLock_far; [done|].
  intros r e Hin Hr. apply list_elem_of_singleton in Hin as ->.
  change (Some (mkEnemy (Vector3.mk 0 0.8 20) 2 true) = Some e) in Hr.
  injection Hr as <-.
  apply distanceTo_ge; [lra|]. unfold Vector3.distanceToSquared; simpl. lra.
Qed.

(** With the lock held, the toggle passes its guard on the number of
    enemies and then releases the lock. *)
Lemma toggleTargetLock_locked (s : Engine) :
  en_targetLocked s = true ->
  Camera.toggleTargetLock s
  = match en_enemies s with
    | [] => s
    | _ :: _ => en_with_lock s false None false
    end.
Proof.
  intros Hlocked. unfold Camera.toggleTargetLock. rewrite Hlocked.
  by destruct (en_enemies s).
Qed.

(** The guard on [enemies.length] returns before the lock is looked at;
    with the lock held and no enemy listed, a state no run reaches from a
    consistent one, the toggle would change nothing. *)
Remark toggleTargetLock_empty_list_keeps_lock :
  en_targetLocked strandedLock = true
  /\ ~ lockConsistent strandedLock
  /\ Camera.toggleTargetLock strandedLock = strandedLock.
Proof.
  split; [reflexivity|]. split; [|reflexivity].
  intros [_ Hlive]. specialize (Hlive 0%nat eq_refl).
  by apply elem_of_nil in Hlive.
Qed.

(** C4. In every state with the lock held, whatever the enemies in the
    array are and wherever they stand, [toggleTargetLock] releases the
    lock: afterwards the flag is false, the target null and the reticle
    hidden, and the player, the enemies and everything else are as before.
    The states meant are those the engine can be in, where a held lock has
    a target that is one of the enemies of the array. *)
Theorem toggleTargetLock_releases (s : Engine) :
  lockConsistent s -> en_targetLocked s = true ->
  en_targetLocked (Camera.toggleTargetLock s) = false
  /\ en_currentTarget (Camera.toggleTargetLock s) = None
  /\ en_reticleDisplay (Camera.toggleTargetLock s) = false
  /\ en_player (Camera.toggleTargetLock s) = en_player s
  /\ world (Camera.toggleTargetLock s) = world s
  /\ en_timers (Camera.toggleTargetLock s) = en_timers s
  /\ en_frames (Camera.toggleTargetLock s) = en_frames s.
Proof.
  intros [Hflag Hlive] Hlocked. rewrite (toggleTargetLock_locked s Hlocked).
  destruct (en_currentTarget s) as [r|] eqn:Ht.
  - specialize (Hlive r eq_refl).
    destruct (en_enemies s) as [|r0 l] eqn:Hl; [by apply elem_of_nil in Hlive|].
    unfold world. simpl. by rewrite Hl.
  - by apply Hflag in Hlocked.
Qed.

Lemma toggleTargetLock_releases_witness :
  en_targetLocked (Camera.toggleTargetLock lockedDuel) = false
  /\ en_currentTarget (Camera.toggleTargetLock lockedDuel) = None.
Proof.
  destruct (toggleTargetLock_releases lockedDuel) as (Hflag & Htarget & _).
  - split; simpl; [done|]. intros r [= <-]. left.
  - reflexivity.
  - by split.
Defined.

(** ** Player.attack: the guard (C8) *)

(** C8. While the player is attacking, [attack] returns at once: the
    state, with its pending timers and animation frames, is unchanged. *)
Theorem attack_guard (s : Engine) (now : R) :
  p_isAttacking (en_player s) = true ->
  Player.attack s now = s
  /\ en_timers (Player.attack s now) = en_timers s
  /\ en_frames (Player.attack s now) = en_frames s.
Proof.
  intros H. unfold Player.attack. rewrite H. done.
Qed.

(** Otherwise it raises the flag, schedules the hit detection 200 ms ahead
    and requests the first frame of the swing. *)
Lemma attack_starts (s : Engine) (now : R) :
  p_isAttacking (en_player s) = false ->
  p_isAttacking (en_player (Player.attack s now)) = true
  /\ en_timers (Player.attack s now) = en_timers s ++ [(200, HitDetection)]
  /\ en_frames (Player.attack s now)
     = en_frames s ++ [AnimateSwordSwing (p_swordRotationX (en_player s)) now].
Proof.
  intros H. unfold Player.attack. rewrite H.
  destruct (lockedTarget _); simpl; done.
Qed.

Lemma attack_guard_witness :
  Player.attack (Player.attack duel 0) 100 = Player.attack duel 0.
Proof.
  apply (attack_guard (Player.attack duel 0) 100). reflexivity.
Defined.

(** ** Player.attack: the hit detection (C3, C5, C6) *)

(** One iteration touches the object of its enemy and the timers only. *)
Lemma hitEnemy_frame (s : Engine) (r : ref) :
  en_player (Player.hitEnemy s r) = en_player s
  /\ en_targetLocked (Player.hitEnemy s r) = en_targetLocked s
  /\ en_currentTarget (Player.hitEnemy s r) = en_currentTarget s
  /\ en_enemies (Player.hitEnemy s r) = en_enemies s.
Proof.
  unfold Player.hitEnemy.
  destruct (en_heap s !! r) as [e|]; [|done].
  destruct (Player.isHit s r e); [|done].
  destruct (Rleb _ _); done.
Qed.

Lemma hitEnemy_lookup_other (s : Engine) (r r' : ref) :
  r' <> r -> en_heap (Player.hitEnemy s r) !! r' = en_heap s !! r'.
Proof.
  intros Hne. unfold Player.hitEnemy.
  destruct (en_heap s !! r) as [e|]; [|done].
  destruct (Player.isHit s r e); [|done].
  destruct (Rleb _ _); simpl; by rewrite lookup_insert_ne.
Qed.

Lemma hitEnemy_lookup_same (s : Engine) (r : ref) :
  en_heap (Player.hitEnemy s r) !! r = hitResult s r <$> en_heap s !! r.
Proof.
  unfold Player.hitEnemy, hitResult.
  destruct (en_heap s !! r) as [e|] eqn:Hr; simpl; [|done].
  destruct (Player.isHit s r e); [|done].
  destruct (Rleb _ _); simpl; by rewrite lookup_insert_eq.
Qed.

(** The verdict on an enemy reads the player and the lock only. *)
Lemma isHit_ext (s s' : Engine) (r : ref) (e : EnemyObj) :
  en_player s' = en_player s -> en_targetLocked s' = en_targetLocked s ->
  en_currentTarget s' = en_currentTarget s ->
  Player.isHit s' r e = Player.isHit s r e.
Proof.
  intros Hp Hl Ht.
  unfold Player.isHit, Player.isTarget, Player.attackRange, Player.isTarget,
    Player.distanceToEnemy, Player.inAttackAngle, Player.swordDistance.
  by rewrite Hp, Hl, Ht.
Qed.

Lemma hitResult_ext (s s' : Engine) (r : ref) (e : EnemyObj) :
  en_player s' = en_player s -> en_targetLocked s' = en_targetLocked s ->
  en_currentTarget s' = en_currentTarget s ->
  hitResult s' r e = hitResult s r e.
Proof.
  intros Hp Hl Ht.
  unfold hitResult, Player.isHit, Player.damaged, Player.knockback, Player.isTarget,
    Player.attackRange, Player.isTarget, Player.distanceToEnemy, Player.inAttackAngle,
    Player.swordDistance.
  by rewrite Hp, Hl, Ht.
Qed.

Lemma hits_frame (l : list ref) (s : Engine) :
  en_player (fold_left Player.hitEnemy l s) = en_player s
  /\ en_targetLocked (fold_left Player.hitEnemy l s) = en_targetLocked s
  /\ en_currentTarget (fold_left Player.hitEnemy l s) = en_currentTarget s
  /\ en_enemies (fold_left Player.hitEnemy l s) = en_enemies s.
Proof.
  revert s. induction l as [|a l IH]; intros s; simpl; [done|].
  destruct (IH (Player.hitEnemy s a)) as (-> & -> & -> & ->).
  apply hitEnemy_frame.
Qed.

Lemma hits_lookup_other (l : list ref) (s : Engine) (r : ref) :
  r ∉ l -> en_heap (fold_left Player.hitEnemy l s) !! r = en_heap s !! r.
Proof.
  revert s. induction l as [|a l IH]; intros s Hr; simpl; [done|].
  apply not_elem_of_cons in Hr as [Hne Hr].
  rewrite IH by done. by apply hitEnemy_lookup_other.
Qed.

Lemma hits_lookup (l : list ref) (s : Engine) (r : ref) :
  NoDup l -> r ∈ l ->
  en_heap (fold_left Player.hitEnemy l s) !! r = hitResult s r <$> en_heap s !! r.
Proof.
  revert s. induction l as [|a l IH]; intros s Hnd Hr; simpl.
  - by apply elem_of_nil in Hr.
  - apply NoDup_cons in Hnd as [Ha Hnd].
    apply elem_of_cons in Hr as [-> | Hr].
    + rewrite hits_lookup_other by done. apply hitEnemy_lookup_same.
    + assert (r <> a) as Hne by (intros ->; done).
      rewrite IH by done. rewrite hitEnemy_lookup_other by done.
      destruct (en_heap s !! r) as [e|]; simpl; [|done].
      f_equal. destruct (hitEnemy_frame s a) as (Hp & Hl & Ht & _).
      by apply hitResult_ext.
Qed.

(** Timers are only ever appended by the hit detection. *)
Lemma hitEnemy_timers_mono (s : Engine) (r : ref) (t : R * TimerCallback) :
  t ∈ en_timers s -> t ∈ en_timers (Player.hitEnemy s r).
Proof.
  intros Ht. unfold Player.hitEnemy.
  destruct (en_heap s !! r) as [e|]; [|done].
  destruct (Player.isHit s r e); [|done].
  destruct (Rleb _ _); simpl; [|done].
  apply elem_of_app. by left.
Qed.

Lemma hits_timers_mono (l : list ref) (s : Engine) (t : R * TimerCallback) :
  t ∈ en_timers s -> t ∈ en_timers (fold_left Player.hitEnemy l s).
Proof.
  revert s. induction l as [|a l IH]; intros s Ht; simpl; [done|].
  apply IH. by apply hitEnemy_timers_mono.
Qed.

(** A hit enemy whose health does not exceed 1 gets its removal scheduled. *)
Lemma hits_schedule_removal (l : list ref) (s : Engine) (r : ref) (e : EnemyObj) :
  NoDup l -> r ∈ l -> en_heap s !! r = Some e ->
  Player.isHit s r e = true -> e_health e <= 1 ->
  (100, RemoveEnemy r) ∈ en_timers (fold_left Player.hitEnemy l s).
Proof.
  revert s. induction l as [|a l IH]; intros s Hnd Hr He Hhit Hh; simpl.
  - by apply elem_of_nil in Hr.
  - apply NoDup_cons in Hnd as [Ha Hnd].
    apply elem_of_cons in Hr as [-> | Hr].
    + apply hits_timers_mono. unfold Player.hitEnemy. rewrite He, Hhit.
      assert (Rleb (e_health (Player.damaged s e)) 0 = true) as ->.
      { apply Rleb_true. simpl. rewrite Rmax_left; lra. }
      simpl. apply elem_of_app. right. by apply list_elem_of_singleton.
    + assert (r <> a) as Hne by (intros ->; done).
      destruct (hitEnemy_frame s a) as (Hp & Hl & Ht & _).
      apply (IH _ Hnd Hr).
      * by rewrite hitEnemy_lookup_other.
      * by rewrite (isHit_ext s (Player.hitEnemy s a) r e Hp Hl Ht).
      * done.
Qed.

Lemma hitDetection_frame (s : Engine) :
  en_player (Player.hitDetection s) = en_player s
  /\ en_targetLocked (Player.hitDetection s) = en_targetLocked s
  /\ en_currentTarget (Player.hitDetection s) = en_currentTarget s
  /\ en_enemies (Player.hitDetection s) = en_enemies s.
Proof. apply hits_frame. Qed.

(** Every live enemy is judged once, against the state the callback found. *)
Lemma hitDetection_lookup (s : Engine) (r : ref) :
  NoDup (en_enemies s) -> r ∈ en_enemies s ->
  en_heap (Player.hitDetection s) !! r = hitResult s r <$> en_heap s !! r.
Proof. apply hits_lookup. Qed.

Lemma spliceFirst_subseteq (r r' : ref) (l : list ref) :
  r' ∈ Player.spliceFirst r l -> r' ∈ l.
Proof.
  induction l as [|a l IH]; simpl; [done|].
  destruct (Nat.eqb a r); intros H.
  - by right.
  - apply elem_of_cons in H as [-> | H]; [left | right; auto].
Qed.

Lemma spliceFirst_other (r r' : ref) (l : list ref) :
  r' <> r -> r' ∈ l -> r' ∈ Player.spliceFirst r l.
Proof.
  intros Hne. induction l as [|a l IH]; simpl; [done|].
  intros H. destruct (Nat.eqb_spec a r) as [-> | Har].
  - apply elem_of_cons in H as [-> | H]; done.
  - apply elem_of_cons in H as [-> | H]; [left | right; auto].
Qed.

Lemma spliceFirst_removes (r : ref) (l : list ref) :
  NoDup l -> r ∉ Player.spliceFirst r l.
Proof.
  induction l as [|a l IH]; simpl; intros Hnd.
  - apply not_elem_of_nil.
  - apply NoDup_cons in Hnd as [Ha Hnd].
    destruct (Nat.eqb_spec a r) as [-> | Har]; [done|].
    apply not_elem_of_cons. split; [done | auto].
Qed.

Lemma spliceFirst_NoDup (r : ref) (l : list ref) :
  NoDup l -> NoDup (Player.spliceFirst r l).
Proof.
  induction l as [|a l IH]; simpl; intros Hnd; [done|].
  apply NoDup_cons in Hnd as [Ha Hnd].
  destruct (Nat.eqb a r); [done|].
  apply NoDup_cons. split; [|auto].
  intros H. by apply spliceFirst_subseteq in H.
Qed.

Lemma removeEnemy_enemies (s : Engine) (r : ref) :
  en_enemies (Player.removeEnemy s r) = Player.spliceFirst r (en_enemies s).
Proof.
  unfold Player.removeEnemy.
  destruct (en_heap s !! r) as [e|]; [destruct (e_parent e)|]; simpl;
    destruct (bool_decide _); done.
Qed.

Lemma removeEnemy_lock (s : Engine) (r : ref) :
  (en_currentTarget s = Some r ->
   en_targetLocked (Player.removeEnemy s r) = false
   /\ en_currentTarget (Player.removeEnemy s r) = None
   /\ en_reticleDisplay (Player.removeEnemy s r) = false)
  /\ (en_currentTarget s <> Some r ->
      en_targetLocked (Player.removeEnemy s r) = en_targetLocked s
      /\ en_currentTarget (Player.removeEnemy s r) = en_currentTarget s
      /\ en_reticleDisplay (Player.removeEnemy s r) = en_reticleDisplay s).
Proof.
  unfold Player.removeEnemy. split; intros Ht.
  - destruct (en_heap s !! r) as [e|]; [destruct (e_parent e)|]; simpl;
      rewrite bool_decide_eq_true_2 by done; done.
  - destruct (en_heap s !! r) as [e|]; [destruct (e_parent e)|]; simpl;
      rewrite bool_decide_eq_false_2 by done; done.
Qed.

Lemma fireTimer_removeEnemy (s : Engine) (i : nat) (d : R) (r : ref) :
  en_timers s !! i = Some (d, RemoveEnemy r) ->
  fireTimer s i = Player.removeEnemy (en_with_timers s (delete i (en_timers s))) r.
Proof. intros H. unfold fireTimer. by rewrite H. Qed.

(** C3. When the hit detection finds a live enemy with at most one point
    of health within reach, it leaves the enemy at 0 health and schedules
    its removal; and whenever that removal runs, the enemy leaves the list
    of live enemies and is not the lock target afterwards: if it was, the
    flag is false and the target null. *)
Theorem lock_cleared_with_dead_target (s : Engine) (r : ref) (e : EnemyObj) :
  r ∈ en_enemies s -> NoDup (en_enemies s) -> en_heap s !! r = Some e ->
  Player.isHit s r e = true -> e_health e <= 1 ->
  (exists e', en_heap (Player.hitDetection s) !! r = Some e' /\ e_health e' = 0)
  /\ (100, RemoveEnemy r) ∈ en_timers (Player.hitDetection s)
  /\ (forall s' i d,
        en_timers s' !! i = Some (d, RemoveEnemy r) -> NoDup (en_enemies s') ->
        (r ∉ en_enemies (fireTimer s' i))
        /\ en_currentTarget (fireTimer s' i) <> Some r
        /\ (en_currentTarget s' = Some r ->
            en_targetLocked (fireTimer s' i) = false
            /\ en_currentTarget (fireTimer s' i) = None)).
Proof.
  intros Hin Hnd He Hhit Hh. split; [|split].
  - rewrite hitDetection_lookup, He by done. simpl.
    exists (hitResult s r e). split; [done|].
    unfold hitResult. rewrite Hhit. simpl. apply Rmax_left. lra.
  - by apply (hits_schedule_removal _ _ _ e).
  - intros s' i d Hi Hnd'. rewrite (fireTimer_removeEnemy _ _ _ _ Hi).
    set (s1 := en_with_timers s' (delete i (en_timers s'))).
    destruct (removeEnemy_lock s1 r) as [Hsame Hother].
    split; [|split].
    + rewrite removeEnemy_enemies. by apply spliceFirst_removes.
    + destruct (decide (en_currentTarget s1 = Some r)) as [Ht | Ht].
      * destruct (Hsame Ht) as (_ & -> & _). done.
      * destruct (Hother Ht) as (_ & -> & _). done.
    + intros Ht. destruct (Hsame Ht) as (? & ? & _). done.
Qed.

Lemma finishing_isHit :
  Player.isHit finishing 0%nat (mkEnemy (Vector3.mk 0 0 1) 1 true) = true.
Proof.
  unfold Player.isHit.
  assert (Rltb (Player.distanceToEnemy finishing (mkEnemy (Vector3.mk 0 0 1) 1 true))
            (Player.attackRange finishing 0%nat) = true) as ->.
  { change (Player.attackRange finishing 0%nat) with 3.0.
    apply Rltb_true. apply distanceTo_lt; [lra|].
    unfold Vector3.distanceToSquared; simpl. lra. }
  reflexivity.
Qed.

Lemma lock_cleared_with_dead_target_witness :
  exists i,
    en_targetLocked (fireTimer (Player.hitDetection finishing) i) = false
    /\ en_currentTarget (fireTimer (Player.hitDetection finishing) i) = None
    /\ 0%nat ∉ en_enemies (fireTimer (Player.hitDetection finishing) i).
Proof.
  destruct (lock_cleared_with_dead_target finishing 0%nat
              (mkEnemy (Vector3.mk 0 0 1) 1 true)) as (_ & Htimer & Hremove).
  - left.
  - apply NoDup_singleton.
  - reflexivity.
  - apply finishing_isHit.
  - simpl. lra.
  - apply list_elem_of_lookup in Htimer as [i Hi]. exists i.
    destruct (hitDetection_frame finishing) as (_ & _ & Ht & Hl).
    destruct (Hremove _ i 100 Hi) as (Hgone & _ & Hlock).
    + rewrite Hl. apply NoDup_singleton.
    + destruct Hlock as [? ?]; [by rewrite Ht | done].
Defined.

(** *** The lock never dangles *)

Lemma update_lockState (s : Engine) (deltaTime : R) :
  lockState (Player.update s deltaTime) = lockState s.
Proof.
  unfold Player.update, Player.gravity, Player.jump, Player.walk, Player.move,
    Player.basis, lockState.
  destruct (lockedTarget s); simpl;
    repeat match goal with
           | |- context [if ?b then _ else _] => destruct b; simpl
           end; reflexivity.
Qed.

Lemma attack_lockState (s : Engine) (now : R) :
  lockState (Player.attack s now) = lockState s.
Proof.
  unfold Player.attack, lockState.
  destruct (p_isAttacking (en_player s)); [done|].
  destruct (lockedTarget _); reflexivity.
Qed.

Lemma takeDamage_lockState (s : Engine) (amount : R) (deathPose : Quaternion.t) :
  lockState (Player.takeDamage s amount deathPose) = lockState s.
Proof.
  unfold Player.takeDamage, lockState. simpl. destruct (Rleb _ _); reflexivity.
Qed.

Lemma resetPosition_lockState (s : Engine) :
  lockState (Player.resetPosition s) = lockState s.
Proof.
  unfold Player.resetPosition, lockState. by destruct (find _ _).
Qed.

Lemma animateSwordSwing_lockState (s : Engine) (a b t : R) :
  lockState (Player.animateSwordSwing s a b t) = lockState s.
Proof.
  unfold Player.animateSwordSwing, lockState.
  repeat match goal with
         | |- context [if ?b then _ else _] => destruct b; simpl
         end; reflexivity.
Qed.

Lemma runFrame_lockState (s : Engine) (timestamp : R) :
  lockState (runFrame s timestamp) = lockState s.
Proof.
  unfold runFrame.
  assert (forall l s0, lockState (fold_left (runFrameCallback timestamp) l s0)
                       = lockState s0) as H.
  { induction l as [|cb l IH]; intros s0; simpl; [done|].
    rewrite IH. destruct cb. apply animateSwordSwing_lockState. }
  rewrite H. reflexivity.
Qed.

Lemma lockConsistent_lockState (s s' : Engine) :
  lockState s' = lockState s -> lockConsistent s -> lockConsistent s'.
Proof.
  unfold lockState, lockConsistent. intros H. injection H as -> -> ->. done.
Qed.

Lemma toggleTargetLock_consistent (s : Engine) :
  lockConsistent s -> lockConsistent (Camera.toggleTargetLock s).
Proof.
  intros Hs. destruct (en_targetLocked s) eqn:Hl.
  - rewrite (toggleTargetLock_locked s Hl).
    destruct (en_enemies s) as [|a l] eqn:Hen; [done|].
    split; simpl; [|done]. split; [done | intros H; by contradict H].
  - pose proof (closest_scanned s) as Hscan.
    destruct (Camera.closest s) as [[r|] [|d]] eqn:Hc; simpl in Hscan; try done.
    + destruct Hscan as (Hin & Hd & (e & Hr & ->) & _).
      destruct (toggleTargetLock_near s Hl) as (r' & e' & Hin' & _ & _ & _ & ->).
      { by exists r, e. }
      split; simpl; [done|]. intros r0 [= <-]. done.
    + by rewrite (toggleTargetLock_far s Hl).
Qed.

Lemma removeEnemy_consistent (s : Engine) (r : ref) :
  lockConsistent s -> lockConsistent (Player.removeEnemy s r).
Proof.
  intros [Hflag Hlive]. destruct (removeEnemy_lock s r) as [Hsame Hother].
  destruct (decide (en_currentTarget s = Some r)) as [Ht | Ht].
  - destruct (Hsame Ht) as (Hl & Hc & _). split.
    + rewrite Hl, Hc. split; [done | intros H; by contradict H].
    + rewrite Hc. done.
  - destruct (Hother Ht) as (Hl & Hc & _). split.
    + by rewrite Hl, Hc.
    + rewrite Hc, removeEnemy_enemies. intros r' Hr'.
      apply spliceFirst_other; [congruence | auto].
Qed.

(** The lock flag and the target agree, and the target is a live enemy, in
    every state the modelled events lead to from a state where that holds. *)
Theorem lock_never_dangles (s s' : Engine) :
  lockConsistent s -> step s s' -> lockConsistent s'.
Proof.
  intros Hs Hstep. destruct Hstep.
  - by apply (lockConsistent_lockState _ _ (update_lockState s deltaTime)).
  - by apply toggleTargetLock_consistent.
  - by apply (lockConsistent_lockState _ _ (attack_lockState s now)).
  - by apply (lockConsistent_lockState _ _ (takeDamage_lockState s amount deathPose)).
  - by apply (lockConsistent_lockState _ _ (resetPosition_lockState s)).
  - unfold fireTimer. destruct (en_timers s !! i) as [[d cb]|]; [|done].
    destruct cb as [|r]; simpl.
    + destruct (hitDetection_frame (en_with_timers s (delete i (en_timers s))))
        as (_ & Hl & Ht & He).
      apply (lockConsistent_lockState s); [|done].
      unfold lockState. by rewrite Hl, Ht, He.
    + by apply removeEnemy_consistent.
  - by apply (lockConsistent_lockState _ _ (runFrame_lockState s timestamp)).
  - done.
  - done.
Qed.

Lemma lock_never_dangles_witness : lockConsistent (Camera.toggleTargetLock duel).
Proof.
  apply (lock_never_dangles duel); [|constructor].
  split; simpl; [split; [done | intros H; by contradict H] | done].
Defined.

(** *** Geometry of the hit test *)








(** Against C6 as the specification states it: for a player hovering
    above an enemy that stands one unit ahead, the planar distance is within
    range, the distance the code compares is not, and the enemy is not
    hit. *)
Lemma range_test_counts_height :
  Core.planarDistance (p_position (en_player hovering)) (Vector3.mk 0 0.8 1)
    < Player.attackRange hovering 0%nat
  /\ ~ (Player.distanceToEnemy hovering (mkEnemy (Vector3.mk 0 0.8 1) 2 true)
        < Player.attackRange hovering 0%nat)
  /\ Player.isHit hovering 0%nat (mkEnemy (Vector3.mk 0 0.8 1) 2 true) = false.
Proof.
  change (Player.attackRange hovering 0%nat) with 2.0.
  assert (2.0 <= Player.distanceToEnemy hovering (mkEnemy (Vector3.mk 0 0.8 1) 2 true))
    as Hfar.
  { apply distanceTo_ge; [lra|]. unfold Vector3.distanceToSquared. simpl. lra. }
  split; [|split].
  - unfold Core.planarDistance. simpl. apply sqrt_lt_bound; lra.
  - lra.
  - unfold Player.isHit.
    change (Player.attackRange hovering 0%nat) with 2.0.
    apply Rltb_false in Hfar. rewrite Hfar. simpl.
    apply Rltb_false. unfold Player.swordDistance.
    change (p_quaternion (en_player hovering)) with Quaternion.identity.
    rewrite applyQuaternion_identity.
    apply distanceTo_ge; [lra|]. unfold Vector3.distanceToSquared. simpl. lra.
Qed.

(** C6 (amended). The distance the hit test compares against the attack
    range is the distance in space between the player and the enemy
    ([distanceTo]): it is the planar X/Z distance combined with the vertical
    separation, never smaller than the planar distance and equal to it
    exactly when both stand at the same height. *)
Theorem range_test_is_spatial (s : Engine) (r : ref) (e : EnemyObj) :
  let dy := Vector3.y (p_position (en_player s)) - Vector3.y (e_position e) in
  let planar := Core.planarDistance (p_position (en_player s)) (e_position e) in
  let spatial := sqrt (planar * planar + dy * dy) in
  Player.distanceToEnemy s e = spatial
  /\ planar <= spatial
  /\ (spatial = planar <-> dy = 0)
  /\ (Player.isHit s r e = true <->
      (Player.isTarget s r = true /\ spatial < Player.attackRange s r)
      \/ (spatial < Player.attackRange s r /\ Player.inAttackAngle s e = true)
      \/ Player.swordDistance s e < 1.5).
Proof.
  intros dy planar spatial.
  assert (0 <= planar) as Hp by apply sqrt_pos.
  assert (planar * planar
          = (Vector3.x (p_position (en_player s)) - Vector3.x (e_position e))
            * (Vector3.x (p_position (en_player s)) - Vector3.x (e_position e))
            + (Vector3.z (p_position (en_player s)) - Vector3.z (e_position e))
              * (Vector3.z (p_position (en_player s)) - Vector3.z (e_position e)))
    as Hsq.
  { unfold planar, Core.planarDistance. apply sqrt_sqrt.
    pose proof (Rle_0_sqr (Vector3.x (p_position (en_player s)) - Vector3.x (e_position e))).
    pose proof (Rle_0_sqr (Vector3.z (p_position (en_player s)) - Vector3.z (e_position e))).
    unfold Rsqr in *. lra. }
  assert (Player.distanceToEnemy s e = spatial) as Hd.
  { unfold spatial, Player.distanceToEnemy, Vector3.distanceTo, Vector3.distanceToSquared.
    f_equal. rewrite Hsq. unfold dy. simpl. ring. }
  pose proof (Rle_0_sqr dy) as Hdy. unfold Rsqr in Hdy.
  split; [done|]. split; [|split].
  - apply sqrt_le_bound; lra.
  - split.
    + intros Heq.
      assert (spatial * spatial = planar * planar + dy * dy) as Hss
        by (apply sqrt_sqrt; nra).
      rewrite Heq in Hss.
      assert (dy * dy = 0) as H0 by lra.
      by destruct (Rmult_integral _ _ H0).
    + intros H0. unfold spatial. rewrite H0.
      replace (planar * planar + 0 * 0) with (planar * planar) by ring.
      by apply sqrt_square.
  - unfold Player.isHit. rewrite Hd.
    rewrite !orb_true_iff, !andb_true_iff, !Rltb_true. tauto.
Qed.

(** ** Player.update: the movement (C2) *)

Lemma resolve_first_clear (s : Engine) (newPosition : Vector3.t) :
  Player.resolve s newPosition
  = default (p_position (en_player s))
      (find (fun c => negb (Core.checkCollision s c))
         (candidates (p_position (en_player s)) newPosition)).
Proof.
  unfold Player.resolve, candidates. simpl.
  repeat match goal with
         | |- context [if negb ?b then _ else _] => destruct b; simpl; try reflexivity
         end.
Qed.

(** [basis] changes the player's quaternion at most. *)
Lemma basis_state (s : Engine) :
  exists q, snd (Player.basis s) = en_with_player s (p_with_quaternion (en_player s) q).
Proof.
  unfold Player.basis. destruct (lockedTarget s); simpl.
  - eexists. reflexivity.
  - exists (p_quaternion (en_player s)). by destruct s as [[] ? ? ? ? ? ? ? ? ? ? ? ? ?].
Qed.

Lemma walk_position (s : Engine) (deltaTime : R) :
  p_position (en_player (Player.walk s deltaTime))
  = if Rgtb (Vector3.length (movementDirection s)) 0
    then Player.resolve s
           (Vector3.add (p_position (en_player s))
              (Player.scaled s (movementDirection s) deltaTime))
    else p_position (en_player s).
Proof.
  unfold Player.walk, movementDirection.
  destruct (basis_state s) as [q Hq]. rewrite Hq. simpl.
  destruct (Rgtb _ _); [|done].
  unfold Player.move. simpl. by destruct (en_targetLocked s).
Qed.

(** Jumping and gravity leave X and Z alone. *)
Lemma update_horizontal (s : Engine) (deltaTime : R) :
  Vector3.x (p_position (en_player (Player.update s deltaTime)))
  = Vector3.x (p_position (en_player (Player.walk s deltaTime)))
  /\ Vector3.z (p_position (en_player (Player.update s deltaTime)))
     = Vector3.z (p_position (en_player (Player.walk s deltaTime))).
Proof.
  unfold Player.update, Player.gravity, Player.jump.
  generalize (Player.walk s deltaTime). intros w.
  repeat match goal with
         | |- context [if ?b then _ else _] => destruct b; simpl
         end; done.
Qed.

(** C2. In a tick whose accumulated direction is not zero, the movement
    tries four positions in this order and commits the first that
    [checkCollision] clears: (a) the full candidate, the position plus the
    unit direction times speed times frame time; (b) the X-only slide, the
    candidate's X with the current Y and Z; (c) the Z-only slide, the
    candidate's Z with the current X and Y; (d) the candidate raised by
    0.1.  When all four are blocked the position stays as it was.  So a
    blocked full candidate with a clear X-only slide resolves to the X-only
    slide.  Jumping and gravity then change the height only. *)
Theorem movement_fallback_order (s : Engine) (deltaTime : R) :
  Vector3.length (movementDirection s) > 0 ->
  let position := p_position (en_player s) in
  let newPosition :=
    Vector3.add position
      (Vector3.multiplyScalar (Vector3.normalize (movementDirection s))
         (p_speed (en_player s) * deltaTime)) in
  let slideX :=
    Vector3.mk (Vector3.x newPosition) (Vector3.y position) (Vector3.z position) in
  let slideZ :=
    Vector3.mk (Vector3.x position) (Vector3.y position) (Vector3.z newPosition) in
  let elevated :=
    Vector3.mk (Vector3.x newPosition) (Vector3.y newPosition + 0.1)
      (Vector3.z newPosition) in
  let blocked := fun c => Core.checkCollision s c = true in
  let clear := fun c => Core.checkCollision s c = false in
  let resolved := p_position (en_player (Player.walk s deltaTime)) in
  resolved
  = default position
      (find (fun c => negb (Core.checkCollision s c))
         [newPosition; slideX; slideZ; elevated])
  /\ (clear newPosition -> resolved = newPosition)
  /\ (blocked newPosition -> clear slideX -> resolved = slideX)
  /\ (blocked newPosition -> blocked slideX -> clear slideZ -> resolved = slideZ)
  /\ (blocked newPosition -> blocked slideX -> blocked slideZ -> clear elevated ->
      resolved = elevated)
  /\ (blocked newPosition -> blocked slideX -> blocked slideZ -> blocked elevated ->
      resolved = position)
  /\ Vector3.x (p_position (en_player (Player.update s deltaTime))) = Vector3.x resolved
  /\ Vector3.z (p_position (en_player (Player.update s deltaTime))) = Vector3.z resolved.
Proof.
  intros Hlen position newPosition slideX slideZ elevated blocked clear resolved.
  assert (resolved = Player.resolve s newPosition) as Hres.
  { unfold resolved. rewrite walk_position.
    by rewrite (proj2 (Rgtb_true _ _) Hlen). }
  assert (Player.slideX position newPosition = slideX) as HX by reflexivity.
  assert (Player.slideZ position newPosition = slideZ) as HZ by reflexivity.
  assert (Player.elevatedPosition newPosition = elevated) as HE by reflexivity.
  assert (candidates position newPosition = [newPosition; slideX; slideZ; elevated])
    as Hcand by reflexivity.
  unfold blocked, clear.
  split; [|split; [|split; [|split; [|split; [|split]]]]].
  - rewrite Hres, <- Hcand. apply resolve_first_clear.
  - intros H1. rewrite Hres. unfold Player.resolve. by rewrite H1.
  - intros H1 H2. rewrite Hres. unfold Player.resolve. fold position.
    by rewrite H1, HX, H2.
  - intros H1 H2 H3. rewrite Hres. unfold Player.resolve. fold position.
    by rewrite H1, HX, H2, HZ, H3.
  - intros H1 H2 H3 H4. rewrite Hres. unfold Player.resolve. fold position.
    by rewrite H1, HX, H2, HZ, H3, HE, H4.
  - intros H1 H2 H3 H4. rewrite Hres. unfold Player.resolve. fold position.
    by rewrite H1, HX, H2, HZ, H3, HE, H4.
  - apply update_horizontal.
Qed.

(** *** The scenes evaluated *)

Lemma setFromEuler_zero : Quaternion.setFromEuler 0 0 0 = Quaternion.identity.
Proof.
  unfold Quaternion.setFromEuler, Quaternion.identity.
  replace (0 / 2) with 0 by field. rewrite cos_0, sin_0. f_equal; ring.
Qed.

Lemma basis_yaw0 (s : Engine) :
  lockedTarget s = None -> en_cameraRotationY s = 0 ->
  Player.basis s = (Vector3.mk 0 0 (-1), Vector3.mk 1 0 0, s).
Proof.
  intros Hl Hy. unfold Player.basis. rewrite Hl, Hy. unfold applyEuler.
  by rewrite setFromEuler_zero, !applyQuaternion_identity.
Qed.

Lemma checkCollision_single_box (s : Engine) (position cp : Vector3.t) (c : Collidable) :
  en_collidables s = [c] -> Core.collidablePosition c = Some cp -> isBox c ->
  Vector3.y position <= 3.0 ->
  Core.checkCollision s position = true <->
  insideExpandedBox (p_radius (en_player s)) position cp c.
Proof.
  intros Hl Hcp Hb Hy.
  rewrite (checkCollision_below s position Hy), Hl.
  split.
  - intros (c' & cp' & Hin & Hcp' & Hcase). apply list_elem_of_singleton in Hin as ->.
    rewrite Hcp in Hcp'. injection Hcp' as <-.
    destruct Hcase as [[Hr _] | [_ He]]; [|done].
    unfold isBox in Hb. unfold isRadial in Hr. rewrite Hb in Hr.
    destruct Hr as [? | [? | ?]]; discriminate.
  - intros He. exists c, cp. repeat split; [apply list_elem_of_singleton; done|done|].
    by right.
Qed.

Lemma sqrt2_bounds : 1 <= sqrt 2 < 5.
Proof. split; [apply sqrt_le_bound; lra | apply sqrt_lt_bound; lra]. Qed.

Lemma alley_direction : movementDirection alley = Vector3.mk 1 0 (-1).
Proof.
  unfold movementDirection. rewrite basis_yaw0 by reflexivity.
  apply vector3_eq; simpl; ring.
Qed.

Lemma alley_length : Vector3.length (Vector3.mk 1 0 (-1)) = sqrt 2.
Proof. unfold Vector3.length. simpl. f_equal. ring. Qed.

Lemma alley_newPosition :
  Vector3.add (p_position (en_player alley))
    (Player.scaled alley (movementDirection alley) 0.1)
  = Vector3.mk (0.5 / sqrt 2) 1 (-2.1 - 0.5 / sqrt 2).
Proof.
  pose proof sqrt2_bounds.
  unfold Player.scaled. rewrite alley_direction.
  rewrite (normalize_of_length _ _ alley_length) by lra.
  apply vector3_eq; simpl; unfold Rdiv; lra.
Qed.

Lemma half_over_sqrt2_bounds : 0.1 < 0.5 / sqrt 2 <= 0.5.
Proof.
  pose proof sqrt2_bounds as [Hlo Hhi]. split.
  - apply Rmult_lt_reg_r with (sqrt 2); [lra|].
    replace (0.5 / sqrt 2 * sqrt 2) with 0.5 by (field; lra). lra.
  - apply Rmult_le_reg_r with (sqrt 2); [lra|].
    replace (0.5 / sqrt 2 * sqrt 2) with 0.5 by (field; lra). lra.
Qed.

Lemma movement_fallback_order_witness :
  p_position (en_player (Player.walk alley 0.1)) = Vector3.mk (0.5 / sqrt 2) 1 (-2.1).
Proof.
  pose proof half_over_sqrt2_bounds as Hk.
  assert (Vector3.length (movementDirection alley) > 0) as Hlen.
  { rewrite alley_direction, alley_length. pose proof sqrt2_bounds. lra. }
  pose proof (movement_fallback_order alley 0.1 Hlen) as H. cbv zeta in H.
  change (Vector3.multiplyScalar (Vector3.normalize (movementDirection alley))
            (p_speed (en_player alley) * 0.1))
    with (Player.scaled alley (movementDirection alley) 0.1) in H.
  rewrite alley_newPosition in H. destruct H as (_ & _ & Hslide & _).
  rewrite Hslide; [reflexivity | |].
  - apply (checkCollision_single_box alley _ (Vector3.mk 0 0 (-5)) (house 0 (-5)));
      try done; simpl; [lra|].
    unfold insideExpandedBox. simpl. lra.
  - apply not_true_is_false.
    rewrite (checkCollision_single_box alley _ (Vector3.mk 0 0 (-5)) (house 0 (-5)));
      try done; simpl; [|lra].
    unfold insideExpandedBox. simpl. lra.
Defined.

(** ** Player.update: the height of a grounded player (C9) *)

Lemma applyEuler_yaw_y (v : Vector3.t) (yaw : R) :
  Vector3.y v = 0 -> Vector3.y (applyEuler v 0 yaw 0) = 0.
Proof.
  intros Hv. unfold applyEuler, Quaternion.setFromEuler, applyQuaternion. simpl.
  replace (0 / 2) with 0 by field. rewrite cos_0, sin_0, Hv. ring.
Qed.

Lemma basis_y (s : Engine) :
  Vector3.y (fst (fst (Player.basis s))) = 0 /\ Vector3.y (snd (fst (Player.basis s))) = 0.
Proof.
  unfold Player.basis. destruct (lockedTarget s) as [target|]; simpl fst; simpl snd.
  - split; [reflexivity|].
    destruct (normalize_scale
                (Vector3.crossVectors (Vector3.mk 0 1 0)
                   (Vector3.set_y
                      (Vector3.normalize
                         (Vector3.subVectors (e_position target)
                            (p_position (en_player s)))) 0)))
      as (c & _ & ->).
    simpl. ring.
  - split; by apply applyEuler_yaw_y.
Qed.

Lemma movementDirection_y (s : Engine) : Vector3.y (movementDirection s) = 0.
Proof.
  unfold movementDirection, Player.accumulate.
  destruct (basis_y s) as [Hf Hr].
  destruct (k_forward _), (k_backward _), (k_right _), (k_left _); simpl;
    rewrite ?Hf, ?Hr; ring.
Qed.

Lemma scaled_y (s : Engine) (deltaTime : R) :
  Vector3.y (Player.scaled s (movementDirection s) deltaTime) = 0.
Proof.
  unfold Player.scaled. destruct (normalize_scale (movementDirection s)) as (c & _ & ->).
  simpl. rewrite movementDirection_y. ring.
Qed.

(** The collidables are tested against X and Z only. *)
Lemma checkCollidables_height (r : R) (a b : Vector3.t) (l : list Collidable) :
  Vector3.x a = Vector3.x b -> Vector3.z a = Vector3.z b ->
  Core.checkCollidables r a l = Core.checkCollidables r b l.
Proof.
  intros Hx Hz. induction l as [|c l IH]; simpl; [done|].
  assert (Core.collides r a c = Core.collides r b c) as ->; [|by rewrite IH].
  unfold Core.collides, Core.planarDistance. by rewrite Hx, Hz.
Qed.

(** Raising a blocked candidate by 0.1 clears it only by lifting it above 3.0. *)
Lemma elevated_blocked (s : Engine) (newPosition : Vector3.t) :
  Core.checkCollision s newPosition = true ->
  Core.checkCollision s (Player.elevatedPosition newPosition) = false ->
  Vector3.y newPosition <= 3.0 < Vector3.y newPosition + 0.1.
Proof.
  unfold Core.checkCollision. intros Hfull Hup.
  destruct (Rgtb (Vector3.y newPosition) 3.0) eqn:Hy; [done|].
  apply Rgtb_false in Hy. split; [done|].
  destruct (Rgtb (Vector3.y (Player.elevatedPosition newPosition)) 3.0) eqn:Hy'.
  - apply Rgtb_true in Hy'. simpl in Hy'. lra.
  - rewrite (checkCollidables_height _ _ newPosition) in Hup by done. congruence.
Qed.

(** The height after the movement: unchanged, or raised by the 0.1 of the
    step over a low obstacle, which needs a height between 2.9 and 3.0. *)
Lemma walk_height (s : Engine) (deltaTime : R) :
  let y := Vector3.y (p_position (en_player s)) in
  let y' := Vector3.y (p_position (en_player (Player.walk s deltaTime))) in
  y' = y \/ (y' = y + 0.1 /\ 2.9 < y <= 3.0).
Proof.
  intros y y'. unfold y'. rewrite walk_position.
  destruct (Rgtb _ _); [|by left].
  remember (Vector3.add _ _) as newPosition eqn:Hdef.
  assert (Vector3.y newPosition = y) as Hnew.
  { rewrite Hdef, add_y, scaled_y. unfold y. ring. }
  clear Hdef.
  unfold Player.resolve.
  destruct (Core.checkCollision s newPosition) eqn:Hfull; simpl; [|by left].
  destruct (Core.checkCollision s (Player.slideX _ _)); simpl; [|by left].
  destruct (Core.checkCollision s (Player.slideZ _ _)); simpl; [|by left].
  destruct (Core.checkCollision s (Player.elevatedPosition _)) eqn:Hup; simpl; [by left|].
  right. pose proof (elevated_blocked s newPosition Hfull Hup). rewrite Hnew. lra.
Qed.

(** The movement leaves the vertical velocity, the ground flag and the keys. *)
Lemma walk_vertical_state (s : Engine) (deltaTime : R) :
  p_velocity (en_player (Player.walk s deltaTime)) = p_velocity (en_player s)
  /\ p_onGround (en_player (Player.walk s deltaTime)) = p_onGround (en_player s)
  /\ en_keys (Player.walk s deltaTime) = en_keys s.
Proof.
  unfold Player.walk. destruct (basis_state s) as [q ->]. simpl.
  destruct (Rgtb _ _); [|done].
  unfold Player.move. simpl. by destruct (en_targetLocked s).
Qed.

(** Without a jump, a tick of a grounded player is its movement alone. *)
Lemma update_grounded (s : Engine) (deltaTime : R) :
  p_onGround (en_player s) = true -> k_jump (en_keys s) = false ->
  Player.update s deltaTime = Player.walk s deltaTime.
Proof.
  intros Hg Hj. destruct (walk_vertical_state s deltaTime) as (_ & Hg' & Hk').
  unfold Player.update, Player.jump, Player.gravity.
  rewrite Hk', Hj. simpl. by rewrite Hg', Hg.
Qed.

Lemma update_grounded_tick (s : Engine) (deltaTime : R) :
  p_onGround (en_player s) = true -> k_jump (en_keys s) = false ->
  let y := Vector3.y (p_position (en_player s)) in
  let s' := Player.update s deltaTime in
  p_onGround (en_player s') = true
  /\ p_velocity (en_player s') = p_velocity (en_player s)
  /\ (Vector3.y (p_position (en_player s')) = y
      \/ (Vector3.y (p_position (en_player s')) = y + 0.1 /\ 2.9 < y <= 3.0)).
Proof.
  intros Hg Hj y s'. unfold s'. rewrite update_grounded by done.
  destruct (walk_vertical_state s deltaTime) as (Hv & Hg' & _).
  split; [by rewrite Hg'|]. split; [done|]. apply walk_height.
Qed.

Lemma stuck_direction : movementDirection stuck = Vector3.mk 0 0 (-1).
Proof.
  unfold movementDirection. rewrite basis_yaw0 by reflexivity.
  apply vector3_eq; simpl; ring.
Qed.

Lemma stuck_length : Vector3.length (Vector3.mk 0 0 (-1)) = 1.
Proof. unfold Vector3.length. simpl. apply sqrt_eq_bound; lra. Qed.

Lemma stuck_newPosition :
  Vector3.add (p_position (en_player stuck))
    (Player.scaled stuck (movementDirection stuck) 0.1)
  = Vector3.mk 0 3 (-0.5).
Proof.
  unfold Player.scaled. rewrite stuck_direction.
  rewrite (normalize_of_length _ _ stuck_length) by lra.
  apply vector3_eq; simpl; lra.
Qed.

Lemma stuck_blocked (x z : R) :
  x * x + z * z < 0.8 ->
  Core.checkCollision stuck (Vector3.mk x 3 z) = true.
Proof.
  intros H.
  apply (checkCollision_single_radial stuck _ (Vector3.mk 0 0 0) (tree 0 0));
    try done; simpl; [by left | lra |].
  unfold Core.planarDistance. simpl. apply sqrt_lt_bound; [nra | lra | lra].
Qed.

(** Against C9 as the specification states it: for a player flagged as on
    the ground at height 3.0 inside the envelope of a tree, the full
    candidate and both slides are blocked, the candidate raised by 0.1 is
    above 3.0 and therefore clear, and the tick lifts the player to 3.1. *)
Lemma step_up_lifts_grounded_player :
  p_onGround (en_player stuck) = true
  /\ k_jump (en_keys stuck) = false
  /\ Vector3.y (p_position (en_player stuck)) = 3
  /\ Vector3.y (p_position (en_player (Player.update stuck 0.1))) = 3 + 0.1
  /\ Vector3.y (p_position (en_player (Player.update stuck 0.1)))
     <> Vector3.y (p_position (en_player stuck)).
Proof.
  assert (Vector3.y (p_position (en_player (Player.update stuck 0.1))) = 3 + 0.1) as Hup.
  { rewrite update_grounded by reflexivity. rewrite walk_position.
    rewrite stuck_direction, stuck_length, (proj2 (Rgtb_true 1 0)) by lra.
    rewrite <- stuck_direction, stuck_newPosition.
    unfold Player.resolve.
    rewrite (stuck_blocked 0 (-0.5)) by lra. simpl.
    change (Player.slideX _ _) with (Vector3.mk 0 3 0).
    rewrite (stuck_blocked 0 0) by lra. simpl.
    change (Player.slideZ _ _) with (Vector3.mk 0 3 (-0.5)).
    rewrite (stuck_blocked 0 (-0.5)) by lra. simpl.
    assert (Core.checkCollision stuck (Player.elevatedPosition (Vector3.mk 0 3 (-0.5)))
            = false) as ->.
    { apply checkCollision_above. simpl. lra. }
    reflexivity. }
  repeat split; try reflexivity; try done.
  rewrite Hup. simpl. lra.
Qed.

(** C9 (amended). A grounded player whose height is at most 2.9 or above
    3.0 (the ground level 1.0 among them) keeps its height, its velocity and
    its ground flag through any number of ticks without the jump key,
    whatever the other keys, the camera yaw and the frame times. *)
Theorem grounded_is_fixed_point (inputs : list (Keys * R * R)) (s : Engine) :
  p_onGround (en_player s) = true ->
  noJump inputs ->
  Vector3.y (p_position (en_player s)) <= 2.9
    \/ 3.0 < Vector3.y (p_position (en_player s)) ->
  p_onGround (en_player (runTicks inputs s)) = true
  /\ Vector3.y (p_position (en_player (runTicks inputs s)))
     = Vector3.y (p_position (en_player s))
  /\ p_velocity (en_player (runTicks inputs s)) = p_velocity (en_player s).
Proof.
  revert s. induction inputs as [|[[k yaw] deltaTime] inputs IH]; intros s Hg Hj Hy.
  - done.
  - apply Forall_cons in Hj as [Hk Hj]. simpl in Hk. simpl.
    destruct (update_grounded_tick (en_with_input s k yaw) deltaTime Hg Hk)
      as (Hg' & Hv' & Hy').
    simpl in Hy', Hv'.
    assert (Vector3.y (p_position (en_player (Player.update (en_with_input s k yaw) deltaTime)))
            = Vector3.y (p_position (en_player s))) as Hsame.
    { destruct Hy' as [Hy' | [_ Hy']]; [done | lra]. }
    destruct (IH _ Hg' Hj) as (Hg'' & Hy'' & Hv'').
    + by rewrite Hsame.
    + split; [done|]. split; congruence.
Qed.

Lemma grounded_is_fixed_point_witness :
  Vector3.y
    (p_position
       (en_player
          (runTicks [(mkKeys true false false true false, 0, 0.1);
                     (mkKeys false true true false false, PI, 0.02)] alley)))
  = 1.
Proof.
  destruct (grounded_is_fixed_point
              [(mkKeys true false false true false, 0, 0.1);
               (mkKeys false true true false false, PI, 0.02)] alley)
    as (_ & -> & _).
  - reflexivity.
  - repeat constructor.
  - left. simpl. lra.
  - reflexivity.
Defined.

(** * Further properties *)

(** ** The hit detection, enemy by enemy *)







(** ** Removal and the lock *)

Lemma spliceFirst_absent (r : ref) (l : list ref) :
  r ∉ l -> Player.spliceFirst r l = l.
Proof.
  induction l as [|a l IH]; simpl; intros H; [done|].
  apply not_elem_of_cons in H as [Hne H].
  destruct (Nat.eqb_spec a r) as [-> | _]; [done|]. by rewrite IH.
Qed.

Lemma removeEnemy_heap (s : Engine) (r : ref) :
  (forall e, en_heap s !! r = Some e ->
     en_heap (Player.removeEnemy s r) !! r
     = Some (mkEnemy (e_position e) (e_health e) false))
  /\ (en_heap s !! r = None -> en_heap (Player.removeEnemy s r) !! r = None)
  /\ (forall r', r' <> r ->
        en_heap (Player.removeEnemy s r) !! r' = en_heap s !! r').
Proof.
  unfold Player.removeEnemy.
  destruct (en_heap s !! r) as [e|] eqn:Hr; [destruct (e_parent e) eqn:Hpar|];
    destruct (bool_decide (en_currentTarget _ = Some r)); simpl;
    (split; [|split]); try done;
    try (intros e0 [= <-]; rewrite ?lookup_insert_eq, ?Hr; f_equal;
         apply enemy_eq; simpl; done);
    try (intros r' Hne; by rewrite lookup_insert_ne).
Qed.

(** X2. With no enemy listed twice, the removal callback of an enemy takes
    it out for good: afterwards the enemy is not in the array of enemies,
    it is not the current target (the lock is released if it was), its
    object is detached from the scene and otherwise as it was, and every
    other enemy is where it was, in the array and in the scene.  A second
    removal callback for the same enemy therefore changes nothing. *)
Theorem removeEnemy_idempotent (s : Engine) (r : ref) :
  NoDup (en_enemies s) ->
  (r ∉ en_enemies (Player.removeEnemy s r))
  /\ en_currentTarget (Player.removeEnemy s r) <> Some r
  /\ (en_currentTarget s = Some r ->
      en_targetLocked (Player.removeEnemy s r) = false
      /\ en_currentTarget (Player.removeEnemy s r) = None)
  /\ (forall e, en_heap s !! r = Some e ->
        en_heap (Player.removeEnemy s r) !! r
        = Some (mkEnemy (e_position e) (e_health e) false))
  /\ (forall r', r' <> r ->
        en_heap (Player.removeEnemy s r) !! r' = en_heap s !! r'
        /\ (r' ∈ en_enemies (Player.removeEnemy s r) <-> r' ∈ en_enemies s))
  /\ Player.removeEnemy (Player.removeEnemy s r) r = Player.removeEnemy s r.
Proof.
  intros Hnd.
  destruct (removeEnemy_lock s r) as [Hsame Hother].
  destruct (removeEnemy_heap s r) as (Hdetached & _ & Hrest).
  split; [|split; [|split; [|split; [|split]]]].
  - rewrite removeEnemy_enemies. by apply spliceFirst_removes.
  - destruct (decide (en_currentTarget s = Some r)) as [Ht | Ht].
    + destruct (Hsame Ht) as (_ & -> & _). done.
    + destruct (Hother Ht) as (_ & -> & _). done.
  - intros Ht. destruct (Hsame Ht) as (Hl & Hc & _). by split.
  - exact Hdetached.
  - intros r' Hne. split; [by apply Hrest|].
    rewrite removeEnemy_enemies. split.
    + apply spliceFirst_subseteq.
    + intros Hin. by apply spliceFirst_other.
  - pose proof (spliceFirst_absent r _ (spliceFirst_removes r _ Hnd)) as Hsplice.
    unfold Player.removeEnemy.
    destruct (en_heap s !! r) as [e|] eqn:Hr; [destruct (e_parent e) eqn:Hpar|]; simpl;
      destruct (bool_decide (en_currentTarget s = Some r)) eqn:Ht; simpl;
      rewrite ?lookup_insert_eq, ?Hr; simpl; rewrite ?Hpar; simpl;
      rewrite ?Ht; simpl; rewrite Hsplice;
      try reflexivity.
Qed.

Lemma removeEnemy_idempotent_witness :
  (0%nat ∉ en_enemies (Player.removeEnemy finishing 0%nat))
  /\ en_currentTarget (Player.removeEnemy finishing 0%nat) <> Some 0%nat
  /\ Player.removeEnemy (Player.removeEnemy finishing 0%nat) 0%nat
     = Player.removeEnemy finishing 0%nat.
Proof.
  destruct (removeEnemy_idempotent finishing 0%nat) as (H1 & H2 & _ & _ & _ & H3).
  - apply NoDup_singleton.
  - by repeat split.
Defined.

(** X3. Pressing the lock key twice from an unlocked state ends unlocked
    with no target, whether or not an enemy was within range in between;
    the list of live enemies is the same. *)
Theorem toggleTargetLock_twice (s : Engine) :
  en_targetLocked s = false -> en_currentTarget s = None ->
  lockState (Camera.toggleTargetLock (Camera.toggleTargetLock s)) = lockState s
  /\ p_position (en_player (Camera.toggleTargetLock (Camera.toggleTargetLock s)))
     = p_position (en_player s).
Proof.
  intros Hl Ht. pose proof (closest_scanned s) as Hscan.
  destruct (Camera.closest s) as [[r|] [|d]] eqn:Hc; simpl in Hscan; try done.
  - destruct Hscan as (Hin & Hd & (e & Hr & ->) & _).
    destruct (toggleTargetLock_near s Hl) as (r' & e' & Hin' & _ & _ & _ & ->).
    { by exists r, e. }
    rewrite toggleTargetLock_locked by done. simpl.
    destruct (en_enemies s) as [|a l] eqn:He; [by apply elem_of_nil in Hin'|].
    unfold lockState. simpl. by rewrite Hl, Ht, He.
  - by rewrite !(toggleTargetLock_far s Hl).
Qed.

Lemma toggleTargetLock_twice_witness :
  lockState (Camera.toggleTargetLock (Camera.toggleTargetLock duel)) = lockState duel.
Proof. by destruct (toggleTargetLock_twice duel eq_refl eq_refl). Defined.

(** ** The swing of the sword *)

Lemma directlyAhead_player (s s' : Engine) (e : EnemyObj) :
  en_player s' = en_player s -> directlyAhead s e -> directlyAhead s' e.
Proof. unfold directlyAhead, forwardOf. by intros ->. Qed.

(** X4. An attack started while the lock is held first turns the player to
    the target: afterwards the target is straight ahead of a horizontal
    facing (unless it is exactly above or below the player). *)
Theorem attack_faces_target (s : Engine) (now : R) (r : ref) (e : EnemyObj) :
  p_isAttacking (en_player s) = false ->
  en_targetLocked s = true -> en_currentTarget s = Some r ->
  en_heap s !! r = Some e ->
  Core.planarDistance (e_position e) (p_position (en_player s)) <> 0 ->
  directlyAhead (Player.attack s now) e.
Proof.
  intros Hidle Hl Ht Hr Hplanar.
  set (s1 := en_with_player s (p_with_isAttacking (en_player s) true)).
  apply (directlyAhead_player
           (en_with_player s1
              (p_with_quaternion (en_player s1)
                 (Object3D.lookAt (p_position (en_player s1))
                    (Camera.faceTarget (p_position (en_player s1)) (e_position e)))))).
  - unfold Player.attack. rewrite Hidle. fold s1.
    assert (lockedTarget s1 = Some e) as ->; [|reflexivity].
    unfold lockedTarget. simpl. by rewrite Hl, Ht.
  - by apply faceTarget_directlyAhead.
Qed.

Lemma attack_faces_target_witness :
  directlyAhead (Player.attack finishing 0) (mkEnemy (Vector3.mk 0 0 1) 1 true).
Proof.
  apply (attack_faces_target finishing 0 0%nat); try reflexivity.
  unfold Core.planarDistance. simpl.
  rewrite (sqrt_eq_bound _ 1); lra.
Defined.

Lemma easeOutQuad_range (t : R) : 0 <= t <= 1 -> 0 <= Core.easeOutQuad t <= 1.
Proof. unfold Core.easeOutQuad. intros H. nra. Qed.

Lemma easeInOutQuad_range (t : R) : 0 <= t <= 1 -> 0 <= Core.easeInOutQuad t <= 1.
Proof.
  unfold Core.easeInOutQuad. intros H.
  destruct (Rltb t 0.5) eqn:Ht.
  - apply Rltb_true in Ht. nra.
  - apply Rltb_false in Ht. simpl. nra.
Qed.

(** X5. The easing curves run from 0 at 0 to 1 at 1 and never turn back in
    between; the in-out curve passes through 1/2 at 1/2, where its two
    branches meet. *)
Theorem easing_monotone (a b : R) :
  0 <= a -> a <= b -> b <= 1 ->
  Core.easeOutQuad 0 = 0 /\ Core.easeOutQuad 1 = 1
  /\ Core.easeInOutQuad 0 = 0 /\ Core.easeInOutQuad 1 = 1
  /\ Core.easeInOutQuad 0.5 = 0.5
  /\ Core.easeOutQuad a <= Core.easeOutQuad b
  /\ Core.easeInOutQuad a <= Core.easeInOutQuad b.
Proof.
  intros Ha Hab Hb.
  assert (forall t, Rltb t 0.5 = true -> t < 0.5) as Hlt by (intros t; apply Rltb_true).
  assert (forall t, Rltb t 0.5 = false -> 0.5 <= t) as Hge by (intros t; apply Rltb_false).
  unfold Core.easeOutQuad, Core.easeInOutQuad.
  repeat split.
  - ring.
  - ring.
  - destruct (Rltb 0 0.5) eqn:H0; [ring | apply Hge in H0; lra].
  - destruct (Rltb 1 0.5) eqn:H1; [apply Hlt in H1; lra | simpl; lra].
  - destruct (Rltb 0.5 0.5) eqn:H5; [apply Hlt in H5; lra | simpl; lra].
  - nra.
  - destruct (Rltb a 0.5) eqn:Ha5, (Rltb b 0.5) eqn:Hb5;
      try apply Hlt in Ha5; try apply Hlt in Hb5;
      try apply Hge in Ha5; try apply Hge in Hb5; simpl; nra.
Qed.

Lemma easing_monotone_witness :
  Core.easeInOutQuad 0.25 <= Core.easeInOutQuad 0.75.
Proof.
  destruct (easing_monotone 0.25 0.75) as (_ & _ & _ & _ & _ & _ & H); [lra | lra | lra |].
  exact H.
Defined.

Lemma runFrame_single (s : Engine) (cb : FrameCallback) (timestamp : R) :
  en_frames s = [cb] ->
  runFrame s timestamp = runFrameCallback timestamp (en_with_frames s []) cb.
Proof. intros H. unfold runFrame. by rewrite H. Qed.

Lemma animateSwordSwing_early (s : Engine) (initialRotation startTime timestamp : R) :
  p_isAttacking (en_player s) = true -> timestamp - startTime < 400 ->
  let s' := Player.animateSwordSwing s initialRotation startTime timestamp in
  p_isAttacking (en_player s') = true
  /\ en_frames s' = en_frames s ++ [AnimateSwordSwing initialRotation startTime]
  /\ en_timers s' = en_timers s.
Proof.
  intros Hatt Hearly. unfold Player.animateSwordSwing. rewrite Hatt. simpl negb.
  cbv iota.
  assert (Rltb (Rmin ((timestamp - startTime) / 400) 1) 1 = true) as ->.
  { apply Rltb_true. unfold Rmin. destruct (Rle_dec _ _); lra. }
  destruct (Rltb _ 0.5); simpl; done.
Qed.

Lemma animateSwordSwing_late (s : Engine) (initialRotation startTime timestamp : R) :
  p_isAttacking (en_player s) = true -> 400 <= timestamp - startTime ->
  let s' := Player.animateSwordSwing s initialRotation startTime timestamp in
  p_isAttacking (en_player s') = false
  /\ en_frames s' = en_frames s
  /\ en_timers s' = en_timers s
  /\ p_swordRotationX (en_player s') = initialRotation
  /\ p_swordHolderRotationY (en_player s') = 0.
Proof.
  intros Hatt Hlate. unfold Player.animateSwordSwing. rewrite Hatt. simpl negb.
  cbv iota.
  assert (Rltb (Rmin ((timestamp - startTime) / 400) 1) 1 = false) as ->.
  { apply Rltb_false. unfold Rmin. destruct (Rle_dec _ _); lra. }
  simpl. done.
Qed.

(** X6. After [attack], the next animation frame keeps the swing going and
    requests one more frame while fewer than 400 ms have passed, and a
    further [attack] is then still refused; at 400 ms or later the frame
    ends the swing: the attacking flag is cleared, the sword is back at its
    initial rotation, the holder at 0, and no frame is pending.  Either way
    the hit detection stays scheduled: the animation does not touch it. *)
Theorem swing_lifecycle (s : Engine) (now timestamp : R) :
  p_isAttacking (en_player s) = false -> en_frames s = [] ->
  let s' := runFrame (Player.attack s now) timestamp in
  en_timers s' = en_timers s ++ [(200, HitDetection)]
  /\ (timestamp - now < 400 ->
      p_isAttacking (en_player s') = true
      /\ en_frames s' = [AnimateSwordSwing (p_swordRotationX (en_player s)) now]
      /\ Player.attack s' timestamp = s')
  /\ (400 <= timestamp - now ->
      p_isAttacking (en_player s') = false
      /\ en_frames s' = []
      /\ p_swordRotationX (en_player s') = p_swordRotationX (en_player s)
      /\ p_swordHolderRotationY (en_player s') = 0).
Proof.
  intros Hidle Hframes s'.
  destruct (attack_starts s now Hidle) as (Hatt & Htimers & Hfr).
  rewrite Hframes in Hfr. simpl in Hfr.
  assert (s' = Player.animateSwordSwing (en_with_frames (Player.attack s now) [])
                 (p_swordRotationX (en_player s)) now timestamp) as Hs'.
  { unfold s'. by rewrite (runFrame_single _ _ _ Hfr). }
  clearbody s'. subst s'.
  set (s1 := en_with_frames (Player.attack s now) []).
  assert (p_isAttacking (en_player s1) = true) as Hatt1 by exact Hatt.
  split; [|split].
  - destruct (Rlt_dec (timestamp - now) 400) as [Hearly | Hlate].
    + destruct (animateSwordSwing_early s1 (p_swordRotationX (en_player s)) now
                  timestamp Hatt1 Hearly) as (_ & _ & ->).
      exact Htimers.
    + destruct (animateSwordSwing_late s1 (p_swordRotationX (en_player s)) now
                  timestamp Hatt1) as (_ & _ & -> & _); [lra|].
      exact Htimers.
  - intros Hearly.
    destruct (animateSwordSwing_early s1 (p_swordRotationX (en_player s)) now
                timestamp Hatt1 Hearly) as (Hflag & Hfr' & _).
    split; [done|]. split; [exact Hfr'|].
    unfold Player.attack at 1. by rewrite Hflag.
  - intros Hlate.
    destruct (animateSwordSwing_late s1 (p_swordRotationX (en_player s)) now
                timestamp Hatt1 Hlate) as (Hflag & Hfr' & _ & Hx & Hy).
    split; [done|]. split; [exact Hfr'|]. by split.
Qed.

Lemma swing_lifecycle_witness :
  p_isAttacking (en_player (runFrame (Player.attack duel 0) 416)) = false
  /\ en_frames (runFrame (Player.attack duel 0) 416) = [].
Proof.
  destruct (swing_lifecycle duel 0 416 eq_refl eq_refl) as (_ & _ & Hlate).
  destruct Hlate as (Hflag & Hfr & _); [lra|]. by split.
Defined.

(** X7. While the swing runs, a frame at or after its start leaves the
    sword holder between -PI/2 and 0 and the sword between its initial
    rotation and PI/4 beyond it: the swing never overshoots. *)
Theorem swing_angles_bounded (s : Engine) (initialRotation startTime timestamp : R) :
  p_isAttacking (en_player s) = true -> startTime <= timestamp ->
  let s' := Player.animateSwordSwing s initialRotation startTime timestamp in
  - PI / 2 <= p_swordHolderRotationY (en_player s') <= 0
  /\ initialRotation <= p_swordRotationX (en_player s') <= initialRotation + PI / 4.
Proof.
  intros Hatt Htime s'. unfold s', Player.animateSwordSwing. rewrite Hatt. simpl negb.
  cbv iota. pose proof PI_RGT_0 as Hpi.
  set (progress := Rmin ((timestamp - startTime) / 400) 1).
  assert (0 <= progress <= 1) as Hprog.
  { unfold progress, Rmin. destruct (Rle_dec _ _); lra. }
  destruct (Rltb progress 1) eqn:Hp.
  - destruct (Rltb progress 0.5) eqn:Hhalf; simpl.
    + apply Rltb_true in Hhalf.
      pose proof (easeOutQuad_range (progress * 2)) as He.
      unfold Core.lerp. nra.
    + apply Rltb_false in Hhalf.
      pose proof (easeInOutQuad_range ((progress - 0.5) * 2)) as He.
      unfold Core.lerp. nra.
  - simpl. lra.
Qed.

Lemma swing_angles_bounded_witness :
  - PI / 2
  <= p_swordHolderRotationY
       (en_player (Player.animateSwordSwing (Player.attack duel 0) 0 0 100))
  <= 0.
Proof.
  destruct (swing_angles_bounded (Player.attack duel 0) 0 0 100) as [H _];
    [reflexivity | lra | exact H].
Defined.

(** ** Jumping and falling *)

(** One tick of gravity on a player in the air: it lands at exactly 1.0,
    at rest, or stays in the air above 1.0. *)
Lemma gravity_airborne (s : Engine) (deltaTime : R) :
  p_onGround (en_player s) = false ->
  let v := Vector3.y (p_velocity (en_player s)) - 9.8 * deltaTime in
  let y := Vector3.y (p_position (en_player s)) + v * deltaTime in
  let s' := Player.gravity s deltaTime in
  (y <= 1.0 /\ p_onGround (en_player s') = true
   /\ Vector3.y (p_position (en_player s')) = 1.0
   /\ Vector3.y (p_velocity (en_player s')) = 0)
  \/ (1.0 < y /\ p_onGround (en_player s') = false
      /\ Vector3.y (p_position (en_player s')) = y
      /\ Vector3.y (p_velocity (en_player s')) = v).
Proof.
  intros Hair v y s'. unfold s', Player.gravity. rewrite Hair. simpl negb. cbv iota.
  cbn [p_position p_with_position p_velocity p_with_velocity Vector3.y Vector3.set_y].
  fold v. fold y.
  destruct (Rleb y 1.0) eqn:Hy.
  - apply Rleb_true in Hy. left. simpl. done.
  - apply Rleb_false in Hy. right. simpl. done.
Qed.

Lemma gravity_grounded (s : Engine) (deltaTime : R) :
  p_onGround (en_player s) = true -> Player.gravity s deltaTime = s.
Proof. intros H. unfold Player.gravity. by rewrite H. Qed.

Lemma jump_cases (s : Engine) :
  (k_jump (en_keys s) = true /\ p_onGround (en_player s) = true
   /\ p_onGround (en_player (Player.jump s)) = false)
  \/ ((k_jump (en_keys s) = false \/ p_onGround (en_player s) = false)
      /\ Player.jump s = s).
Proof.
  unfold Player.jump.
  destruct (k_jump (en_keys s)), (p_onGround (en_player s)); simpl; auto.
Qed.

(** X8. After any tick a player that is not on the ground is above the
    ground level 1.0; and a tick that ends a flight (the player was in the
    air, or jumped in this tick) leaves the player at exactly 1.0 with no
    vertical velocity. *)
Theorem update_lands_at_ground_level (s : Engine) (deltaTime : R) :
  let s' := Player.update s deltaTime in
  (p_onGround (en_player s') = false -> 1.0 < Vector3.y (p_position (en_player s')))
  /\ (p_onGround (en_player s) = false \/ k_jump (en_keys s) = true ->
      p_onGround (en_player s') = true ->
      Vector3.y (p_position (en_player s')) = 1.0
      /\ Vector3.y (p_velocity (en_player s')) = 0).
Proof.
  intros s'. unfold s', Player.update.
  destruct (walk_vertical_state s deltaTime) as (_ & Hg & Hk).
  set (w := Player.walk s deltaTime) in *.
  destruct (jump_cases w) as [(Hj & Hgw & Hair) | (Hno & ->)].
  - destruct (gravity_airborne (Player.jump w) deltaTime Hair)
      as [(_ & Hl & Hy & Hv) | (Hy & Hl & Hy' & _)].
    + split; [intros H; congruence | done].
    + split; [intros _; lra | intros _ H; congruence].
  - destruct (p_onGround (en_player w)) eqn:Hgw.
    + rewrite gravity_grounded by done. split; [intros H; congruence|].
      intros [H | H]; [congruence|]. destruct Hno as [Hno | Hno]; congruence.
    + destruct (gravity_airborne w deltaTime Hgw)
        as [(_ & Hl & Hy & Hv) | (Hy & Hl & Hy' & _)].
      * split; [intros H; congruence | done].
      * split; [intros _; lra | intros _ H; congruence].
Qed.

Lemma checkCollision_ext (a b : Engine) (position : Vector3.t) :
  en_player a = en_player b -> en_collidables a = en_collidables b ->
  Core.checkCollision a position = Core.checkCollision b position.
Proof. intros Hp Hc. unfold Core.checkCollision. by rewrite Hp, Hc. Qed.

Lemma resolve_ext (a b : Engine) (newPosition : Vector3.t) :
  en_player a = en_player b -> en_collidables a = en_collidables b ->
  Player.resolve a newPosition = Player.resolve b newPosition.
Proof.
  intros Hp Hc. unfold Player.resolve.
  rewrite !(checkCollision_ext a b) by done. by rewrite Hp.
Qed.

Lemma move_player_ext (a b : Engine) (d : Vector3.t) (deltaTime : R) :
  en_player a = en_player b -> en_collidables a = en_collidables b ->
  en_targetLocked a = en_targetLocked b ->
  en_player (Player.move a d deltaTime) = en_player (Player.move b d deltaTime).
Proof.
  intros Hp Hc Hl. unfold Player.move, Player.scaled.
  rewrite (resolve_ext a b) by done. rewrite Hp. simpl. rewrite Hl.
  by destruct (en_targetLocked b).
Qed.

(** The movement reads the player, the collidables, the lock with its
    target, the camera yaw and the four movement keys. *)
Lemma walk_player_ext (a b : Engine) (deltaTime : R) :
  en_player a = en_player b -> en_collidables a = en_collidables b ->
  en_targetLocked a = en_targetLocked b -> lockedTarget a = lockedTarget b ->
  en_cameraRotationY a = en_cameraRotationY b ->
  (forall f r, Player.accumulate (en_keys a) f r = Player.accumulate (en_keys b) f r) ->
  en_player (Player.walk a deltaTime) = en_player (Player.walk b deltaTime).
Proof.
  intros Hp Hc Hl Ht Hy Hk. unfold Player.walk, Player.basis. rewrite Ht, Hp, Hy.
  destruct (lockedTarget b); cbn [fst snd]; cbn [en_keys en_with_player]; rewrite Hk;
    (destruct (Rgtb _ _); [|by cbn [en_player en_with_player]]);
    apply move_player_ext; by cbn [en_player en_with_player en_collidables en_targetLocked].
Qed.

Lemma walk_ignores_jump_key (s : Engine) (k : Keys) (yaw deltaTime : R) (b b' : bool) :
  en_player (Player.walk (en_with_input s (withJump k b) yaw) deltaTime)
  = en_player (Player.walk (en_with_input s (withJump k b') yaw) deltaTime).
Proof. by apply walk_player_ext. Qed.

Lemma gravity_player (a b : Engine) (deltaTime : R) :
  en_player a = en_player b ->
  en_player (Player.gravity a deltaTime) = en_player (Player.gravity b deltaTime).
Proof.
  intros H. unfold Player.gravity. rewrite H.
  destruct (p_onGround (en_player b)); simpl; [done|].
  by destruct (Rleb _ _).
Qed.

(** X9. The jump key does nothing in the air: a tick of an airborne player
    leaves the same player whether the key is held or not.  On the ground
    it sets the vertical velocity to the jump height before gravity acts. *)
Theorem jump_needs_ground (s : Engine) (k : Keys) (yaw deltaTime : R) :
  (p_onGround (en_player s) = false ->
   en_player (Player.update (en_with_input s (withJump k true) yaw) deltaTime)
   = en_player (Player.update (en_with_input s (withJump k false) yaw) deltaTime))
  /\ (p_onGround (en_player s) = true ->
      Vector3.y (p_velocity
                   (en_player (Player.jump
                                 (Player.walk (en_with_input s (withJump k true) yaw)
                                    deltaTime))))
      = p_jumpHeight (en_player s)).
Proof.
  split.
  - intros Hair. unfold Player.update. apply gravity_player.
    destruct (walk_vertical_state (en_with_input s (withJump k true) yaw) deltaTime)
      as (_ & Hg1 & _).
    destruct (walk_vertical_state (en_with_input s (withJump k false) yaw) deltaTime)
      as (_ & Hg2 & _).
    simpl in Hg1, Hg2. rewrite Hair in Hg1, Hg2.
    unfold Player.jump. rewrite Hg1, Hg2, !andb_false_r.
    apply walk_ignores_jump_key.
  - intros Hg.
    destruct (walk_vertical_state (en_with_input s (withJump k true) yaw) deltaTime)
      as (_ & Hg' & Hk').
    simpl in Hg', Hk'. unfold Player.jump. rewrite Hk', Hg', Hg. simpl.
    unfold Player.walk, Player.move, Player.basis.
    destruct (lockedTarget _); simpl;
      repeat match goal with
             | |- context [if ?b then _ else _] => destruct b; simpl
             end; reflexivity.
Qed.

(** *** Every flight ends *)

Lemma standing_direction (s : Engine) :
  standing (en_keys s) -> movementDirection s = Vector3.mk 0 0 0.
Proof.
  intros (Hf & Hb & Hl & Hr). unfold movementDirection, Player.accumulate.
  by rewrite Hf, Hb, Hl, Hr.
Qed.

Lemma standing_walk (s : Engine) (deltaTime : R) :
  standing (en_keys s) ->
  p_position (en_player (Player.walk s deltaTime)) = p_position (en_player s).
Proof.
  intros Hs. rewrite walk_position, (standing_direction s Hs).
  assert (Rgtb (Vector3.length (Vector3.mk 0 0 0)) 0 = false) as ->; [|done].
  apply Rgtb_false. unfold Vector3.length. simpl.
  replace (0 * 0 + 0 * 0 + 0 * 0) with 0 by ring. rewrite sqrt_0. lra.
Qed.

(** A tick of an airborne player who holds no movement key. *)
Lemma tick_airborne (s : Engine) (k : Keys) (yaw deltaTime : R) :
  standing k -> p_onGround (en_player s) = false ->
  let s' := Player.update (en_with_input s k yaw) deltaTime in
  let v := Vector3.y (p_velocity (en_player s)) - 9.8 * deltaTime in
  p_onGround (en_player s') = true
  \/ (p_onGround (en_player s') = false
      /\ Vector3.y (p_velocity (en_player s')) = v
      /\ Vector3.y (p_position (en_player s'))
         = Vector3.y (p_position (en_player s)) + v * deltaTime
      /\ 1.0 < Vector3.y (p_position (en_player s'))).
Proof.
  intros Hk Hair s' v. unfold s', Player.update.
  set (s0 := en_with_input s k yaw).
  destruct (walk_vertical_state s0 deltaTime) as (Hv & Hg & Hkeys).
  pose proof (standing_walk s0 deltaTime Hk) as Hpos.
  set (w := Player.walk s0 deltaTime) in *.
  assert (p_onGround (en_player w) = false) as Hgw by (rewrite Hg; exact Hair).
  assert (Player.jump w = w) as ->.
  { unfold Player.jump. by rewrite Hgw, andb_false_r. }
  destruct (gravity_airborne w deltaTime Hgw)
    as [(_ & Hl & _) | (Hy & Hl & Hy' & Hv')]; [by left|].
  right. rewrite Hv, Hpos in *. simpl in *. fold v in Hy, Hy', Hv'.
  repeat split; try done. by rewrite Hy'.
Qed.

Lemma runTicks_app (l l' : list (Keys * R * R)) (s : Engine) :
  runTicks (l ++ l') s = runTicks l' (runTicks l s).
Proof.
  revert s. induction l as [|[[k yaw] dt] l IH]; intros s; simpl; [done|]. apply IH.
Qed.

Lemma repeat_snoc {A : Type} (a : A) (n : nat) :
  repeat a (S n) = repeat a n ++ [a].
Proof. induction n as [|n IH]; simpl; [done|]. simpl in IH. by rewrite <- IH. Qed.

(** As long as the player stays in the air, the flight is a parabola. *)
Lemma flight (s : Engine) (k : Keys) (yaw deltaTime : R) (n : nat) :
  standing k -> p_onGround (en_player s) = false ->
  let s' := runTicks (repeat (k, yaw, deltaTime) n) s in
  (exists m, p_onGround (en_player (runTicks (repeat (k, yaw, deltaTime) m) s)) = true)
  \/ (p_onGround (en_player s') = false
      /\ Vector3.y (p_velocity (en_player s'))
         = Vector3.y (p_velocity (en_player s)) - 9.8 * deltaTime * INR n
      /\ Vector3.y (p_position (en_player s'))
         = Vector3.y (p_position (en_player s))
           + deltaTime * (INR n * Vector3.y (p_velocity (en_player s))
                          - 4.9 * deltaTime * INR n * (INR n + 1))
      /\ (n = 0%nat \/ 1.0 < Vector3.y (p_position (en_player s')))).
Proof.
  intros Hk Hair. induction n as [|n IH].
  - right. simpl. repeat split; try done; try lra. by left.
  - destruct IH as [Hdone | (Hair' & Hv & Hy & _)]; [by left|].
    rewrite repeat_snoc. cbv zeta. rewrite runTicks_app.
    set (sn := runTicks (repeat (k, yaw, deltaTime) n) s) in *.
    change (runTicks [(k, yaw, deltaTime)] sn)
      with (Player.update (en_with_input sn k yaw) deltaTime).
    destruct (tick_airborne sn k yaw deltaTime Hk Hair')
      as [Hland | (Hair'' & Hv' & Hy' & Habove)].
    + left. exists (S n). rewrite repeat_snoc, runTicks_app. exact Hland.
    + right. rewrite S_INR. repeat split; try done.
      * rewrite Hv', Hv. ring.
      * rewrite Hy', Hy, Hv. replace 4.9 with (9.8 / 2) by lra. field.
      * by right.
Qed.

(** X10. Every flight ends: with a constant positive frame time and no
    movement key held, a player is on the ground after finitely many
    ticks, whatever its height and vertical velocity at the start. *)
Theorem flight_ends (s : Engine) (k : Keys) (yaw deltaTime : R) :
  0 < deltaTime -> standing k ->
  exists n,
    p_onGround (en_player (runTicks (repeat (k, yaw, deltaTime) n) s)) = true.
Proof.
  intros Hdt Hk.
  destruct (p_onGround (en_player s)) eqn:Hg; [by exists 0%nat|].
  set (v0 := Vector3.y (p_velocity (en_player s))).
  set (y0 := Vector3.y (p_position (en_player s))).
  destruct (INR_unbounded
              ((Rabs (deltaTime * v0) + Rabs (y0 - 1)) / (4.9 * deltaTime * deltaTime) + 1))
    as [n Hn].
  destruct (flight s k yaw deltaTime n Hk Hg) as [Hdone | (_ & _ & Hy & Habove)];
    [exact Hdone|].
  exfalso. fold v0 y0 in Hy.
  assert (0 < 4.9 * deltaTime * deltaTime) as Ha by nra.
  pose proof (Rabs_pos (deltaTime * v0)) as Hb.
  pose proof (Rabs_pos (y0 - 1)) as Hc.
  pose proof (Rle_abs (deltaTime * v0)) as Hb'.
  pose proof (Rle_abs (y0 - 1)) as Hc'.
  assert (0 <= (Rabs (deltaTime * v0) + Rabs (y0 - 1)) / (4.9 * deltaTime * deltaTime))
    as Hq.
  { unfold Rdiv. apply Rmult_le_pos; [lra|].
    apply Rlt_le. by apply Rinv_0_lt_compat. }
  assert (1 < INR n) as Hn1 by lra.
  assert (Rabs (deltaTime * v0) + Rabs (y0 - 1) < 4.9 * deltaTime * deltaTime * INR n)
    as Hbig.
  { apply Rmult_lt_reg_r with (/ (4.9 * deltaTime * deltaTime)).
    - by apply Rinv_0_lt_compat.
    - replace (4.9 * deltaTime * deltaTime * INR n * / (4.9 * deltaTime * deltaTime))
        with (INR n) by (field; lra).
      unfold Rdiv in Hn, Hq. lra. }
  destruct Habove as [-> | Habove]; [simpl in Hn1; lra|].
  rewrite Hy in Habove.
  assert (deltaTime * (INR n * v0 - 4.9 * deltaTime * INR n * (INR n + 1))
          = INR n * (deltaTime * v0) - 4.9 * deltaTime * deltaTime * INR n * INR n
            - 4.9 * deltaTime * deltaTime * INR n) as Heq by ring.
  rewrite Heq in Habove.
  assert (INR n * (deltaTime * v0) <= INR n * Rabs (deltaTime * v0)) as H1
    by (apply Rmult_le_compat_l; lra).
  assert (INR n * (Rabs (deltaTime * v0) + Rabs (y0 - 1))
          <= INR n * (4.9 * deltaTime * deltaTime * INR n)) as H2
    by (apply Rmult_le_compat_l; lra).
  assert (Rabs (y0 - 1) <= INR n * Rabs (y0 - 1)) as H3.
  { replace (Rabs (y0 - 1)) with (1 * Rabs (y0 - 1)) at 1 by ring.
    apply Rmult_le_compat_r; lra. }
  lra.
Qed.

Lemma flight_ends_witness :
  exists n,
    p_onGround
      (en_player (runTicks (repeat (noKeys, 0, 0.016) n)
                    (en_with_player hovering
                       (p_with_onGround (en_player hovering) false)))) = true.
Proof.
  apply flight_ends; [lra|]. by repeat split.
Defined.

(** *** Player.resetPosition *)

Lemma checkCollision_radius (a b : Engine) (position : Vector3.t) :
  p_radius (en_player a) = p_radius (en_player b) ->
  en_collidables a = en_collidables b ->
  Core.checkCollision a position = Core.checkCollision b position.
Proof. intros Hr Hc. unfold Core.checkCollision. by rewrite Hr, Hc. Qed.

Lemma find_ext {A : Type} (f g : A -> bool) (l : list A) :
  (forall a, f a = g a) -> find f l = find g l.
Proof. intros H. induction l as [|a l IH]; simpl; [done|]. by rewrite H, IH. Qed.

Lemma resetPosition_find (s : Engine) :
  find (fun pos => negb (Core.checkCollision (Player.resetPosition s) pos))
    Player.testPositions
  = find (fun pos => negb (Core.checkCollision s pos)) Player.testPositions.
Proof.
  apply find_ext. intros pos. f_equal. apply checkCollision_radius.
  - unfold Player.resetPosition. by destruct (find _ _).
  - unfold Player.resetPosition. by destruct (find _ _).
Qed.

Lemma find_first {A : Type} (f : A -> bool) (l : list A) (x : A) :
  find f l = Some x ->
  exists i, l !! i = Some x /\ f x = true
            /\ forall j y, (j < i)%nat -> l !! j = Some y -> f y = false.
Proof.
  induction l as [|a l IH]; simpl; [done|].
  destruct (f a) eqn:Ha.
  - intros [= <-]. exists 0%nat. repeat split; try done. intros j y Hj. lia.
  - intros Hf. destruct (IH Hf) as (i & Hi & Hx & Hbefore).
    exists (S i). repeat split; try done.
    intros [|j] y Hj Hy; simpl in Hy.
    + by injection Hy as <-.
    + apply (Hbefore j); [lia | done].
Qed.

(** X11. [resetPosition] tries the five test positions (0, 0.5, 0),
    (5, 0.5, 5), (-5, 0.5, -5), (10, 0.5, 0), (0, 0.5, 10) in this order
    and puts the player on the first that is free of collisions, every
    earlier one being blocked, flagged as on the ground; when all five are
    blocked it puts the player at (0, 5, 0) with the ground flag as it
    was.  Either way the player is at rest at a position free of
    collisions, and resetting again changes nothing. *)
Theorem resetPosition_settles (s : Engine) :
  let s' := Player.resetPosition s in
  let tests :=
    [Vector3.mk 0 0.5 0; Vector3.mk 5 0.5 5; Vector3.mk (-5) 0.5 (-5);
     Vector3.mk 10 0.5 0; Vector3.mk 0 0.5 10] in
  Core.checkCollision s' (p_position (en_player s')) = false
  /\ p_velocity (en_player s') = Vector3.mk 0 0 0
  /\ ((exists i pos,
         tests !! i = Some pos
         /\ Core.checkCollision s pos = false
         /\ (forall j earlier, (j < i)%nat -> tests !! j = Some earlier ->
               Core.checkCollision s earlier = true)
         /\ p_position (en_player s') = pos
         /\ p_onGround (en_player s') = true)
      \/ (Forall (fun pos => Core.checkCollision s pos = true) tests
          /\ p_position (en_player s') = Vector3.mk 0 5 0
          /\ p_onGround (en_player s') = p_onGround (en_player s)))
  /\ Player.resetPosition s' = s'.
Proof.
  cbv zeta.
  assert (forall pos, Core.checkCollision (Player.resetPosition s) pos
                      = Core.checkCollision s pos) as Hsame.
  { intros pos. apply checkCollision_radius; unfold Player.resetPosition;
      by destruct (find _ _). }
  assert (Player.resetPosition (Player.resetPosition s) = Player.resetPosition s)
    as Hidem.
  { unfold Player.resetPosition at 1. rewrite (resetPosition_find s).
    unfold Player.resetPosition.
    destruct (find _ _); by destruct s as [[] ? ? ? ? ? ? ? ? ? ? ? ? ?]. }
  split; [|split; [|split; [|exact Hidem]]].
  - rewrite Hsame. clear Hsame Hidem. unfold Player.resetPosition.
    destruct (find _ _) as [pos|] eqn:Hf; simpl.
    + apply find_some in Hf as [_ Hf]. by apply negb_true_iff in Hf.
    + apply checkCollision_above. simpl. lra.
  - clear Hsame Hidem. unfold Player.resetPosition. by destruct (find _ _).
  - clear Hsame Hidem. unfold Player.resetPosition.
    destruct (find _ _) as [pos|] eqn:Hf; simpl.
    + left. destruct (find_first _ _ _ Hf) as (i & Hi & Hfree & Hbefore).
      exists i, pos. split; [exact Hi|]. split; [by apply negb_true_iff in Hfree|].
      split; [|done]. intros j earlier Hj Hearlier.
      apply negb_false_iff. by apply (Hbefore j).
    + right. repeat split; try done. apply Forall_forall. intros pos Hin.
      apply list_elem_of_In in Hin.
      pose proof (find_none _ _ Hf pos Hin) as Hb. by apply negb_false_iff in Hb.
Qed.

(** With a tree at the origin the first test position is blocked and the
    player lands on the second. *)
Lemma resetPosition_settles_witness :
  p_position (en_player (Player.resetPosition grove)) = Vector3.mk 5 0.5 5.
Proof.
  assert (Core.checkCollision grove (Vector3.mk 0 0.5 0) = true) as Hfirst.
  { apply (checkCollision_single_radial grove _ (Vector3.mk 0 0 0) (tree 0 0));
      try done; simpl; [by left | lra |].
    unfold Core.planarDistance; simpl. apply sqrt_lt_bound; lra. }
  assert (Core.checkCollision grove (Vector3.mk 5 0.5 5) = false) as Hsecond.
  { apply not_true_is_false.
    rewrite (checkCollision_single_radial grove _ (Vector3.mk 0 0 0) (tree 0 0));
      try done; simpl; [| by left | lra].
    unfold Core.planarDistance; simpl.
    assert (5 <= sqrt ((5 - 0) * (5 - 0) + (5 - 0) * (5 - 0)))
      by (apply sqrt_le_bound; lra).
    lra. }
  destruct (resetPosition_settles grove) as (_ & _ & Hcase & _).
  destruct Hcase as [(i & pos & Hi & Hfree & Hbefore & -> & _) | (Hall & _)].
  - destruct i as [|[|i]].
    + injection Hi as <-. congruence.
    + by injection Hi as <-.
    + specialize (Hbefore 1%nat (Vector3.mk 5 0.5 5)). rewrite Hbefore in Hsecond.
      * discriminate.
      * lia.
      * reflexivity.
  - apply Forall_cons in Hall as [_ Hall]. apply Forall_cons in Hall as [Hall _].
    congruence.
Defined.

(** *** The movement of a tick *)

Lemma walk_frame (s : Engine) (deltaTime : R) :
  p_radius (en_player (Player.walk s deltaTime)) = p_radius (en_player s)
  /\ en_collidables (Player.walk s deltaTime) = en_collidables s.
Proof.
  unfold Player.walk. destruct (basis_state s) as [q ->]. simpl.
  destruct (Rgtb _ _); [|done].
  unfold Player.move. simpl. by destruct (en_targetLocked s).
Qed.

Lemma resolve_clear (s : Engine) (newPosition : Vector3.t) :
  Player.resolve s newPosition = p_position (en_player s)
  \/ Core.checkCollision s (Player.resolve s newPosition) = false.
Proof.
  unfold Player.resolve.
  destruct (Core.checkCollision s newPosition) eqn:H1; simpl; [|by right].
  destruct (Core.checkCollision s (Player.slideX _ _)) eqn:H2; simpl; [|by right].
  destruct (Core.checkCollision s (Player.slideZ _ _)) eqn:H3; simpl; [|by right].
  destruct (Core.checkCollision s (Player.elevatedPosition _)) eqn:H4; simpl;
    [by left | by right].
Qed.

(** X12. The movement of a tick never commits a blocked position: the
    position after it is the one before, or one [checkCollision] rejects
    no collidable at.  A player who stands clear of every collidable
    therefore still does after walking, whatever the keys. *)
Theorem walk_never_enters (s : Engine) (deltaTime : R) :
  let position := p_position (en_player s) in
  let s' := Player.walk s deltaTime in
  (p_position (en_player s') = position
   \/ Core.checkCollision s (p_position (en_player s')) = false)
  /\ (Core.checkCollision s position = false ->
      Core.checkCollision s' (p_position (en_player s')) = false).
Proof.
  intros position s'.
  assert (p_position (en_player s') = position
          \/ Core.checkCollision s (p_position (en_player s')) = false) as H.
  { unfold s'. rewrite walk_position. destruct (Rgtb _ _); [|by left].
    apply resolve_clear. }
  split; [exact H|]. intros Hclear.
  destruct (walk_frame s deltaTime) as [Hr Hc].
  rewrite (checkCollision_radius s' s) by done.
  destruct H as [-> | H]; done.
Qed.

(** The scaled movement of a tick with a non-zero direction: a horizontal
    unit vector times speed times frame time. *)
Lemma scaled_unit (s : Engine) (deltaTime : R) :
  Vector3.length (movementDirection s) > 0 ->
  exists u w,
    u * u + w * w = 1
    /\ Vector3.normalize (movementDirection s) = Vector3.mk u 0 w
    /\ Player.scaled s (movementDirection s) deltaTime
       = Vector3.mk (u * (p_speed (en_player s) * deltaTime)) 0
                    (w * (p_speed (en_player s) * deltaTime)).
Proof.
  intros Hlen.
  pose proof (movementDirection_y s) as Hy.
  assert (Vector3.x (movementDirection s) <> 0 \/ Vector3.z (movementDirection s) <> 0)
    as Hnz.
  { destruct (Req_dec_T (Vector3.x (movementDirection s)) 0) as [Hx|Hx]; [|by left].
    destruct (Req_dec_T (Vector3.z (movementDirection s)) 0) as [Hz|Hz]; [|by right].
    exfalso. assert (Vector3.length (movementDirection s) = 0); [|lra].
    apply length_zero. unfold Vector3.lengthSq. rewrite Hx, Hy, Hz. ring. }
  destruct (normalize_horizontal _ Hy Hnz) as (u & w & Hunit & Hn & _).
  exists u, w. repeat split; try done.
  unfold Player.scaled. rewrite Hn. apply vector3_eq; simpl; ring.
Qed.

Lemma planarDistance_le (a b : Vector3.t) (c : R) :
  (Vector3.x a - Vector3.x b) * (Vector3.x a - Vector3.x b)
  + (Vector3.z a - Vector3.z b) * (Vector3.z a - Vector3.z b) <= c * c ->
  Core.planarDistance a b <= Rabs c.
Proof.
  intros H. unfold Core.planarDistance. cbv zeta.
  rewrite <- sqrt_Rsqr_abs. apply sqrt_le_1_alt. unfold Rsqr. exact H.
Qed.

Lemma planarDistance_eq (a b : Vector3.t) (c : R) :
  (Vector3.x a - Vector3.x b) * (Vector3.x a - Vector3.x b)
  + (Vector3.z a - Vector3.z b) * (Vector3.z a - Vector3.z b) = c * c ->
  Core.planarDistance a b = Rabs c.
Proof.
  intros H. unfold Core.planarDistance. cbv zeta.
  rewrite <- sqrt_Rsqr_abs. unfold Rsqr. by rewrite H.
Qed.

(** X13. The player walks at one speed in every direction: the horizontal
    distance covered by the movement of a tick is at most speed times
    frame time, and exactly that when the full step is free, for one key
    as for a diagonal of two. *)
Theorem walk_speed (s : Engine) (deltaTime : R) :
  Vector3.length (movementDirection s) > 0 ->
  let position := p_position (en_player s) in
  let position' := p_position (en_player (Player.walk s deltaTime)) in
  let reach := Rabs (p_speed (en_player s) * deltaTime) in
  Core.planarDistance position' position <= reach
  /\ (Core.checkCollision s
        (Vector3.add position (Player.scaled s (movementDirection s) deltaTime)) = false ->
      Core.planarDistance position' position = reach).
Proof.
  intros Hlen position position' reach. unfold position'. rewrite walk_position.
  apply Rgtb_true in Hlen as Hgt. rewrite Hgt.
  destruct (scaled_unit s deltaTime Hlen) as (u & w & Hunit & _ & ->).
  set (c := p_speed (en_player s) * deltaTime) in *. fold position.
  assert (0 <= u * u) as Hu by (pose proof (Rle_0_sqr u); unfold Rsqr in *; lra).
  assert (0 <= w * w) as Hw by (pose proof (Rle_0_sqr w); unfold Rsqr in *; lra).
  assert (0 <= c * c) as Hc by (pose proof (Rle_0_sqr c); unfold Rsqr in *; lra).
  split.
  - unfold Player.resolve. fold position.
    repeat match goal with
           | |- context [if negb ?b then _ else _] => destruct b; simpl negb; cbv iota
           end;
      apply planarDistance_le; simpl; nra.
  - intros Hfree. unfold Player.resolve. fold position. rewrite Hfree. simpl negb.
    cbv iota. apply planarDistance_eq. simpl.
    replace ((Vector3.x position + u * c - Vector3.x position)
             * (Vector3.x position + u * c - Vector3.x position)
             + (Vector3.z position + w * c - Vector3.z position)
               * (Vector3.z position + w * c - Vector3.z position))
      with ((u * u + w * w) * (c * c)) by ring.
    rewrite Hunit. ring.
Qed.

Lemma walk_speed_witness :
  Core.planarDistance
    (p_position (en_player (Player.walk alley 0.016))) (p_position (en_player alley))
  <= Rabs (p_speed (en_player alley) * 0.016).
Proof.
  apply (walk_speed alley 0.016).
  unfold movementDirection. rewrite basis_yaw0 by reflexivity.
  unfold Player.accumulate, Vector3.length. simpl.
  apply Rlt_gt. apply Rlt_le_trans with 1; [lra|].
  apply sqrt_le_bound; lra.
Defined.

Lemma normalize_unit_scaled (u w c : R) :
  u * u + w * w = 1 -> 0 < c ->
  Vector3.normalize (Vector3.mk (u * c) 0 (w * c)) = Vector3.mk u 0 w.
Proof.
  intros Hunit Hc.
  rewrite (normalize_of_length _ c); [| |lra].
  - apply vector3_eq; simpl; field; lra.
  - unfold Vector3.length. simpl. apply sqrt_eq_bound; [lra|].
    replace (u * c * (u * c) + 0 * 0 + w * c * (w * c))
      with ((u * u + w * w) * (c * c)) by ring.
    rewrite Hunit. ring.
Qed.

Lemma unit_nonzero (u w : R) : u * u + w * w = 1 -> u <> 0 \/ w <> 0.
Proof.
  intros H. destruct (Req_dec_T u 0) as [Hu|Hu]; [|by left]. right.
  intros Hw. rewrite Hu, Hw in H. lra.
Qed.

(** X14. Without a lock the player turns into the direction it walks: after
    the movement of a tick with a key held the facing is the unit vector of
    the accumulated direction, whether the step itself was blocked or not. *)
Theorem walk_faces_motion (s : Engine) (deltaTime : R) :
  en_targetLocked s = false ->
  Vector3.length (movementDirection s) > 0 ->
  0 < p_speed (en_player s) * deltaTime ->
  forwardOf (Player.walk s deltaTime) = Vector3.normalize (movementDirection s).
Proof.
  intros Hlock Hlen Hstep.
  destruct (scaled_unit s deltaTime Hlen) as (u & w & Hunit & Hn & Hscaled).
  apply Rgtb_true in Hlen. unfold movementDirection in *.
  assert (lockedTarget s = None) as Hnone by (unfold lockedTarget; by rewrite Hlock).
  unfold Player.walk, Player.basis in *. rewrite Hnone in *. cbn [fst snd] in *.
  rewrite Hlen. unfold Player.move. cbn [en_targetLocked en_with_player].
  rewrite Hlock. cbn [negb]. rewrite Hscaled.
  rewrite (normalize_unit_scaled u w _ Hunit Hstep).
  unfold forwardOf. cbn [en_player en_with_player p_quaternion p_with_quaternion].
  rewrite lookAt_forward; [| done | by apply unit_nonzero].
  rewrite Hn.
  replace (Vector3.mk u 0 w) with (Vector3.mk (u * 1) 0 (w * 1))
    by (apply vector3_eq; simpl; ring).
  rewrite (normalize_unit_scaled u w 1 Hunit) by lra.
  apply vector3_eq; simpl; ring.
Qed.

Lemma walk_faces_motion_witness :
  forwardOf (Player.walk alley 0.016) = Vector3.normalize (movementDirection alley).
Proof.
  apply walk_faces_motion; [reflexivity | | simpl; lra].
  unfold movementDirection. rewrite basis_yaw0 by reflexivity.
  unfold Player.accumulate, Vector3.length. simpl.
  apply Rlt_gt. apply Rlt_le_trans with 1; [lra|].
  apply sqrt_le_bound; lra.
Defined.

Lemma directlyAhead_ext (s s' : Engine) (e : EnemyObj) :
  p_quaternion (en_player s') = p_quaternion (en_player s) ->
  Vector3.x (p_position (en_player s')) = Vector3.x (p_position (en_player s)) ->
  Vector3.z (p_position (en_player s')) = Vector3.z (p_position (en_player s)) ->
  directlyAhead s e -> directlyAhead s' e.
Proof. unfold directlyAhead, forwardOf. by intros -> -> ->. Qed.

Lemma lockedTarget_locked (s : Engine) (e : EnemyObj) :
  lockedTarget s = Some e -> en_targetLocked s = true.
Proof. unfold lockedTarget. by destruct (en_targetLocked s). Qed.

Lemma vertical_quaternion (s : Engine) (deltaTime : R) :
  p_quaternion (en_player (Player.gravity (Player.jump s) deltaTime))
  = p_quaternion (en_player s).
Proof.
  unfold Player.gravity, Player.jump.
  repeat match goal with
         | |- context [if ?b then _ else _] => destruct b; simpl
         end; done.
Qed.

Lemma walk_locked_quaternion (s : Engine) (deltaTime : R) (e : EnemyObj) :
  lockedTarget s = Some e ->
  p_quaternion (en_player (Player.walk s deltaTime))
  = Object3D.lookAt (p_position (en_player s))
      (Camera.faceTarget (p_position (en_player s)) (e_position e)).
Proof.
  intros Ht. pose proof (lockedTarget_locked s e Ht) as Hl.
  unfold Player.walk, Player.basis. rewrite Ht. cbn [fst snd].
  destruct (Rgtb _ _); [|done].
  unfold Player.move. cbn [en_targetLocked en_with_player]. by rewrite Hl.
Qed.

(** X15. While a target is locked a tick turns the player to it and the
    movement does not turn it away: after the tick the player's rotation is
    the one that looks from the position before the tick at the target, and
    with no movement key held the target is straight ahead. *)
Theorem update_faces_locked_target (s : Engine) (deltaTime : R) (e : EnemyObj) :
  lockedTarget s = Some e ->
  Core.planarDistance (e_position e) (p_position (en_player s)) <> 0 ->
  p_quaternion (en_player (Player.update s deltaTime))
  = Object3D.lookAt (p_position (en_player s))
      (Camera.faceTarget (p_position (en_player s)) (e_position e))
  /\ (standing (en_keys s) -> directlyAhead (Player.update s deltaTime) e).
Proof.
  intros Ht Hplanar.
  assert (p_quaternion (en_player (Player.update s deltaTime))
          = Object3D.lookAt (p_position (en_player s))
              (Camera.faceTarget (p_position (en_player s)) (e_position e))) as Hq.
  { unfold Player.update. rewrite vertical_quaternion.
    by apply walk_locked_quaternion. }
  split; [exact Hq|]. intros Hk.
  pose proof (faceTarget_directlyAhead s e _ eq_refl Hplanar) as Hahead.
  destruct (update_horizontal s deltaTime) as [Hx Hz].
  rewrite (standing_walk s deltaTime Hk) in Hx, Hz.
  revert Hahead. apply directlyAhead_ext; [exact Hq | exact Hx | exact Hz].
Qed.

Lemma update_faces_locked_target_witness :
  directlyAhead (Player.update lockedDuel 0.016) (mkEnemy (Vector3.mk 0 0.8 3) 2 true).
Proof.
  apply (update_faces_locked_target lockedDuel 0.016); [reflexivity | | by repeat split].
  unfold Core.planarDistance. simpl.
  replace ((0 - 0) * (0 - 0) + (3 - 0) * (3 - 0)) with (3 * 3) by ring.
  rewrite sqrt_square; lra.
Defined.

(** *** Player.takeDamage *)

Lemma lengthSq_scale (v : Vector3.t) (k : R) :
  Vector3.lengthSq (Vector3.multiplyScalar v k) = Vector3.lengthSq v * (k * k).
Proof. unfold Vector3.lengthSq. simpl. ring. Qed.

Lemma normalize_lengthSq_le (v : Vector3.t) :
  Vector3.lengthSq (Vector3.normalize v) <= 1.
Proof.
  unfold Vector3.normalize, Vector3.divideScalar. rewrite lengthSq_scale.
  destruct (Req_dec_T (Vector3.length v) 0) as [Hz|Hnz].
  - apply length_zero in Hz. rewrite Hz. lra.
  - rewrite <- length_sqr. apply Req_le. field. exact Hnz.
Qed.

Lemma takeDamage_position (s : Engine) (amount : R) (deathPose : Quaternion.t) :
  p_position (en_player (Player.takeDamage s amount deathPose))
  = Vector3.add (p_position (en_player s))
      (Vector3.set_y
         (Vector3.multiplyScalar
            (Vector3.normalize
               (Vector3.subVectors (p_position (en_player s)) (knockbackSource s))) 2)
         1).
Proof.
  unfold Player.takeDamage, knockbackSource. simpl. by destruct (Rleb _ _).
Qed.

Lemma takeDamage_gameOver (s : Engine) (amount : R) (deathPose : Quaternion.t) :
  en_gameOver (Player.takeDamage s amount deathPose)
  = (Rleb (Rmax 0 (en_playerHealth s - amount)) 0 || en_gameOver s)%bool.
Proof.
  unfold Player.takeDamage. simpl. by destruct (Rleb _ _).
Qed.

(** X16. The knock-back of [takeDamage] pushes the player away from the
    current target (from the camera when there is none), never towards it:
    the horizontal distance to that point does not shrink, the player is
    moved by at most 2 horizontally, and the game is over afterwards
    exactly when it was before or the amount used up the health. *)
Theorem takeDamage_knockback (s : Engine) (amount : R) (deathPose : Quaternion.t) :
  let s' := Player.takeDamage s amount deathPose in
  let position := p_position (en_player s) in
  let position' := p_position (en_player s') in
  Core.planarDistance position' position <= 2
  /\ Core.planarDistance position (knockbackSource s)
     <= Core.planarDistance position' (knockbackSource s)
  /\ (en_gameOver s' = true
      <-> en_gameOver s = true \/ en_playerHealth s <= amount).
Proof.
  intros s' position position'. unfold position', s'.
  rewrite takeDamage_position, takeDamage_gameOver. fold position.
  set (v := Vector3.subVectors position (knockbackSource s)).
  split; [|split].
  - replace 2 with (Rabs 2) at 2 by (apply Rabs_right; lra).
    pose proof (normalize_lengthSq_le v) as Hle. unfold Vector3.lengthSq in Hle.
    set (n := Vector3.normalize v) in *.
    apply planarDistance_le. unfold Vector3.add, Vector3.set_y, Vector3.multiplyScalar.
    cbn [Vector3.x Vector3.y Vector3.z].
    pose proof (Rle_0_sqr (Vector3.y n)) as Hy. unfold Rsqr in Hy.
    replace ((Vector3.x position + Vector3.x n * 2 - Vector3.x position)
             * (Vector3.x position + Vector3.x n * 2 - Vector3.x position)
             + (Vector3.z position + Vector3.z n * 2 - Vector3.z position)
               * (Vector3.z position + Vector3.z n * 2 - Vector3.z position))
      with (4 * (Vector3.x n * Vector3.x n + Vector3.z n * Vector3.z n)) by ring.
    lra.
  - destruct (normalize_scale v) as (c & Hc & ->).
    unfold Core.planarDistance. cbv zeta. apply sqrt_le_1_alt. unfold v. simpl.
    set (dx := Vector3.x position - Vector3.x (knockbackSource s)).
    set (dz := Vector3.z position - Vector3.z (knockbackSource s)).
    replace (Vector3.x position + dx * c * 2 - Vector3.x (knockbackSource s))
      with (dx * (1 + 2 * c)) by (unfold dx; ring).
    replace (Vector3.z position + dz * c * 2 - Vector3.z (knockbackSource s))
      with (dz * (1 + 2 * c)) by (unfold dz; ring).
    pose proof (Rle_0_sqr dx) as Hx. pose proof (Rle_0_sqr dz) as Hz.
    unfold Rsqr in *.
    replace (dx * (1 + 2 * c) * (dx * (1 + 2 * c)) + dz * (1 + 2 * c) * (dz * (1 + 2 * c)))
      with ((dx * dx + dz * dz) * ((1 + 2 * c) * (1 + 2 * c))) by ring.
    assert (1 <= (1 + 2 * c) * (1 + 2 * c)) by nra. nra.
  - rewrite orb_true_iff. split.
    + intros [H | H]; [right | by left].
      apply Rleb_true in H. pose proof (Rmax_r 0 (en_playerHealth s - amount)). lra.
    + intros [H | H]; [by right | left]. apply Rleb_true.
      rewrite Rmax_left; lra.
Qed.

(** ** Core.updateDayNightCycle *)

Lemma advance_range (k : DayNight.Sky) (deltaTime : R) :
  0 < DayNight.dayLength k -> 0 <= DayNight.dayTime k < 1 ->
  0 <= deltaTime <= DayNight.dayLength k ->
  0 <= DayNight.advance k deltaTime < 1.
Proof.
  intros Hlen Ht Hdt. unfold DayNight.advance.
  assert (0 <= deltaTime / DayNight.dayLength k <= 1) as Hq.
  { split.
    - unfold Rdiv. apply Rmult_le_pos; [lra|]. apply Rlt_le. by apply Rinv_0_lt_compat.
    - apply Rmult_le_reg_r with (DayNight.dayLength k); [done|].
      replace (deltaTime / DayNight.dayLength k * DayNight.dayLength k)
        with deltaTime by (field; lra).
      lra. }
  destruct (Rleb 1 _) eqn:Hwrap.
  - apply Rleb_true in Hwrap. lra.
  - apply Rleb_false in Hwrap. lra.
Qed.

(** X17. The time of day stays in the interval from 0 to 1, 1 excluded,
    over any run of frames none of which is longer than a whole day. *)
Theorem dayTime_stays_in_range (frames : list R) (k : DayNight.Sky) :
  0 < DayNight.dayLength k -> 0 <= DayNight.dayTime k < 1 ->
  Forall (fun deltaTime => 0 <= deltaTime <= DayNight.dayLength k) frames ->
  0 <= DayNight.dayTime (DayNight.run frames k) < 1
  /\ DayNight.dayLength (DayNight.run frames k) = DayNight.dayLength k.
Proof.
  intros Hlen Ht Hframes. revert k Hlen Ht Hframes.
  induction frames as [|deltaTime frames IH]; intros k Hlen Ht Hframes; [done|].
  apply Forall_cons in Hframes as [Hdt Hframes].
  unfold DayNight.run. simpl. fold (DayNight.run frames).
  destruct (IH (DayNight.updateDayNightCycle k deltaTime)) as [Hr Hl]; try done.
  by apply advance_range.
Qed.

Lemma dayTime_stays_in_range_witness :
  0 <= DayNight.dayTime (DayNight.run [0.016; 100; 120] DayNight.setup) < 1
  /\ DayNight.dayLength (DayNight.run [0.016; 100; 120] DayNight.setup) = 120.
Proof.
  apply dayTime_stays_in_range; simpl; [lra | lra |].
  repeat (apply Forall_cons; split; [simpl; lra|]). apply Forall_nil_2.
Defined.

(** X18. After every update the sun stands on the circle of radius 100
    around the origin in the plane z = 0, the moon stands opposite to it,
    and the sunlight's intensity lies between 0.2 and 1.  In the second
    half of the day (time 0.5 to 1) the sun is not above the horizon, the
    intensity is 0.2 and the sky has the night color; at other times every
    channel of the sky lies between the night color and the day color. *)
Theorem sun_and_moon (k : DayNight.Sky) (deltaTime : R) :
  let k' := DayNight.updateDayNightCycle k deltaTime in
  let sun := DayNight.sunPosition k' in
  Vector3.x sun * Vector3.x sun + Vector3.y sun * Vector3.y sun = 100 * 100
  /\ Vector3.z sun = 0
  /\ Vector3.add sun (DayNight.moonPosition k') = Vector3.mk 0 0 0
  /\ 0.2 <= DayNight.sunIntensity k' <= 1
  /\ DayNight.sunIntensity k' = Rmax 0 (Vector3.y sun / 100) * 0.8 + 0.2
  /\ (1 / 2 <= DayNight.dayTime k' <= 1 ->
      Vector3.y sun <= 0 /\ DayNight.sunIntensity k' = 0.2
      /\ DayNight.background k' = DayNight.nightColor)
  /\ DayNight.r DayNight.nightColor <= DayNight.r (DayNight.background k')
     <= DayNight.r DayNight.dayColor
  /\ DayNight.g DayNight.nightColor <= DayNight.g (DayNight.background k')
     <= DayNight.g DayNight.dayColor
  /\ DayNight.b DayNight.nightColor <= DayNight.b (DayNight.background k')
     <= DayNight.b DayNight.dayColor.
Proof.
  intros k' sun. unfold sun, k', DayNight.updateDayNightCycle. cbv zeta.
  set (t := DayNight.advance k deltaTime).
  cbn [DayNight.sunPosition DayNight.moonPosition DayNight.sunIntensity
       DayNight.background DayNight.dayTime Vector3.x Vector3.y Vector3.z].
  pose proof (sin2_cos2 (t * PI * 2)) as Hunit. unfold Rsqr in Hunit.
  pose proof (SIN_bound (t * PI * 2)) as [Hlo Hhi].
  set (sn := sin (t * PI * 2)) in *. set (cs := cos (t * PI * 2)) in *.
  assert (0 <= Rmax 0 sn <= 1) as Hmax.
  { split; [apply Rmax_l | apply Rmax_lub; lra]. }
  repeat split.
  - nra.
  - apply vector3_eq; simpl; ring.
  - lra.
  - lra.
  - f_equal. f_equal. f_equal. field.
  - pose proof PI_RGT_0.
    assert (sn <= 0) as Hs; [|nra].
    unfold sn. apply sin_le_0; nra.
  - pose proof PI_RGT_0.
    assert (sn <= 0) as Hs by (unfold sn; apply sin_le_0; nra).
    rewrite Rmax_left by lra. lra.
  - pose proof PI_RGT_0.
    assert (sn <= 0) as Hs by (unfold sn; apply sin_le_0; nra).
    assert (Rgtb sn 0 = false) as -> by (apply Rgtb_false; lra). done.
  - destruct (Rgtb sn 0) eqn:Hg; simpl; [|lra].
    apply Rgtb_true in Hg. unfold Rdiv. nra.
  - destruct (Rgtb sn 0) eqn:Hg; simpl; [|lra].
    apply Rgtb_true in Hg. unfold Rdiv. nra.
  - destruct (Rgtb sn 0) eqn:Hg; simpl; [|lra].
    apply Rgtb_true in Hg. unfold Rdiv. nra.
  - destruct (Rgtb sn 0) eqn:Hg; simpl; [|lra].
    apply Rgtb_true in Hg. unfold Rdiv. nra.
  - destruct (Rgtb sn 0) eqn:Hg; simpl; [|lra].
    apply Rgtb_true in Hg. unfold Rdiv. nra.
  - destruct (Rgtb sn 0) eqn:Hg; simpl; [|lra].
    apply Rgtb_true in Hg. unfold Rdiv. nra.
Qed.

(** ** The handlers of Core.setupControls *)

(** What the limits mean for a state reached from [c0]: the zoom is within
    2 and 10, the pitch is the one of [c0] or within the polar limits. *)
Lemma handle_limits (c0 c : Controls.t) (ev : Controls.Event) :
  let m0 := Controls.mouseControls c0 in
  let P := fun c : Controls.t =>
    let m := Controls.mouseControls c in
    Controls.minPolarAngle m = Controls.minPolarAngle m0
    /\ Controls.maxPolarAngle m = Controls.maxPolarAngle m0
    /\ 2 <= Controls.orbitDistance m <= 10
    /\ (Controls.cameraRotationX m = Controls.cameraRotationX m0
        \/ Controls.minPolarAngle m0 <= Controls.cameraRotationX m
           <= Controls.maxPolarAngle m0) in
  Controls.minPolarAngle m0 <= Controls.maxPolarAngle m0 ->
  P c -> P (Controls.handle c ev).
Proof.
  intros m0 P Hle (Hmin & Hmax & [Hlo Hhi] & Hpitch). unfold P.
  destruct ev as [key | key | button x y now | button | x y | deltaY]; simpl.
  - by destruct key.
  - by destruct key.
  - unfold Controls.onMouseDown.
    destruct button as [|[|[|button]]]; [destruct (negb _) | | |]; done.
  - unfold Controls.onMouseUp. by destruct button as [|[|[|button]]].
  - unfold Controls.onMouseMove. destruct (_ && _)%bool; [|done]. simpl.
    repeat split; try done. right. rewrite Hmin, Hmax. split.
    + apply Rmax_l.
    + apply Rmax_lub; [done | apply Rmin_l].
  - unfold Controls.onWheel. destruct (negb _); [|done]. simpl.
    repeat split; try done.
    + apply Rmax_l.
    + apply Rmax_lub; [lra | apply Rmin_l].
Qed.

Lemma run_cons (ev : Controls.Event) (events : list Controls.Event) (c : Controls.t) :
  Controls.run (ev :: events) c = Controls.run events (Controls.handle c ev).
Proof. reflexivity. Qed.

(** X19. Whatever events arrive, the zoom of the camera stays between 2 and
    10, and its pitch is either still the initial one or within the polar
    limits [minPolarAngle] and [maxPolarAngle]. *)
Theorem controls_stay_within_limits (events : list Controls.Event) (c : Controls.t) :
  let m := Controls.mouseControls c in
  let m' := Controls.mouseControls (Controls.run events c) in
  Controls.minPolarAngle m <= Controls.maxPolarAngle m ->
  2 <= Controls.orbitDistance m <= 10 ->
  2 <= Controls.orbitDistance m' <= 10
  /\ (Controls.cameraRotationX m' = Controls.cameraRotationX m
      \/ Controls.minPolarAngle m <= Controls.cameraRotationX m'
         <= Controls.maxPolarAngle m).
Proof.
  intros m m' Hle Horbit.
  pose (P := fun c' : Controls.t =>
    let n := Controls.mouseControls c' in
    Controls.minPolarAngle n = Controls.minPolarAngle m
    /\ Controls.maxPolarAngle n = Controls.maxPolarAngle m
    /\ 2 <= Controls.orbitDistance n <= 10
    /\ (Controls.cameraRotationX n = Controls.cameraRotationX m
        \/ Controls.minPolarAngle m <= Controls.cameraRotationX n
           <= Controls.maxPolarAngle m)).
  assert (forall c', P c' -> P (Controls.run events c')) as Hrun.
  { induction events as [|ev events IH]; intros c' Hc'; [done|].
    rewrite run_cons. apply IH. by apply (handle_limits c). }
  destruct (Hrun c) as (_ & _ & H1 & H2).
  - repeat split; try done; try apply Horbit. by left.
  - split; [exact H1 | exact H2].
Qed.

Lemma controls_stay_within_limits_witness :
  let c := Controls.setup duel in
  let m' :=
    Controls.mouseControls
      (Controls.run
         [Controls.mousedown 2 100 100 0; Controls.mousemove 100 5000;
          Controls.wheel 10000] c) in
  2 <= Controls.orbitDistance m' <= 10
  /\ (Controls.cameraRotationX m' = 0 \/ 0.1 <= Controls.cameraRotationX m' <= PI / 1.8).
Proof.
  apply (controls_stay_within_limits
           [Controls.mousedown 2 100 100 0; Controls.mousemove 100 5000;
            Controls.wheel 10000] (Controls.setup duel)); simpl; [|lra].
  pose proof PI2_1. lra.
Defined.

(** X20. While the right button is held and nothing is locked, the yaw of
    the camera follows the pointer: after any run of mouse moves it has
    turned by the sensitivity times the horizontal displacement from where
    the drag stood to where the last move ended, whatever the path. *)
Theorem drag_turns_by_displacement (moves : list (R * R)) (c : Controls.t) :
  let m := Controls.mouseControls c in
  let c' := Controls.run (map (fun p => Controls.mousemove (fst p) (snd p)) moves) c in
  let final := default (Controls.lastX m) (last (map fst moves)) in
  Controls.isActive m = true -> en_targetLocked (Controls.engine c) = false ->
  en_cameraRotationY (Controls.engine c')
  = en_cameraRotationY (Controls.engine c)
    - (final - Controls.lastX m) * Controls.sensitivity m
  /\ Controls.lastX (Controls.mouseControls c') = final.
Proof.
  cbv zeta. revert c. induction moves as [|[x y] moves IH]; intros c Hactive Hlock.
  - simpl. split; [ring | done].
  - change (map (fun p => Controls.mousemove (fst p) (snd p)) ((x, y) :: moves))
      with (Controls.mousemove x y
              :: map (fun p => Controls.mousemove (fst p) (snd p)) moves).
    rewrite run_cons. change (map fst ((x, y) :: moves)) with (x :: map fst moves).
    change (Controls.handle c (Controls.mousemove x y))
      with (Controls.onMouseMove c x y).
    set (c1 := Controls.onMouseMove c x y).
    assert (c1 = Controls.mk
                   (en_with_input (Controls.engine c) (en_keys (Controls.engine c))
                      (en_cameraRotationY (Controls.engine c)
                       - (x - Controls.lastX (Controls.mouseControls c))
                         * Controls.sensitivity (Controls.mouseControls c)))
                   (Controls.mkMouse true
                      (Controls.sensitivity (Controls.mouseControls c)) x y
                      (Rmax (Controls.minPolarAngle (Controls.mouseControls c))
                         (Rmin (Controls.maxPolarAngle (Controls.mouseControls c))
                            (Controls.cameraRotationX (Controls.mouseControls c)
                             - (y - Controls.lastY (Controls.mouseControls c))
                               * Controls.sensitivity (Controls.mouseControls c))))
                      (Controls.orbitDistance (Controls.mouseControls c))
                      (Controls.minPolarAngle (Controls.mouseControls c))
                      (Controls.maxPolarAngle (Controls.mouseControls c)))) as Hc1.
    { unfold c1, Controls.onMouseMove. by rewrite Hactive, Hlock. }
    destruct (IH c1) as [Hyaw Hlast]; [by rewrite Hc1 | by rewrite Hc1 |].
    rewrite Hyaw, Hlast. rewrite Hc1. simpl.
    rewrite last_cons. destruct (last (map fst moves)); simpl; split; try done; ring.
Qed.

Lemma drag_turns_by_displacement_witness :
  en_cameraRotationY
    (Controls.engine
       (Controls.run
          (map (fun p => Controls.mousemove (fst p) (snd p)) [(10, 0); (250, 40); (30, 5)])
          (Controls.handle (Controls.setup duel) (Controls.mousedown 2 0 0 0))))
  = PI - (30 - 0) * 0.002.
Proof.
  apply (drag_turns_by_displacement [(10, 0); (250, 40); (30, 5)]
           (Controls.handle (Controls.setup duel) (Controls.mousedown 2 0 0 0)));
    reflexivity.
Defined.

Lemma toggleTargetLock_world (s : Engine) :
  world (Camera.toggleTargetLock s) = world s.
Proof.
  unfold Camera.toggleTargetLock, world.
  destruct (Nat.eqb _ _); [done|]. destruct (negb _); [|done].
  destruct (fst _); [|done]. by destruct (_ !! _).
Qed.

Lemma attack_world (s : Engine) (now : R) : world (Player.attack s now) = world s.
Proof.
  unfold Player.attack, world. destruct (p_isAttacking _); [done|].
  by destruct (lockedTarget _).
Qed.

Lemma resetPosition_world (s : Engine) : world (Player.resetPosition s) = world s.
Proof. unfold Player.resetPosition, world. by destruct (find _ _). Qed.

Lemma handle_world (c : Controls.t) (ev : Controls.Event) :
  world (Controls.engine (Controls.handle c ev)) = world (Controls.engine c)
  /\ (lockConsistent (Controls.engine c) ->
      lockConsistent (Controls.engine (Controls.handle c ev))).
Proof.
  destruct ev as [key | key | button x y now | button | x y | deltaY]; simpl.
  - destruct key; simpl; try done.
    + split; [apply toggleTargetLock_world | apply toggleTargetLock_consistent].
    + split; [apply resetPosition_world|].
      apply lockConsistent_lockState, resetPosition_lockState.
  - by destruct key.
  - unfold Controls.onMouseDown.
    destruct button as [|[|[|button]]]; try done.
    destruct (negb _); [|done]. simpl.
    split; [apply attack_world|].
    apply lockConsistent_lockState, attack_lockState.
  - unfold Controls.onMouseUp. by destruct button as [|[|[|button]]].
  - unfold Controls.onMouseMove. by destruct (_ && _)%bool.
  - unfold Controls.onWheel. by destruct (negb _).
Qed.

(** X21. No input event hurts: over any run of events the health, the
    enemies, the obstacles and the game-over flag stay as they are, and a
    consistent lock state stays consistent. *)
Theorem input_is_harmless (events : list Controls.Event) (c : Controls.t) :
  world (Controls.engine (Controls.run events c)) = world (Controls.engine c)
  /\ (lockConsistent (Controls.engine c) ->
      lockConsistent (Controls.engine (Controls.run events c))).
Proof.
  revert c. induction events as [|ev events IH]; intros c; [done|].
  rewrite run_cons.
  destruct (IH (Controls.handle c ev)) as [Hw Hl].
  destruct (handle_world c ev) as [Hw' Hl'].
  split; [by rewrite Hw | auto].
Qed.

(** ** Enemy.update *)

Lemma updateEnemy_chase (q : Quaternion.t) (deltaTime t : R) (w : Enemy.World)
    (enemy : ref) (e : EnemyObj) (a : Enemy.AI) :
  chasing w enemy e a ->
  Enemy.updateEnemy q deltaTime t w enemy
  = Enemy.mkWorld
      (en_with_heap (Enemy.engine w)
         (<[enemy := Enemy.chase (Enemy.engine w) (Enemy.with_aggro a true) e deltaTime]>
            (en_heap (Enemy.engine w))))
      (<[enemy := Enemy.with_aggro a true]> (Enemy.minds w)).
Proof.
  intros (He & Ha & Hlo & Hhi). unfold Enemy.updateEnemy. rewrite He, Ha.
  apply Rltb_true in Hhi. rewrite Hhi.
  assert (Rgtb (Enemy.distanceToPlayer (Enemy.engine w) e)
            (Enemy.attackRange (Enemy.with_aggro a true)) = true) as ->; [|done].
  by apply Rgtb_true.
Qed.

Lemma updateEnemy_inReach (q : Quaternion.t) (deltaTime t : R) (w : Enemy.World)
    (enemy : ref) (e : EnemyObj) (a : Enemy.AI) :
  inReach w enemy e a ->
  Enemy.updateEnemy q deltaTime t w enemy
  = if Rgtb (t - Enemy.lastAttackTime a) (Enemy.attackCooldown a)
    then Enemy.mkWorld (Player.takeDamage (Enemy.engine w) 1 q)
           (<[enemy := Enemy.with_lastAttackTime (Enemy.with_aggro a true) t]>
              (Enemy.minds w))
    else Enemy.mkWorld (Enemy.engine w)
           (<[enemy := Enemy.with_aggro a true]> (Enemy.minds w)).
Proof.
  intros (He & Ha & Hdet & Hreach). unfold Enemy.updateEnemy. rewrite He, Ha.
  apply Rltb_true in Hdet. rewrite Hdet.
  assert (Rgtb (Enemy.distanceToPlayer (Enemy.engine w) e)
            (Enemy.attackRange (Enemy.with_aggro a true)) = false) as ->; [|done].
  apply Rgtb_false. simpl. lra.
Qed.

(** What one iteration does to the engine: nothing, a move of the enemy,
    or a blow of 1 that starts the cooldown. *)
Lemma updateEnemy_cases (q : Quaternion.t) (deltaTime t : R) (w : Enemy.World)
    (enemy : ref) :
  let w' := Enemy.updateEnemy q deltaTime t w enemy in
  Enemy.engine w' = Enemy.engine w
  \/ (exists e', Enemy.engine w'
                 = en_with_heap (Enemy.engine w) (<[enemy := e']> (en_heap (Enemy.engine w))))
  \/ (Enemy.engine w' = Player.takeDamage (Enemy.engine w) 1 q
      /\ exists a, Enemy.minds w !! enemy = Some a
           /\ t - Enemy.lastAttackTime a > Enemy.attackCooldown a
           /\ Enemy.minds w'
              = <[enemy := Enemy.with_lastAttackTime (Enemy.with_aggro a true) t]>
                  (Enemy.minds w)).
Proof.
  unfold Enemy.updateEnemy.
  destruct (en_heap (Enemy.engine w) !! enemy) as [e|]; [|by left].
  destruct (Enemy.minds w !! enemy) as [a|]; [|by left].
  destruct (Rltb _ _); [|by left].
  destruct (Rgtb (Enemy.distanceToPlayer _ _) _).
  - right. left. eexists. reflexivity.
  - destruct (Rgtb (t - _) _) eqn:Hcool; [|by left].
    right. right. split; [done|]. exists a. repeat split; try done.
    by apply Rgtb_true in Hcool.
Qed.

Lemma takeDamage_heap (s : Engine) (amount : R) (q : Quaternion.t) :
  en_heap (Player.takeDamage s amount q) = en_heap s.
Proof. unfold Player.takeDamage. simpl. by destruct (Rleb _ _). Qed.

(** X22. An enemy's blows are a cooldown apart: when an iteration for an
    enemy at clock time [t] lowered the player's health, it has set the
    enemy's last attack time to [t], and no iteration for that enemy at a
    time up to [t] plus its cooldown touches the player or the health,
    whatever has happened to the engine in between. *)
Theorem enemy_respects_cooldown (q : Quaternion.t) (deltaTime deltaTime' t t' : R)
    (w : Enemy.World) (enemy : ref) (a : Enemy.AI) (s : Engine) :
  let w1 := Enemy.updateEnemy q deltaTime t w enemy in
  let w2 := Enemy.updateEnemy q deltaTime' t' (Enemy.mkWorld s (Enemy.minds w1)) enemy in
  Enemy.minds w !! enemy = Some a ->
  en_playerHealth (Enemy.engine w1) < en_playerHealth (Enemy.engine w) ->
  t' <= t + Enemy.attackCooldown a ->
  Enemy.lastAttackTime <$> Enemy.minds w1 !! enemy = Some t
  /\ en_player (Enemy.engine w2) = en_player s
  /\ en_playerHealth (Enemy.engine w2) = en_playerHealth s.
Proof.
  intros w1 w2 Ha Hblow Ht'.
  assert (Enemy.minds w1 !! enemy
          = Some (Enemy.with_lastAttackTime (Enemy.with_aggro a true) t)) as Hmind.
  { destruct (updateEnemy_cases q deltaTime t w enemy)
      as [H | [[e' H] | (_ & a' & Ha' & _ & H)]]; fold w1 in H.
    - rewrite H in Hblow. lra.
    - rewrite H in Hblow. simpl in Hblow. lra.
    - rewrite H, lookup_insert_eq. congruence. }
  split; [by rewrite Hmind|].
  assert (Enemy.engine w2 = s
          \/ exists e', Enemy.engine w2 = en_with_heap s (<[enemy := e']> (en_heap s)))
    as [-> | [e' ->]]; [|done|done].
  unfold w2, Enemy.updateEnemy. cbn [Enemy.engine Enemy.minds]. rewrite Hmind.
  destruct (en_heap s !! enemy); [|by left].
  destruct (Rltb _ _); [|by left].
  destruct (Rgtb (Enemy.distanceToPlayer _ _) _); [right; by eexists|].
  assert (Rgtb (t' - Enemy.lastAttackTime
                       (Enemy.with_aggro
                          (Enemy.with_lastAttackTime (Enemy.with_aggro a true) t) true))
            (Enemy.attackCooldown
               (Enemy.with_aggro
                  (Enemy.with_lastAttackTime (Enemy.with_aggro a true) t) true)) = false)
    as ->; [|by left].
  apply Rgtb_false. simpl. lra.
Qed.

Lemma arena_inReach :
  inReach arena 0%nat (mkEnemy (Vector3.mk 0 0 1) 2 true) Enemy.create.
Proof.
  repeat split.
  - apply distanceTo_lt; [simpl; lra|].
    unfold Vector3.distanceToSquared; simpl. lra.
  - apply Rlt_le. apply distanceTo_lt; [simpl; lra|].
    unfold Vector3.distanceToSquared; simpl. lra.
Qed.

Lemma enemy_respects_cooldown_witness :
  en_playerHealth
    (Enemy.engine
       (Enemy.updateEnemy Quaternion.identity 0.016 4
          (Enemy.mkWorld sparring
             (Enemy.minds (Enemy.updateEnemy Quaternion.identity 0.016 3 arena 0%nat)))
          0%nat))
  = en_playerHealth sparring.
Proof.
  apply (enemy_respects_cooldown Quaternion.identity 0.016 0.016 3 4 arena 0%nat
           Enemy.create sparring).
  - reflexivity.
  - rewrite (updateEnemy_inReach _ _ _ _ _ _ _ arena_inReach).
    assert (Rgtb (3 - Enemy.lastAttackTime Enemy.create)
              (Enemy.attackCooldown Enemy.create) = true) as ->.
    { apply Rgtb_true. simpl. lra. }
    cbn [Enemy.engine]. rewrite takeDamage_playerHealth. simpl.
    rewrite Rmax_right; lra.
  - simpl. lra.
Defined.

Lemma distanceTo_length (a b : Vector3.t) :
  Vector3.distanceTo a b = Vector3.length (Vector3.subVectors b a).
Proof.
  unfold Vector3.distanceTo, Vector3.distanceToSquared, Vector3.length. simpl.
  f_equal. ring.
Qed.

Lemma sum_squares_zero (a b c : R) : a * a + b * b + c * c = 0 -> a = 0 /\ b = 0 /\ c = 0.
Proof.
  intros H.
  pose proof (Rle_0_sqr a) as Ha. pose proof (Rle_0_sqr b) as Hb.
  pose proof (Rle_0_sqr c) as Hc. unfold Rsqr in *.
  repeat split; apply Rsqr_0_uniq; unfold Rsqr; lra.
Qed.

(** A step of length [k] along the unit vector from [e] towards [p],
    flattened: on the ground the step is the fraction [k / distance] of the
    way to [p], so it covers at most [|k|] and scales the horizontal
    distance to [p] by [|1 - k / distance|]. *)
Lemma approach (p e : Vector3.t) (k : R) :
  let n := Vector3.normalize (Vector3.subVectors p e) in
  let distance := Vector3.distanceTo e p in
  let e' := Vector3.mk (Vector3.x e + Vector3.x n * k) (Vector3.y e)
                       (Vector3.z e + Vector3.z n * k) in
  Vector3.x e' = Vector3.x e + (Vector3.x p - Vector3.x e) * (k / distance)
  /\ Vector3.z e' = Vector3.z e + (Vector3.z p - Vector3.z e) * (k / distance)
  /\ Core.planarDistance e' e <= Rabs k
  /\ Core.planarDistance e' p = Core.planarDistance e p * Rabs (1 - k / distance)
  /\ (0 <= k <= distance -> Core.planarDistance e' p <= Core.planarDistance e p)
  /\ (0 < k <= distance -> Core.planarDistance e p <> 0 ->
      Core.planarDistance e' p < Core.planarDistance e p).
Proof.
  intros n distance e'. unfold distance. rewrite distanceTo_length.
  set (v := Vector3.subVectors p e).
  pose proof (length_nonneg v) as HL. pose proof (length_sqr v) as Hsq.
  unfold Vector3.lengthSq in Hsq.
  set (L := Vector3.length v) in *.
  set (dx := Vector3.x p - Vector3.x e). set (dz := Vector3.z p - Vector3.z e).
  assert (Vector3.x v = dx) as Hvx by reflexivity.
  assert (Vector3.z v = dz) as Hvz by reflexivity.
  assert (0 <= dx * dx) as Hx2 by (pose proof (Rle_0_sqr dx) as H; exact H).
  assert (0 <= dz * dz) as Hz2 by (pose proof (Rle_0_sqr dz) as H; exact H).
  assert (0 <= Vector3.y v * Vector3.y v) as Hy2
    by (pose proof (Rle_0_sqr (Vector3.y v)) as H; exact H).
  assert (Vector3.x n * k = dx * (k / L) /\ Vector3.z n * k = dz * (k / L)) as [Hnx Hnz'].
  { unfold n, Vector3.normalize, Vector3.divideScalar. fold v. fold L.
    destruct (Req_dec_T L 0) as [Hz|Hnz].
    - rewrite Hz in Hsq.
      destruct (sum_squares_zero (Vector3.x v) (Vector3.y v) (Vector3.z v)) as (H1 & _ & H3);
        [lra|].
      change (Vector3.x (Vector3.multiplyScalar v (1 / 1))) with (Vector3.x v * (1 / 1)).
      change (Vector3.z (Vector3.multiplyScalar v (1 / 1))) with (Vector3.z v * (1 / 1)).
      rewrite H1, H3, <- Hvx, <- Hvz, H1, H3. split; ring.
    - change (Vector3.x (Vector3.multiplyScalar v (1 / L))) with (Vector3.x v * (1 / L)).
      change (Vector3.z (Vector3.multiplyScalar v (1 / L))) with (Vector3.z v * (1 / L)).
      rewrite Hvx, Hvz. split; field; exact Hnz. }
  assert (Vector3.x e' = Vector3.x e + dx * (k / L)) as Hex.
  { change (Vector3.x e') with (Vector3.x e + Vector3.x n * k). by rewrite Hnx. }
  assert (Vector3.z e' = Vector3.z e + dz * (k / L)) as Hez.
  { change (Vector3.z e') with (Vector3.z e + Vector3.z n * k). by rewrite Hnz'. }
  assert (0 <= dx * dx + dz * dz) as Hplane by lra.
  assert (Core.planarDistance e p = sqrt (dx * dx + dz * dz)) as Hold.
  { unfold Core.planarDistance. cbv zeta. f_equal. unfold dx, dz. ring. }
  assert (Core.planarDistance e' p
          = Core.planarDistance e p * Rabs (1 - k / L)) as Hnew.
  { rewrite Hold. unfold Core.planarDistance. cbv zeta. rewrite Hex, Hez.
    replace ((Vector3.x e + dx * (k / L) - Vector3.x p)
             * (Vector3.x e + dx * (k / L) - Vector3.x p)
             + (Vector3.z e + dz * (k / L) - Vector3.z p)
               * (Vector3.z e + dz * (k / L) - Vector3.z p))
      with ((dx * dx + dz * dz) * Rsqr (1 - k / L))
      by (unfold dx, dz, Rsqr; ring).
    rewrite sqrt_mult; [|done | apply Rle_0_sqr]. by rewrite sqrt_Rsqr_abs. }
  assert (0 <= Core.planarDistance e p) as Hpos by (rewrite Hold; apply sqrt_pos).
  split; [exact Hex|]. split; [exact Hez|]. split; [|split; [exact Hnew|split]].
  - apply planarDistance_le. rewrite Hex, Hez.
    replace ((Vector3.x e + dx * (k / L) - Vector3.x e)
             * (Vector3.x e + dx * (k / L) - Vector3.x e)
             + (Vector3.z e + dz * (k / L) - Vector3.z e)
               * (Vector3.z e + dz * (k / L) - Vector3.z e))
      with ((dx * dx + dz * dz) * ((k / L) * (k / L))) by ring.
    destruct (Req_dec_T L 0) as [Hz|Hnz].
    + rewrite Hz in Hsq.
      destruct (sum_squares_zero (Vector3.x v) (Vector3.y v) (Vector3.z v))
        as (H1 & _ & H3); [lra|].
      rewrite Hvx in H1. rewrite Hvz in H3. rewrite H1, H3.
      pose proof (Rle_0_sqr k) as Hk. unfold Rsqr in Hk. lra.
    + replace (k * k) with ((L * L) * ((k / L) * (k / L))) by (field; exact Hnz).
      apply Rmult_le_compat_r.
      * pose proof (Rle_0_sqr (k / L)) as H. exact H.
      * rewrite Hsq, Hvx, Hvz. lra.
  - intros [Hk0 Hk]. rewrite Hnew.
    assert (Rabs (1 - k / L) <= 1) as Hab.
    { destruct (Req_dec_T L 0) as [Hz|Hnz].
      - assert (k = 0) as -> by lra. unfold Rdiv. rewrite Rmult_0_l, Rminus_0_r.
        rewrite Rabs_R1. lra.
      - assert (0 <= k / L <= 1) as [H0 H1].
        { split.
          - unfold Rdiv. apply Rmult_le_pos; [done|].
            apply Rlt_le, Rinv_0_lt_compat. lra.
          - apply Rmult_le_reg_r with L; [lra|].
            replace (k / L * L) with k by (field; exact Hnz). lra. }
        rewrite Rabs_right; lra. }
    replace (Core.planarDistance e p) with (Core.planarDistance e p * 1) at 2 by ring.
    by apply Rmult_le_compat_l.
  - intros [Hk0 Hk] Hfar. rewrite Hnew.
    assert (0 < L) as HLpos by lra.
    assert (0 < k / L <= 1) as [H0 H1].
    { split.
      - apply Rdiv_lt_0_compat; lra.
      - apply Rmult_le_reg_r with L; [lra|].
        replace (k / L * L) with k by (field; lra). lra. }
    assert (Rabs (1 - k / L) < 1) as Hab by (rewrite Rabs_right; lra).
    replace (Core.planarDistance e p) with (Core.planarDistance e p * 1) at 2 by ring.
    apply Rmult_lt_compat_l; [lra | done].
Qed.

(** X23. An enemy that has seen the player and is out of reach walks
    towards it on the ground: its new X and Z are the old ones plus the
    fraction speed times frame time over distance of the way to the
    player, so it covers at most |speed * frame time| horizontally and its
    horizontal distance to the player is scaled by |1 - that fraction|: it
    gets strictly closer whenever the step is positive and not longer than
    the distance (and the enemy is not right below or above the player).
    Its height becomes max(height, 0.8), it turns aggressive, and its
    health, the player and the player's health are left alone. *)
Theorem chase_closes_in (q : Quaternion.t) (deltaTime t : R) (w : Enemy.World)
    (enemy : ref) (e : EnemyObj) (a : Enemy.AI) :
  chasing w enemy e a ->
  let w' := Enemy.updateEnemy q deltaTime t w enemy in
  let position := p_position (en_player (Enemy.engine w)) in
  let distance := Vector3.distanceTo (e_position e) position in
  let step := Enemy.speed a * deltaTime in
  exists e',
    en_heap (Enemy.engine w') !! enemy = Some e'
    /\ Vector3.x (e_position e')
       = Vector3.x (e_position e)
         + (Vector3.x position - Vector3.x (e_position e)) * (step / distance)
    /\ Vector3.z (e_position e')
       = Vector3.z (e_position e)
         + (Vector3.z position - Vector3.z (e_position e)) * (step / distance)
    /\ Vector3.y (e_position e') = Rmax (Vector3.y (e_position e)) 0.8
    /\ Core.planarDistance (e_position e') (e_position e) <= Rabs step
    /\ Core.planarDistance (e_position e') position
       = Core.planarDistance (e_position e) position * Rabs (1 - step / distance)
    /\ (0 <= step <= distance ->
        Core.planarDistance (e_position e') position
        <= Core.planarDistance (e_position e) position)
    /\ (0 < step <= distance ->
        Core.planarDistance (e_position e) position <> 0 ->
        Core.planarDistance (e_position e') position
        < Core.planarDistance (e_position e) position)
    /\ e_health e' = e_health e
    /\ Enemy.aggro <$> Enemy.minds w' !! enemy = Some true
    /\ en_player (Enemy.engine w') = en_player (Enemy.engine w)
    /\ en_playerHealth (Enemy.engine w') = en_playerHealth (Enemy.engine w).
Proof.
  intros Hchase w' position distance step. unfold w'.
  rewrite (updateEnemy_chase _ _ _ _ _ _ _ Hchase). cbn [Enemy.engine Enemy.minds].
  eexists. split; [apply lookup_insert_eq|].
  rewrite lookup_insert_eq.
  destruct (approach position (e_position e) step)
    as (Hx & Hz & Hcover & Hscale & Hcloser & Hstrict).
  repeat split; try done.
Qed.

Lemma chase_closes_in_witness :
  exists e',
    en_heap (Enemy.engine (Enemy.updateEnemy Quaternion.identity 0.016 0 duelArena 0%nat))
      !! 0%nat = Some e'
    /\ Core.planarDistance (e_position e') (Vector3.mk 0 1 0)
       < Core.planarDistance (Vector3.mk 0 0.8 3) (Vector3.mk 0 1 0).
Proof.
  assert (3 <= Vector3.distanceTo (Vector3.mk 0 0.8 3) (Vector3.mk 0 1 0)) as Hfar.
  { apply distanceTo_ge; [lra|]. unfold Vector3.distanceToSquared; simpl. lra. }
  destruct (chase_closes_in Quaternion.identity 0.016 0 duelArena 0%nat
              (mkEnemy (Vector3.mk 0 0.8 3) 2 true) Enemy.create)
    as (e' & He' & _ & _ & _ & _ & _ & _ & Hstrict & _).
  - repeat split.
    + apply Rlt_le_trans with 3; [simpl; lra | exact Hfar].
    + apply distanceTo_lt; [simpl; lra|].
      unfold Vector3.distanceToSquared; simpl. lra.
  - exists e'. split; [exact He'|]. apply Hstrict.
    + split; [simpl; lra|]. apply Rle_trans with 3; [simpl; lra | exact Hfar].
    + unfold Core.planarDistance. simpl.
      assert (3 <= sqrt ((0 - 0) * (0 - 0) + (3 - 0) * (3 - 0)))
        by (apply sqrt_le_bound; lra).
      lra.
Defined.

Lemma updateEnemy_health (q : Quaternion.t) (deltaTime t : R) (w : Enemy.World)
    (enemy : ref) :
  let w' := Enemy.updateEnemy q deltaTime t w enemy in
  (en_playerHealth (Enemy.engine w') = en_playerHealth (Enemy.engine w)
   \/ en_playerHealth (Enemy.engine w') = Rmax 0 (en_playerHealth (Enemy.engine w) - 1))
  /\ lockState (Enemy.engine w') = lockState (Enemy.engine w).
Proof.
  intros w'.
  destruct (updateEnemy_cases q deltaTime t w enemy) as [H | [[e' H] | [H _]]];
    fold w' in H; rewrite H.
  - by split; [left|].
  - by split; [left|].
  - split; [right; apply takeDamage_playerHealth | apply takeDamage_lockState].
Qed.

Lemma updateFrom_health (q : Quaternion.t) (deltaTime : R) (clock : nat -> R)
    (i : nat) (l : list ref) (w : Enemy.World) :
  0 <= en_playerHealth (Enemy.engine w) ->
  let w' := Enemy.updateFrom q deltaTime clock i l w in
  0 <= en_playerHealth (Enemy.engine w')
  /\ en_playerHealth (Enemy.engine w) - INR (List.length l)
     <= en_playerHealth (Enemy.engine w') <= en_playerHealth (Enemy.engine w)
  /\ lockState (Enemy.engine w') = lockState (Enemy.engine w).
Proof.
  revert i w. induction l as [|enemy l IH]; intros i w Hh; cbv zeta.
  - simpl. repeat split; try done; lra.
  - cbn [Enemy.updateFrom]. change (List.length (enemy :: l)) with (S (List.length l)).
    rewrite S_INR.
    destruct (updateEnemy_health q deltaTime (clock i) w enemy) as [Hstep Hlock].
    set (w1 := Enemy.updateEnemy q deltaTime (clock i) w enemy) in *.
    assert (0 <= en_playerHealth (Enemy.engine w1)
            /\ en_playerHealth (Enemy.engine w) - 1 <= en_playerHealth (Enemy.engine w1)
               <= en_playerHealth (Enemy.engine w)) as (H0 & H1 & H2).
    { destruct Hstep as [-> | ->]; [lra|].
      unfold Rmax. destruct (Rle_dec _ _); lra. }
    destruct (IH (S i) w1 H0) as (H0' & [H1' H2'] & Hlock').
    repeat split; try lra. by rewrite Hlock'.
Qed.

(** X24. A call of [Enemy.update] costs the player at most one point of
    health for each enemy of the array and never takes the health below 0;
    it leaves the lock and the array of enemies as they are. *)
Theorem enemies_cost_one_each (q : Quaternion.t) (deltaTime : R) (clock : nat -> R)
    (w : Enemy.World) :
  0 <= en_playerHealth (Enemy.engine w) ->
  let w' := Enemy.update q deltaTime clock w in
  0 <= en_playerHealth (Enemy.engine w')
  /\ en_playerHealth (Enemy.engine w) - INR (List.length (en_enemies (Enemy.engine w)))
     <= en_playerHealth (Enemy.engine w') <= en_playerHealth (Enemy.engine w)
  /\ lockState (Enemy.engine w') = lockState (Enemy.engine w).
Proof. intros Hh. by apply updateFrom_health. Qed.

Lemma enemies_cost_one_each_witness :
  3 - INR 2 <= en_playerHealth
                 (Enemy.engine (Enemy.update Quaternion.identity 0.016 (fun _ => 5) duelArena))
  <= 3.
Proof.
  apply (enemies_cost_one_each Quaternion.identity 0.016 (fun _ => 5) duelArena).
  simpl. lra.
Defined.

(** ** The hearts and the interactables *)

Lemma Rltb_INR (i n : nat) : Rltb (INR i) (INR n) = bool_decide (i < n)%nat.
Proof.
  destruct (decide (i < n)%nat) as [H | H].
  - rewrite bool_decide_eq_true_2 by done. apply Rltb_true. by apply lt_INR.
  - rewrite bool_decide_eq_false_2 by done. apply Rltb_false.
    apply le_INR. lia.
Qed.

Lemma hearts_of_whole (n : nat) (l : list bool) :
  (n <= List.length l)%nat ->
  imap (fun index _ => Rltb (INR index) (INR n)) l
  = replicate n true ++ replicate (List.length l - n) false.
Proof.
  intros Hn. apply list_eq. intros i. rewrite list_lookup_imap.
  destruct (l !! i) as [b|] eqn:Hl; simpl.
  - apply lookup_lt_Some in Hl. rewrite Rltb_INR.
    destruct (decide (i < n)%nat) as [H | H].
    + rewrite bool_decide_eq_true_2 by done.
      rewrite lookup_app_l by (rewrite length_replicate; lia).
      symmetry. by apply lookup_replicate_2.
    + rewrite bool_decide_eq_false_2 by done.
      rewrite lookup_app_r by (rewrite length_replicate; lia).
      rewrite length_replicate. symmetry. apply lookup_replicate_2. lia.
  - apply lookup_ge_None in Hl. symmetry. apply lookup_ge_None.
    rewrite length_app, !length_replicate. lia.
Qed.

Lemma showsHearts_length (g : Hud.Game) (n : nat) :
  (n <= Hud.maxHealth g)%nat -> showsHearts g n ->
  List.length (Hud.hearts g) = Hud.maxHealth g.
Proof.
  intros Hn Hs. rewrite Hs, length_app, !length_replicate. lia.
Qed.

Lemma updateHealth_sync (g : Hud.Game) (n : nat) :
  wholeHearts g n -> List.length (Hud.hearts g) = Hud.maxHealth g ->
  showsHearts (Hud.updateHealth g) n.
Proof.
  intros [Hh Hn] Hlen. unfold showsHearts, Hud.updateHealth. simpl.
  rewrite Hh, <- Hlen. apply hearts_of_whole. lia.
Qed.

Lemma action_sync (g : Hud.Game) (i : Hud.Interactable) :
  heartsInSync g -> heartsInSync (Hud.action g i).
Proof.
  intros (n & [Hh Hn] & Hs). unfold Hud.action.
  destruct (Hud.i_type i); [by exists n | | by exists n].
  destruct (Rltb _ _) eqn:Hroom; [|by exists n].
  apply Rltb_true in Hroom. rewrite Hh in Hroom. apply INR_lt in Hroom.
  pose proof (showsHearts_length g n Hn Hs) as Hlen.
  set (g1 := Hud.with_engine g _).
  assert (wholeHearts g1 (S n)) as Hw.
  { split; [|simpl; lia]. rewrite S_INR. unfold g1. simpl. by rewrite Hh. }
  pose proof (updateHealth_sync g1 (S n) Hw Hlen) as Hs1.
  exists (S n).
  destruct (Hud.findIndex _ _); split; try done; by destruct Hw.
Qed.

Lemma visit_sync (playerBox : Box3.t) (n k : nat) (g : Hud.Game) :
  heartsInSync g -> heartsInSync (Hud.visit playerBox n k g).
Proof.
  revert k g. induction n as [|n IH]; intros k g Hg; [done|].
  simpl. apply IH. destruct (Hud.interactables g !! k) as [i|]; [|done].
  destruct (Box3.intersectsBox _ _); [by apply action_sync | done].
Qed.

(** X25. The hearts on the page keep showing the health: once
    [createHealth] has drawn them for a whole number of hearts, a blow of 1
    and the key [e], pressed and released anywhere, leave the health a
    whole number between 0 and [maxHealth] and that many full hearts on the
    page, the full ones first. *)
Theorem hearts_stay_in_sync (g : Hud.Game) (n : nat) :
  wholeHearts g n ->
  heartsInSync (Hud.createHealth g)
  /\ (heartsInSync g ->
      (forall q, heartsInSync (Hud.takeDamage g 1 q))
      /\ (forall playerBox, heartsInSync (Hud.onKeyDownE g playerBox))
      /\ heartsInSync (Hud.onKeyUpE g)).
Proof.
  intros [Hh Hn]. split; [|intros (m & [Hh' Hm] & Hs); split; [|split]].
  - exists n. split; [done|]. unfold showsHearts, Hud.createHealth. simpl.
    rewrite Hh. apply list_eq. intros i.
    rewrite list_lookup_fmap.
    destruct (decide (i < Hud.maxHealth g)%nat) as [Hi | Hi].
    + rewrite lookup_seq_lt by done. simpl. rewrite Rltb_INR.
      destruct (decide (i < n)%nat) as [H | H].
      * rewrite bool_decide_eq_true_2 by done.
        rewrite lookup_app_l by (rewrite length_replicate; lia).
        symmetry. by apply lookup_replicate_2.
      * rewrite bool_decide_eq_false_2 by done.
        rewrite lookup_app_r by (rewrite length_replicate; lia).
        rewrite length_replicate. symmetry. apply lookup_replicate_2. lia.
    + rewrite lookup_seq_ge by lia. simpl. symmetry. apply lookup_ge_None.
      rewrite length_app, !length_replicate. lia.
  - intros q. pose proof (showsHearts_length g m Hm Hs) as Hlen.
    exists (m - 1)%nat.
    assert (Rmax 0 (en_playerHealth (Hud.engine g) - 1) = INR (m - 1)) as Hnew.
    { rewrite Hh'. destruct m as [|m].
      - simpl. rewrite Rmax_left; lra.
      - rewrite S_INR. replace (S m - 1)%nat with m by lia.
        pose proof (pos_INR m). rewrite Rmax_right; lra. }
    split.
    + split; [|simpl; lia]. unfold Hud.takeDamage. simpl.
      by rewrite takeDamage_playerHealth.
    + unfold showsHearts, Hud.takeDamage. simpl. rewrite Hnew, <- Hlen.
      apply hearts_of_whole. lia.
  - intros playerBox. unfold Hud.onKeyDownE, Hud.checkInteraction. simpl.
    apply visit_sync. by exists m.
  - by exists m.
Qed.

Lemma hearts_stay_in_sync_witness : heartsInSync meadow.
Proof.
  apply (hearts_stay_in_sync
           (Hud.mkGame (en_with_playerHealth sparring 2) 3 false
              [Hud.mkInteractable 7 farBox Hud.Door;
               Hud.mkInteractable 8 unitBox Hud.Collectible;
               Hud.mkInteractable 9 unitBox Hud.Sign] [] []) 2).
  split; simpl; [lra | lia].
Defined.

Lemma visit_idle (playerBox : Box3.t) (n k : nat) (g : Hud.Game) :
  (forall j i, (k <= j < k + n)%nat -> Hud.interactables g !! j = Some i ->
               outOfReach playerBox i) ->
  Hud.visit playerBox n k g = g.
Proof.
  revert k. induction n as [|n IH]; intros k Hidle; [done|].
  simpl. destruct (Hud.interactables g !! k) as [i|] eqn:Hi.
  - rewrite (Hidle k i) by (done || lia). apply IH. intros j i' Hj. apply Hidle. lia.
  - apply IH. intros j i' Hj. apply Hidle. lia.
Qed.

Lemma visit_add (playerBox : Box3.t) (n m k : nat) (g : Hud.Game) :
  Hud.visit playerBox (n + m) k g
  = Hud.visit playerBox m (k + n) (Hud.visit playerBox n k g).
Proof.
  revert k g. induction n as [|n IH]; intros k g.
  - simpl. by rewrite Nat.add_0_r.
  - cbn [Nat.add Hud.visit]. rewrite IH. f_equal. lia.
Qed.

Lemma findIndex_middle (pre rest : list Hud.Interactable) (c : Hud.Interactable) :
  Forall (fun i => Hud.i_object i <> Hud.i_object c) pre ->
  Hud.findIndex (Hud.i_object c) (pre ++ c :: rest) = Some (List.length pre).
Proof.
  induction pre as [|i pre IH]; intros Hpre; simpl.
  - by rewrite Nat.eqb_refl.
  - apply Forall_cons in Hpre as [Hi Hpre].
    apply Nat.eqb_neq in Hi. rewrite Hi, (IH Hpre). done.
Qed.

Lemma visit_S (playerBox : Box3.t) (n k : nat) (g : Hud.Game) :
  Hud.visit playerBox (S n) k g
  = Hud.visit playerBox n (S k)
      match Hud.interactables g !! k with
      | Some i => if Box3.intersectsBox playerBox (Hud.i_box i) then Hud.action g i else g
      | None => g
      end.
Proof. reflexivity. Qed.

Lemma action_collect (g : Hud.Game) (pre rest : list Hud.Interactable)
    (c : Hud.Interactable) :
  Hud.interactables g = pre ++ c :: rest ->
  Forall (fun i => Hud.i_object i <> Hud.i_object c) pre ->
  Hud.i_type c = Hud.Collectible ->
  en_playerHealth (Hud.engine g) < INR (Hud.maxHealth g) ->
  Hud.action g c
  = Hud.with_interactables
      (Hud.updateHealth
         (Hud.with_engine g
            (en_with_playerHealth (Hud.engine g) (en_playerHealth (Hud.engine g) + 1))))
      (pre ++ rest).
Proof.
  intros Hl Hpre Hc Hroom. unfold Hud.action. rewrite Hc.
  apply Rltb_true in Hroom. rewrite Hroom.
  cbn [Hud.interactables Hud.updateHealth Hud.with_engine Hud.with_hearts].
  rewrite Hl, findIndex_middle by done. by rewrite delete_middle.
Qed.

(** X26. A heart that is picked up is spliced out of the array while
    [checkInteraction] iterates over it, and the entry that followed it is
    passed over: when the player touches a heart it can use and nothing
    else but possibly the next entry, pressing [e] collects the heart and
    does nothing to that entry (a sign shows no message, a second heart
    stays), as if the player had not been touching it. *)
Theorem pickup_skips_next (g : Hud.Game) (playerBox : Box3.t)
    (pre post : list Hud.Interactable) (c next : Hud.Interactable) :
  Hud.interactables g = pre ++ c :: next :: post ->
  Forall (fun i => outOfReach playerBox i /\ Hud.i_object i <> Hud.i_object c) pre ->
  Forall (outOfReach playerBox) post ->
  Hud.i_type c = Hud.Collectible ->
  Box3.intersectsBox playerBox (Hud.i_box c) = true ->
  en_playerHealth (Hud.engine g) < INR (Hud.maxHealth g) ->
  let g' := Hud.onKeyDownE g playerBox in
  Hud.interactables g' = pre ++ next :: post
  /\ Hud.alerts g' = Hud.alerts g
  /\ en_playerHealth (Hud.engine g') = en_playerHealth (Hud.engine g) + 1.
Proof.
  intros Hl Hpre Hpost Hc Htouch Hroom g'.
  unfold g', Hud.onKeyDownE, Hud.checkInteraction. cbn [Hud.interact Hud.with_interact negb].
  set (g1 := Hud.with_interact g true).
  assert (Hud.interactables g1 = pre ++ c :: next :: post) as Hl1 by exact Hl.
  rewrite Hl1, length_app. change (List.length (c :: next :: post))
    with (S (S (List.length post))).
  rewrite visit_add. rewrite (visit_idle playerBox (List.length pre) 0 g1).
  2:{ intros j i Hj Hi. rewrite Hl1, lookup_app_l in Hi by lia.
      apply list_elem_of_lookup_2 in Hi.
      rewrite Forall_forall in Hpre. by destruct (Hpre i Hi). }
  rewrite visit_S. change (0 + List.length pre)%nat with (List.length pre).
  rewrite Hl1, list_lookup_middle by done. rewrite Htouch.
  rewrite (action_collect g1 pre (next :: post) c Hl1); try done.
  2:{ eapply Forall_impl; [exact Hpre | by intros i [_ H]]. }
  rewrite visit_idle; [done|].
  intros j i Hj Hi. cbn [Hud.interactables Hud.with_interactables] in Hi.
  rewrite lookup_app_r in Hi by lia.
  destruct (j - List.length pre)%nat as [|d] eqn:Hd; [lia|].
  simpl in Hi.
  apply list_elem_of_lookup_2 in Hi. rewrite Forall_forall in Hpost. by apply Hpost.
Qed.

Lemma pickup_skips_next_witness :
  Hud.interactables (Hud.onKeyDownE meadow unitBox)
  = [Hud.mkInteractable 7 farBox Hud.Door; Hud.mkInteractable 9 unitBox Hud.Sign]
  /\ Hud.alerts (Hud.onKeyDownE meadow unitBox) = []
  /\ en_playerHealth (Hud.engine (Hud.onKeyDownE meadow unitBox)) = 2 + 1.
Proof.
  apply (pickup_skips_next meadow unitBox [Hud.mkInteractable 7 farBox Hud.Door] []
           (Hud.mkInteractable 8 unitBox Hud.Collectible)
           (Hud.mkInteractable 9 unitBox Hud.Sign)).
  - reflexivity.
  - apply Forall_cons. split; [|apply Forall_nil_2]. split; [|simpl; lia].
    unfold outOfReach, Box3.intersectsBox. simpl.
    assert (Rgtb 50 1 = true) as -> by (apply Rgtb_true; lra).
    by rewrite orb_true_r.
  - apply Forall_nil_2.
  - reflexivity.
  - unfold Box3.intersectsBox. simpl.
    assert (Rltb 1 0 = false) as -> by (apply Rltb_false; lra).
    assert (Rgtb 0 1 = false) as -> by (apply Rgtb_false; lra).
    reflexivity.
  - simpl. lra.
Defined.

(** ** Runs of events *)

(** X27. Along any run of the modelled events (ticks, lock toggles, attacks,
    blows, resets, expiring timers, animation frames, input and moves of
    the enemies) a consistent lock state stays consistent: whenever the
    lock flag is set afterwards, a target is held and it is one of the
    enemies of the array. *)
Theorem lock_consistent_along_runs (s s' : Engine) :
  lockConsistent s -> rtc step s s' ->
  lockConsistent s'
  /\ (en_targetLocked s' = true ->
      exists r, en_currentTarget s' = Some r /\ r ∈ en_enemies s').
Proof.
  intros Hs Hrun.
  assert (lockConsistent s') as Hs'.
  { induction Hrun as [|a b c Hstep _ IH]; [done|].
    apply IH. by apply (lock_never_dangles a). }
  split; [done|]. intros Hl. destruct Hs' as [Hflag Hlive].
  destruct (en_currentTarget s') as [r|] eqn:Hr.
  - exists r. split; [done | by apply Hlive].
  - by apply Hflag in Hl.
Qed.

Lemma lock_consistent_along_runs_witness :
  lockConsistent (Player.update (Player.attack (Camera.toggleTargetLock duel) 0) 0.016).
Proof.
  apply (lock_consistent_along_runs duel).
  - split; simpl; [split; [done | intros H; by contradict H] | done].
  - eapply rtc_l; [apply step_toggle|].
    eapply rtc_l; [apply (step_attack _ 0)|].
    eapply rtc_l; [apply (step_update _ 0.016)|]. apply rtc_refl.
Defined.

Lemma distanceTo_vertical (a b : Vector3.t) :
  Rabs (Vector3.y a - Vector3.y b) <= Vector3.distanceTo a b.
Proof.
  unfold Vector3.distanceTo. rewrite <- sqrt_Rsqr_abs. apply sqrt_le_1_alt.
  unfold Vector3.distanceToSquared, Rsqr. cbv zeta.
  pose proof (Rle_0_sqr (Vector3.x a - Vector3.x b)) as Hx.
  pose proof (Rle_0_sqr (Vector3.z a - Vector3.z b)) as Hz.
  unfold Rsqr in *. lra.
Qed.

(** X28. An enemy reaches the player only at its own height: while the
    player is higher above an enemy (or lower below it) than the enemy's
    attack range, an iteration of [Enemy.update] for that enemy never lands
    a blow, whatever the clock says; the player and the health stay as
    they are. *)
Theorem out_of_vertical_reach (q : Quaternion.t) (deltaTime t : R) (w : Enemy.World)
    (enemy : ref) (e : EnemyObj) (a : Enemy.AI) :
  en_heap (Enemy.engine w) !! enemy = Some e ->
  Enemy.minds w !! enemy = Some a ->
  Enemy.attackRange a
  < Rabs (Vector3.y (e_position e) - Vector3.y (p_position (en_player (Enemy.engine w)))) ->
  let w' := Enemy.updateEnemy q deltaTime t w enemy in
  en_player (Enemy.engine w') = en_player (Enemy.engine w)
  /\ en_playerHealth (Enemy.engine w') = en_playerHealth (Enemy.engine w)
  /\ Enemy.lastAttackTime <$> Enemy.minds w' !! enemy = Some (Enemy.lastAttackTime a).
Proof.
  intros He Ha Hhigh w'. unfold w', Enemy.updateEnemy. rewrite He, Ha.
  pose proof (distanceTo_vertical (e_position e)
                (p_position (en_player (Enemy.engine w)))) as Hd.
  destruct (Rltb _ _);
    [|cbn [Enemy.minds Enemy.engine]; by rewrite lookup_insert_eq].
  assert (Rgtb (Enemy.distanceToPlayer (Enemy.engine w) e)
            (Enemy.attackRange (Enemy.with_aggro a true)) = true) as ->.
  { apply Rgtb_true. unfold Enemy.distanceToPlayer. simpl. lra. }
  cbn [Enemy.minds Enemy.engine]. by rewrite lookup_insert_eq.
Qed.

Lemma out_of_vertical_reach_witness :
  en_playerHealth
    (Enemy.engine
       (Enemy.updateEnemy Quaternion.identity 0.016 100
          (Enemy.mkWorld hovering (<[0%nat := Enemy.create]> ∅)) 0%nat))
  = 3.
Proof.
  apply (out_of_vertical_reach Quaternion.identity 0.016 100
           (Enemy.mkWorld hovering (<[0%nat := Enemy.create]> ∅)) 0%nat
           (mkEnemy (Vector3.mk 0 0.8 1) 2 true) Enemy.create); [reflexivity..|].
  simpl. unfold Rabs. destruct (Rcase_abs _); lra.
Defined.
